(** * Design Token Manager: the token model, its validation, the token store,
      snapshots and the diff engine of [src/design_token_manager.py]

    How the program is read here:
    - a Python [str] is a [string], a sequence of 8-bit characters read as
      ASCII text.  The functions of [Module Py] and the regular expressions
      are those of [str] and [re] on ASCII text only, the strings for which
      [Py.isascii] holds: Unicode letters, digits and white space are
      outside this model, and the statements that say which names and
      values are accepted, or what a slug or a camel-case key looks like,
      carry [Py.isascii] as a hypothesis.  A Python [int] is a [Z]; SQLite
      stores a signed 64-bit integer, and binding another one raises
      [OverflowError];
    - a [dict] keyed by strings whose order is not observed is a
      [gmap string _];
    - the two SQLite tables are lists of rows in insertion order.  The
      lookup [WHERE id=? OR name=?] of table [tokens] is answered through
      the two unique indexes, the term on [id] first: [fetchone()] gives
      the row whose id is the key when there is one, and otherwise the row
      whose name is the key.  A lookup of table [token_snapshots] takes the
      first matching row in insertion order;
    - a call that raises returns [inl] of the exception, with the database
      as the call left it;
    - the clock [_now()] and the identifiers of [uuid.uuid4()] are arguments;
    - a snapshot's JSON document is kept as the data it serializes. *)

From Stdlib Require Import ZArith Ascii String List Bool Lia Sorted.
From stdpp Require Import base option list strings gmap fin_maps pretty.

Local Open Scope string_scope.
Local Open Scope list_scope.

(* ====================================================================== *)
(** ** Python string primitives *)
(* ====================================================================== *)

Module Py.

Definition code (c : ascii) : N := N_of_ascii c.

(** [s.isascii()]: every character is below 128.  On such strings the
    functions below are the methods of [str]. *)
Definition isascii (s : string) : bool :=
  forallb (fun c => (code c <? 128)%N) (list_ascii_of_string s).

Definition between (lo hi c : ascii) : bool :=
  ((code lo <=? code c) && (code c <=? code hi))%N.

(** [str.isupper] / [str.islower] on one ASCII character. *)
Definition is_upper (c : ascii) : bool := between "A" "Z" c.
Definition is_lower (c : ascii) : bool := between "a" "z" c.
Definition is_cased (c : ascii) : bool := is_upper c || is_lower c.
Definition is_digit (c : ascii) : bool := between "0" "9" c.

Definition lower_char (c : ascii) : ascii :=
  if is_upper c then ascii_of_N (code c + 32) else c.
Definition upper_char (c : ascii) : ascii :=
  if is_lower c then ascii_of_N (code c - 32) else c.

(** [str.isspace] on ASCII: TAB, LF, VT, FF, CR, FS, GS, RS, US and space. *)
Definition is_space (c : ascii) : bool :=
  ((9 <=? code c) && (code c <=? 13) || (28 <=? code c) && (code c <=? 32))%N.

(** [s.lower()], on ASCII text *)
Fixpoint lower (s : string) : string :=
  match s with
  | EmptyString => EmptyString
  | String c s' => String (lower_char c) (lower s')
  end.

(** [s.upper()], on ASCII text *)
Fixpoint upper (s : string) : string :=
  match s with
  | EmptyString => EmptyString
  | String c s' => String (upper_char c) (upper s')
  end.

(** [s.title()], on ASCII text: the flag is CPython's [previous_is_cased]. *)
Fixpoint title_from (previous_is_cased : bool) (s : string) : string :=
  match s with
  | EmptyString => EmptyString
  | String c s' =>
      if is_lower c then
        String (if previous_is_cased then c else upper_char c) (title_from true s')
      else if is_upper c then
        String (if previous_is_cased then lower_char c else c) (title_from true s')
      else String c (title_from false s')
  end.
Definition title (s : string) : string := title_from false s.

(** [s.lstrip()], [s.rstrip()], [s.strip()], on ASCII text *)
Fixpoint lstrip (s : string) : string :=
  match s with
  | EmptyString => EmptyString
  | String c s' => if is_space c then lstrip s' else s
  end.

Fixpoint rstrip (s : string) : string :=
  match s with
  | EmptyString => EmptyString
  | String c s' =>
      match rstrip s' with
      | EmptyString => if is_space c then EmptyString else String c EmptyString
      | r => String c r
      end
  end.

Definition strip (s : string) : string := rstrip (lstrip s).

(** [s.startswith(p)] *)
Fixpoint startswith (s p : string) : bool :=
  match p, s with
  | EmptyString, _ => true
  | String a p', String b s' => if Ascii.eqb a b then startswith s' p' else false
  | String _ _, EmptyString => false
  end.

(** [sub in s] *)
Fixpoint contains (sub s : string) : bool :=
  startswith s sub ||
  match s with
  | EmptyString => false
  | String _ s' => contains sub s'
  end.

(** [s.replace(a, b)] for one-character [a] and [b]. *)
Fixpoint replace_char (a b : ascii) (s : string) : string :=
  match s with
  | EmptyString => EmptyString
  | String c s' => String (if Ascii.eqb c a then b else c) (replace_char a b s')
  end.

(** [sep.join(l)] *)
Fixpoint join (sep : string) (l : list string) : string :=
  match l with
  | [] => EmptyString
  | [x] => x
  | x :: l' => x +:+ sep +:+ join sep l'
  end.

(** [s.split(sep)] for a one-character separator: never returns the empty
    list; the empty string gives one empty field. *)
Fixpoint split_char (sep : ascii) (s : string) : list string :=
  match s with
  | EmptyString => [EmptyString]
  | String c s' =>
      if Ascii.eqb c sep then EmptyString :: split_char sep s'
      else match split_char sep s' with
           | f :: fs => String c f :: fs
           | [] => [String c EmptyString]
           end
  end.

(** [str(b)] for a [bool] and [str(n)] for an [int]. *)
Definition str_bool (b : bool) : string := if b then "True" else "False".
Definition str_int (n : Z) : string := pretty n.

(** Concatenation of a list of strings, [<empty>.join(l)]. *)
Definition concat (l : list string) : string := fold_right String.append EmptyString l.

End Py.

(* ====================================================================== *)
(** ** The fragment of Python's [re] the program uses *)
(* ====================================================================== *)

Module Re.

(** Regular expressions over characters; a character class is its
    membership test. *)
Inductive regex : Type :=
| Void
| Eps
| Class (p : ascii -> bool)
| Cat (r1 r2 : regex)
| Alt (r1 r2 : regex)
| Star (r : regex).

Definition chr (c : ascii) : regex := Class (Ascii.eqb c).

(** A literal word. *)
Fixpoint lit (s : string) : regex :=
  match s with
  | EmptyString => Eps
  | String c s' => Cat (chr c) (lit s')
  end.

Definition plus (r : regex) : regex := Cat r (Star r).
(** [r{n}] *)
Fixpoint rep (n : nat) (r : regex) : regex :=
  match n with
  | O => Eps
  | S n' => Cat r (rep n' r)
  end.

(** [re.IGNORECASE] on ASCII: a character is accepted when one of its two
    cases is. *)
Fixpoint ignorecase (r : regex) : regex :=
  match r with
  | Void => Void
  | Eps => Eps
  | Class p => Class (fun c => p (Py.lower_char c) || p (Py.upper_char c))
  | Cat r1 r2 => Cat (ignorecase r1) (ignorecase r2)
  | Alt r1 r2 => Alt (ignorecase r1) (ignorecase r2)
  | Star r1 => Star (ignorecase r1)
  end.

(** The words of a regular expression. *)
Inductive Matches : regex -> list ascii -> Prop :=
| MEps : Matches Eps []
| MClass p c : p c = true -> Matches (Class p) [c]
| MCat r1 r2 w1 w2 : Matches r1 w1 -> Matches r2 w2 -> Matches (Cat r1 r2) (w1 ++ w2)
| MAltL r1 r2 w : Matches r1 w -> Matches (Alt r1 r2) w
| MAltR r1 r2 w : Matches r2 w -> Matches (Alt r1 r2) w
| MStarNil r : Matches (Star r) []
| MStarApp r w1 w2 : Matches r w1 -> Matches (Star r) w2 -> Matches (Star r) (w1 ++ w2).

(** The matcher: Brzozowski derivatives. *)
Fixpoint nullable (r : regex) : bool :=
  match r with
  | Void => false
  | Eps => true
  | Class _ => false
  | Cat r1 r2 => nullable r1 && nullable r2
  | Alt r1 r2 => nullable r1 || nullable r2
  | Star _ => true
  end.

Fixpoint deriv (c : ascii) (r : regex) : regex :=
  match r with
  | Void => Void
  | Eps => Void
  | Class p => if p c then Eps else Void
  | Cat r1 r2 =>
      if nullable r1 then Alt (Cat (deriv c r1) r2) (deriv c r2)
      else Cat (deriv c r1) r2
  | Alt r1 r2 => Alt (deriv c r1) (deriv c r2)
  | Star r1 => Cat (deriv c r1) (Star r1)
  end.

(** [w] as a whole is a word of [r]. *)
Fixpoint matches (r : regex) (w : list ascii) : bool :=
  match w with
  | [] => nullable r
  | c :: w' => matches (deriv c r) w'
  end.

(** A pattern of the program: a body, and whether it ends in [$].  Every
    pattern is used anchored at the start of the subject ([re.match], and
    the patterns also begin with [^]). *)
Record pattern : Type := Pattern { body : regex; dollar : bool }.

(** What [$] accepts as the rest of the subject: the end, or one final
    newline. *)
Definition at_end (rest : list ascii) : bool :=
  match rest with
  | [] => true
  | [c] => Ascii.eqb c "010"
  | _ => false
  end.

Definition rest_ok (p : pattern) (rest : list ascii) : bool :=
  if dollar p then at_end rest else true.

(** [re.match(p, s)] (with [re.IGNORECASE] when [ic]) is not [None]: some
    prefix of the subject is a word of the body and the rest is accepted. *)
Definition re_match (ic : bool) (p : pattern) (s : string) : bool :=
  let w := list_ascii_of_string s in
  let r := if ic then ignorecase (body p) else body p in
  existsb (fun n => matches r (take n w) && rest_ok p (drop n w))
          (seq 0 (S (length w))).

(** The length of the longest prefix of [w] that is a word of [r].  For a
    repeated character class, the only pattern the program splits on, this
    is the greedy match of [re]. *)
Fixpoint longest_match (r : regex) (w : list ascii) : option nat :=
  match w with
  | [] => if nullable r then Some 0 else None
  | c :: w' =>
      match longest_match (deriv c r) w' with
      | Some n => Some (S n)
      | None => if nullable r then Some 0 else None
      end
  end.

(** [re.split(r, s)] for a pattern that matches no empty word: scan left to
    right, cut at each match.  [skip] counts the characters of the current
    match still to pass, [cur] is the field read so far, reversed. *)
Fixpoint split_go (r : regex) (w : list ascii) (skip : nat) (cur : list ascii)
  : list string :=
  match w with
  | [] => [string_of_list_ascii (rev cur)]
  | c :: w' =>
      match skip with
      | S k => split_go r w' k cur
      | O =>
          match longest_match r w with
          | Some (S n) => string_of_list_ascii (rev cur) :: split_go r w' n []
          | _ => split_go r w' 0 (c :: cur)
          end
      end
  end.

Definition re_split (r : regex) (s : string) : list string :=
  split_go r (list_ascii_of_string s) 0 [].

End Re.

(* ====================================================================== *)
(** ** Constants and utility helpers *)
(* ====================================================================== *)

Definition CATEGORIES : list string :=
  ["color"; "spacing"; "typography"; "shadow"; "radius";
   "opacity"; "z-index"; "breakpoint"; "motion"; "border"].

(** [f"{CATEGORIES}"], the [repr] of the tuple. *)
Definition CATEGORIES_repr : string :=
  "('color', 'spacing', 'typography', 'shadow', 'radius', 'opacity', 'z-index', 'breakpoint', 'motion', 'border')".

Definition in_categories (c : string) : bool :=
  existsb (String.eqb c) CATEGORIES.

Definition _slug (name : string) : string :=
  Py.replace_char " " "-" (Py.replace_char "." "-" (Py.replace_char "/" "-" (Py.lower name))).

(** The class [[-/. ]]. *)
Definition is_separator (c : ascii) : bool :=
  Ascii.eqb c "-" || Ascii.eqb c "/" || Ascii.eqb c "." || Ascii.eqb c " ".

(** [[-/. ]+] *)
Definition separators : Re.regex := Re.plus (Re.Class is_separator).

(** [parts[0].lower() + <empty>.join(p.title() for p in parts[1:])];
    [re.split] returns at least one field, so the first case never runs. *)
Definition _camel (name : string) : string :=
  match Re.re_split separators name with
  | [] => EmptyString
  | p0 :: parts => Py.lower p0 +:+ Py.concat (map Py.title parts)
  end.

Definition is_hex (c : ascii) : bool :=
  Py.between "0" "9" c || Py.between "a" "f" c || Py.between "A" "F" c.

Definition hex : Re.regex := Re.Class is_hex.

Definition color_patterns : list Re.pattern :=
  [ Re.Pattern (Re.Cat (Re.chr "#") (Re.Alt (Re.rep 3 hex) (Re.Cat (Re.rep 3 hex) (Re.rep 3 hex)))) true;
    Re.Pattern (Re.Cat (Re.chr "#") (Re.rep 8 hex)) true;
    Re.Pattern (Re.lit "rgb(") false;
    Re.Pattern (Re.lit "rgba(") false;
    Re.Pattern (Re.lit "hsl(") false;
    Re.Pattern (Re.lit "hsla(") false;
    Re.Pattern (Re.lit "oklch(") false;
    Re.Pattern (Re.lit "color(") false;
    Re.Pattern (Re.lit "var(--") false;
    Re.Pattern (Re.lit "transparent") true;
    Re.Pattern (Re.lit "currentColor") true;
    Re.Pattern (Re.lit "inherit") true ].

(** [_is_valid_color]: [str.strip] and [re.IGNORECASE] as they are on ASCII
    text. *)
Definition _is_valid_color (value : string) : bool :=
  existsb (fun p => Re.re_match true p (Py.strip value)) color_patterns.

(* ====================================================================== *)
(** ** Data models *)
(* ====================================================================== *)

Record Token : Type := mkToken {
  id : string;
  name : string;
  category : string;
  value : string;
  description : string;
  aliases : list string;
  deprecated : bool;
  deprecated_reason : string;
  tags : list string;
  created_at : string;
  updated_at : string;
  version : Z
}.

(** [^[a-z0-9][a-z0-9\-./]*$] *)
Definition is_name_start (c : ascii) : bool :=
  Py.between "a" "z" c || Py.between "0" "9" c.
Definition is_name_char (c : ascii) : bool :=
  is_name_start c || Ascii.eqb c "-" || Ascii.eqb c "." || Ascii.eqb c "/".
Definition name_pattern : Re.pattern :=
  Re.Pattern (Re.Cat (Re.Class is_name_start) (Re.Star (Re.Class is_name_char))) true.

(** [^[\d.]+(?:px|rem|em|%|vw|vh)$]; on ASCII text the digits are [0-9]. *)
Definition is_digit_or_dot (c : ascii) : bool := Py.is_digit c || Ascii.eqb c ".".
Definition spacing_pattern : Re.pattern :=
  Re.Pattern
    (Re.Cat (Re.plus (Re.Class is_digit_or_dot))
       (Re.Alt (Re.lit "px") (Re.Alt (Re.lit "rem") (Re.Alt (Re.lit "em")
          (Re.Alt (Re.lit "%") (Re.Alt (Re.lit "vw") (Re.lit "vh")))))))
    true.

Definition to_css_var (self : Token) (prefix : string) : string :=
  prefix +:+ "-" +:+ _slug (name self).

Definition to_js_key (self : Token) : string := _camel (name self).

Definition name_required : string := "name is required".
Definition name_error (self : Token) : string :=
  "name '" +:+ name self +:+ "' must be lowercase, digits, hyphens, dots or slashes".
Definition category_error (self : Token) : string :=
  "category '" +:+ category self +:+ "' must be one of " +:+ CATEGORIES_repr.
Definition value_required : string := "value is required".
Definition color_error (self : Token) : string :=
  "value '" +:+ value self +:+ "' doesn't look like a valid color".
Definition spacing_error (self : Token) : string :=
  "spacing value '" +:+ value self +:+ "' should include a unit (px/rem/em)".

(** One optional [errors.append]. *)
Definition when (b : bool) (msg : string) : list string := if b then [msg] else [].

(** [Token.validate]: the list of validation error strings, in the order
    the checks run (empty = valid). *)
Definition validate (self : Token) : list string :=
  when (String.eqb (name self) "") name_required
  ++ when (negb (Re.re_match false name_pattern (Py.lower (name self)))) (name_error self)
  ++ when (negb (in_categories (category self))) (category_error self)
  ++ when (String.eqb (value self) "") value_required
  ++ when (String.eqb (category self) "color" && negb (_is_valid_color (value self)))
          (color_error self)
  ++ when (String.eqb (category self) "spacing"
           && negb (Re.re_match false spacing_pattern (Py.strip (value self)))
           && negb (Py.startswith (value self) "var("))
          (spacing_error self).

(** [_count_categories] *)
Definition _count_categories (tokens : list Token) : gmap string nat :=
  fold_left (fun counts t => <[category t := S (default 0 (counts !! category t))]> counts)
            tokens ∅.

(** The dictionary [TokenSet.to_dict] builds and [json.dumps] writes.  The
    token dictionaries of [asdict] carry exactly the fields of [Token], so
    they are kept as [Token] values; writing to JSON text and reading back
    is the identity on this data. *)
Record Metadata : Type := mkMetadata {
  count : nat;
  categories : gmap string nat;
  deprecated_count : nat
}.

Record TokenSet : Type := mkTokenSet {
  ts_version : string;
  ts_name : string;
  ts_description : string;
  ts_created_at : string;
  ts_tokens : list Token;
  ts_metadata : Metadata
}.

(** [TokenSet(...).to_dict()] *)
Definition to_dict (version name_ : string) (tokens : list Token)
    (created : string) (description_ : string) : TokenSet :=
  mkTokenSet version name_ description_ created tokens
    (mkMetadata (length tokens) (_count_categories tokens)
       (length (filter (fun t => deprecated t = true) tokens))).

(* ====================================================================== *)
(** ** The database *)
(* ====================================================================== *)

(** A row of table [tokens]: [aliases] and [tags] are comma-joined text,
    [deprecated] an integer. *)
Record Row : Type := mkRow {
  r_id : string;
  r_name : string;
  r_category : string;
  r_value : string;
  r_description : string;
  r_aliases : string;
  r_deprecated : Z;
  r_deprecated_reason : string;
  r_tags : string;
  r_created_at : string;
  r_updated_at : string;
  r_version : Z
}.

(** A row of table [token_snapshots]; [s_data] is the JSON document. *)
Record SnapshotRow : Type := mkSnapshotRow {
  s_id : string;
  s_version : string;
  s_name : string;
  s_description : string;
  s_data : TokenSet;
  s_created_at : string
}.

Record DB : Type := mkDB {
  tokens : list Row;
  token_snapshots : list SnapshotRow
}.

Definition empty_db : DB := mkDB [] [].

Definition set_tokens (rows : list Row) (db : DB) : DB :=
  mkDB rows (token_snapshots db).

(** What a call raises. [KeyError] carries the key; its message is
    [Token not found: ] or [Snapshot not found: ] followed by the [repr] of
    the key.  [OverflowError] is what [sqlite3] raises for an [int] it
    cannot bind. *)
Inductive exn : Type :=
| ValueError (msg : string)
| KeyError (key : string)
| OverflowError.

(** Whether SQLite can hold an [int]: [sqlite3] raises [OverflowError]
    while binding any other, before the statement runs. *)
Definition fits_int64 (n : Z) : bool :=
  ((- 2 ^ 63 <=? n) && (n <? 2 ^ 63))%Z.

Definition result (A : Type) : Type := (exn + A)%type.

(** [aliases.split(",") if aliases else []] *)
Definition split_list (text : string) : list string :=
  if String.eqb text "" then [] else Py.split_char "," text.

Definition int_of_bool (b : bool) : Z := if b then 1%Z else 0%Z.
Definition bool_of_int (n : Z) : bool := negb (Z.eqb n 0).

Definition _row_to_token (row : Row) : Token :=
  mkToken (r_id row) (r_name row) (r_category row) (r_value row)
    (r_description row) (split_list (r_aliases row))
    (bool_of_int (r_deprecated row)) (r_deprecated_reason row)
    (split_list (r_tags row)) (r_created_at row) (r_updated_at row)
    (r_version row).

(** The tuple bound to [INSERT INTO tokens VALUES (?,...)]. *)
Definition row_of_token (t : Token) : Row :=
  mkRow (id t) (name t) (category t) (value t) (description t)
    (Py.join "," (aliases t)) (int_of_bool (deprecated t))
    (deprecated_reason t) (Py.join "," (tags t))
    (created_at t) (updated_at t) (version t).

(** [WHERE id=? OR name=?] *)
Definition id_or_name (key : string) (row : Row) : bool :=
  String.eqb (r_id row) key || String.eqb (r_name row) key.

(** [conn.execute("SELECT * FROM tokens WHERE id=? OR name=?").fetchone()]:
    the row whose id is the key, if there is one, and otherwise the row
    whose name is the key. *)
Definition select_token (key : string) (db : DB) : option Row :=
  match find (fun r => String.eqb (r_id r) key) (tokens db) with
  | Some row => Some row
  | None => find (fun r => String.eqb (r_name r) key) (tokens db)
  end.

(** The [INSERT] fails with [IntegrityError] when the primary key [id] or
    the unique [name] is taken. *)
Definition integrity_error (row : Row) (db : DB) : bool :=
  existsb (fun r => String.eqb (r_id r) (r_id row) || String.eqb (r_name r) (r_name row))
          (tokens db).

Definition stamp_new (token : Token) (now : string) : Token :=
  mkToken (id token) (name token) (category token) (value token)
    (description token) (aliases token) (deprecated token)
    (deprecated_reason token) (tags token)
    (if String.eqb (created_at token) "" then now else created_at token)
    now (version token).

(** [add_token]; [now] is the reading of [_now()].  The parameters are bound
    before the [INSERT] runs, so a version SQLite cannot hold raises
    [OverflowError] whether or not the id or the name is taken. *)
Definition add_token (token : Token) (now : string) (db : DB) : result Token * DB :=
  match validate token with
  | (_ :: _) as errors =>
      (inl (ValueError ("Token validation failed: " +:+ Py.join "; " errors)), db)
  | [] =>
      let token := stamp_new token now in
      if negb (fits_int64 (version token)) then (inl OverflowError, db)
      else if integrity_error (row_of_token token) db then
        (inl (ValueError ("Token with name '" +:+ name token +:+ "' already exists")), db)
      else (inr token, set_tokens (tokens db ++ [row_of_token token]) db)
  end.

(** The keyword arguments of [update_token] that name a field of [Token];
    [None] is a keyword not supplied.  Keywords that name no attribute are
    skipped by the [hasattr] test and have no effect. *)
Record Fields : Type := mkFields {
  f_id : option string;
  f_name : option string;
  f_category : option string;
  f_value : option string;
  f_description : option string;
  f_aliases : option (list string);
  f_deprecated : option bool;
  f_deprecated_reason : option string;
  f_tags : option (list string);
  f_created_at : option string;
  f_updated_at : option string;
  f_version : option Z
}.

Definition no_fields : Fields :=
  mkFields None None None None None None None None None None None None.

(** The [setattr] loop. *)
Definition set_fields (fields : Fields) (t : Token) : Token :=
  mkToken (default (id t) (f_id fields)) (default (name t) (f_name fields))
    (default (category t) (f_category fields)) (default (value t) (f_value fields))
    (default (description t) (f_description fields))
    (default (aliases t) (f_aliases fields))
    (default (deprecated t) (f_deprecated fields))
    (default (deprecated_reason t) (f_deprecated_reason fields))
    (default (tags t) (f_tags fields))
    (default (created_at t) (f_created_at fields))
    (default (updated_at t) (f_updated_at fields))
    (default (version t) (f_version fields)).

(** [token.updated_at = _now(); token.version += 1] *)
Definition bump (now : string) (t : Token) : Token :=
  mkToken (id t) (name t) (category t) (value t) (description t) (aliases t)
    (deprecated t) (deprecated_reason t) (tags t) (created_at t) now
    (version t + 1)%Z.

(** [UPDATE tokens SET category=?, value=?, ... WHERE id=?] on one row. *)
Definition update_row (t : Token) (row : Row) : Row :=
  if String.eqb (r_id row) (id t) then
    mkRow (r_id row) (r_name row) (category t) (value t) (description t)
      (Py.join "," (aliases t)) (int_of_bool (deprecated t))
      (deprecated_reason t) (Py.join "," (tags t))
      (r_created_at row) (updated_at t) (version t)
  else row.

Definition update_token (name_or_id : string) (fields : Fields) (now : string)
    (db : DB) : result Token * DB :=
  match select_token name_or_id db with
  | None => (inl (KeyError name_or_id), db)
  | Some row =>
      let token := bump now (set_fields fields (_row_to_token row)) in
      match validate token with
      | (_ :: _) as errors =>
          (inl (ValueError ("Validation failed: " +:+ Py.join "; " errors)), db)
      | [] =>
          if negb (fits_int64 (version token)) then (inl OverflowError, db)
          else (inr token, set_tokens (map (update_row token) (tokens db)) db)
      end
  end.

Definition get_token (name_or_id : string) (db : DB) : option Token :=
  _row_to_token <$> select_token name_or_id db.

(** [DELETE FROM tokens WHERE id=? OR name=?]; the result is
    [cur.rowcount > 0]. *)
Definition delete_token (name_or_id : string) (db : DB) : bool * DB :=
  (existsb (id_or_name name_or_id) (tokens db),
   set_tokens (List.filter (fun r => negb (id_or_name name_or_id r)) (tokens db)) db).

(** [ORDER BY category, name]: byte-wise comparison of the two columns. *)
Definition row_leb (x y : Row) : bool :=
  match String.compare (r_category x) (r_category y) with
  | Lt => true
  | Gt => false
  | Eq => String.leb (r_name x) (r_name y)
  end.

Fixpoint insert_sorted (x : Row) (l : list Row) : list Row :=
  match l with
  | [] => [x]
  | y :: l' => if row_leb x y then x :: l else y :: insert_sorted x l'
  end.

Definition order_by_category_name (l : list Row) : list Row :=
  fold_right insert_sorted [] l.

(** [list_tokens]; [if category:] treats [None] and the empty string alike. *)
Definition list_tokens (category_ : option string) (include_deprecated : bool)
    (db : DB) : list Token :=
  let by_category (r : Row) :=
    match category_ with
    | None => true
    | Some c => String.eqb c "" || String.eqb (r_category r) c
    end in
  let by_deprecated (r : Row) := include_deprecated || Z.eqb (r_deprecated r) 0 in
  map _row_to_token
    (order_by_category_name
       (List.filter (fun r => by_category r && by_deprecated r) (tokens db))).

(* ====================================================================== *)
(** ** Bulk import *)
(* ====================================================================== *)

(** A JSON value given for [$value] / [value]; [str(value)] is taken of it.
    Floats, arrays and objects in that place are outside this model. *)
Inductive jscalar : Type :=
| JStr (s : string)
| JInt (n : Z)
| JBool (b : bool)
| JNull.

Definition py_str (v : jscalar) : string :=
  match v with
  | JStr s => s
  | JInt n => Py.str_int n
  | JBool b => Py.str_bool b
  | JNull => "None"
  end.

(** The keys [import_json] reads of one record; [None] is a missing key.
    The records covered are those a token file has: a value that is a
    string, an integer, a boolean or null, a description that is a string
    and tags that are a list of strings.  A JSON file can hold other values
    there, and for some of them [add_token] raises an exception that is no
    [ValueError] (tags that [str.join] cannot join, a description SQLite
    cannot bind), which [import_json] does not catch: such files are outside
    this model.  A [$type] that is no string behaves as any string outside
    [CATEGORIES]. *)
Record ImportSpec : Type := mkImportSpec {
  dollar_value : option jscalar;
  plain_value : option jscalar;
  dollar_type : option string;
  plain_category : option string;
  dollar_description : option string;
  plain_description : option string;
  spec_tags : option (list string)
}.

(** One value of [tokens_data]: a dictionary or something else. *)
Inductive ImportEntry : Type :=
| NotADict
| Dict (spec : ImportSpec).

(** [isinstance(spec, dict)] *)
Definition is_record (entry : ImportEntry) : bool :=
  match entry with
  | Dict _ => true
  | NotADict => false
  end.

(** [d.get(k1, d.get(k2, dflt))] *)
Definition get2 {A : Type} (first second : option A) (dflt : A) : A :=
  match first with
  | Some v => v
  | None => default dflt second
  end.

(** The [Token(...)] built for one record; [uid] is [str(uuid.uuid4())],
    [t1] and [t2] the two readings of [_now()]. *)
Definition token_of_spec (name_ : string) (spec : ImportSpec) (uid t1 t2 : string)
  : Token :=
  let value_ := get2 (dollar_value spec) (plain_value spec) (JStr "") in
  let category_ := get2 (dollar_type spec) (plain_category spec) "color" in
  let category_ := if in_categories category_ then category_ else "color" in
  mkToken uid name_ category_ (py_str value_)
    (get2 (dollar_description spec) (plain_description spec) "")
    [] false "" (default [] (spec_tags spec)) t1 t2 1.

(** The state of the import loop: the counters, the messages, the database,
    and how many identifiers and clock readings were drawn so far. *)
Record ImportState : Type := mkImportState {
  added : nat;
  skipped : nat;
  errors : list string;
  st_db : DB;
  drawn : nat
}.

Section BulkImport.
(** The identifiers [uuid4] hands out and the readings of the clock. *)
Variable uuid4 : nat -> string.
Variable _now : nat -> string.

(** One turn of [for name, spec in tokens_data.items()]. *)
Definition import_entry (st : ImportState) (entry : string * ImportEntry)
  : ImportState :=
  match entry.2 with
  | NotADict => st
  | Dict spec =>
      let k := drawn st in
      let t := token_of_spec entry.1 spec (uuid4 k) (_now (3 * k)) (_now (3 * k + 1)) in
      match add_token t (_now (3 * k + 2)) (st_db st) with
      | (inr _, db') =>
          mkImportState (S (added st)) (skipped st) (errors st) db' (S k)
      | (inl (ValueError e), db') =>
          if Py.contains "already exists" e then
            mkImportState (added st) (S (skipped st)) (errors st) db' (S k)
          else
            mkImportState (added st) (skipped st) (errors st ++ [e]) db' (S k)
      | (inl _, db') => (* the token has version 1: add_token raises nothing else *)
          mkImportState (added st) (skipped st) (errors st) db' (S k)
      end
  end.

(** [import_json] from [tokens_data] on; [first] is the number of
    identifiers drawn before the call. *)
Definition import_json (tokens_data : list (string * ImportEntry)) (first : nat)
    (db : DB) : (nat * nat * list string) * DB :=
  let st := fold_left import_entry tokens_data (mkImportState 0 0 [] db first) in
  ((added st, skipped st, errors st), st_db st).
End BulkImport.

(* ====================================================================== *)
(** ** Snapshots *)
(* ====================================================================== *)

(** [export_json_snapshot]: [stamp] is [utcnow().strftime("%Y%m%d%H%M%S")],
    [now] the reading of [_now()]. *)
Definition export_json_snapshot (version_ name_ description_ : string)
    (stamp now : string) (db : DB) : TokenSet :=
  let toks := list_tokens None true db in
  let version_ := if String.eqb version_ "" then stamp else version_ in
  to_dict version_ name_ toks now description_.

(** [save_snapshot]: [sid] is the fresh identifier, [now2] the second clock
    reading.  The function has no handler for a taken primary key; [None]
    is that uncaught [IntegrityError]. *)
Definition save_snapshot (version_ name_ description_ : string)
    (stamp now sid now2 : string) (db : DB) : option (string * DB) :=
  let data := export_json_snapshot version_ name_ description_ stamp now db in
  if existsb (fun s => String.eqb (s_id s) sid) (token_snapshots db) then None
  else
    Some (sid, mkDB (tokens db)
                 (token_snapshots db
                  ++ [mkSnapshotRow sid version_ name_ description_ data now2])).

(** [SELECT data FROM token_snapshots WHERE id=? OR version=?], first row. *)
Definition select_snapshot (key : string) (db : DB) : option SnapshotRow :=
  find (fun s => String.eqb (s_id s) key || String.eqb (s_version s) key)
       (token_snapshots db).

(** [{t.name: t for t in ...}]: a later token replaces an earlier one of
    the same name. *)
Definition by_name (toks : list Token) : gmap string Token :=
  fold_left (fun m t => <[name t := t]> m) toks ∅.

Definition _load_snapshot_tokens (snapshot_id : string) (db : DB)
  : result (gmap string Token) :=
  match select_snapshot snapshot_id db with
  | None => inl (KeyError snapshot_id)
  | Some row => inr (by_name (ts_tokens (s_data row)))
  end.

(* ====================================================================== *)
(** ** Diff *)
(* ====================================================================== *)

(** The three fields a [changed] record shows of one side. *)
Record Tracked : Type := mkTracked {
  tr_value : string;
  tr_category : string;
  tr_deprecated : bool
}.

Record Change : Type := mkChange { before : Tracked; after : Tracked }.

Definition tracked (t : Token) : Tracked :=
  mkTracked (value t) (category t) (deprecated t).

Record Summary : Type := mkSummary {
  n_added : nat;
  n_removed : nat;
  n_changed : nat;
  n_unchanged : nat
}.

Record Diff : Type := mkDiff {
  d_a : string;
  d_b : string;
  d_summary : Summary;
  d_added : gmap string Token;
  d_removed : gmap string Token;
  d_changed : gmap string Change
}.

(** [ta.value != tb.value or ta.category != tb.category or
    ta.deprecated != tb.deprecated] *)
Definition differs (ta tb : Token) : bool :=
  negb (String.eqb (value ta) (value tb))
  || negb (String.eqb (category ta) (category tb))
  || negb (Bool.eqb (deprecated ta) (deprecated tb)).

(** The body of [for n in set(a) & set(b)]. *)
Definition diff_step (a b : gmap string Token)
    (acc : gmap string Change * nat) (n : string) : gmap string Change * nat :=
  match a !! n, b !! n with
  | Some ta, Some tb =>
      if differs ta tb then (<[n := mkChange (tracked ta) (tracked tb)]> acc.1, acc.2)
      else (acc.1, S acc.2)
  | _, _ => acc
  end.

(** [diff] once both references are resolved. *)
Definition diff_maps (ref_a ref_b : string) (a b : gmap string Token) : Diff :=
  let added_ := filter (fun kv => a !! kv.1 = None) b in
  let removed_ := filter (fun kv => b !! kv.1 = None) a in
  let '(changed_, unchanged_) :=
    fold_left (diff_step a b) (elements (dom a ∩ dom b)) (∅, 0) in
  mkDiff ref_a ref_b
    (mkSummary (size added_) (size removed_) (size changed_) unchanged_)
    added_ removed_ changed_.

(** The inner [_get]. *)
Definition _get (sid : string) (db : DB) : result (gmap string Token) :=
  if String.eqb sid "current" then inr (by_name (list_tokens None true db))
  else _load_snapshot_tokens sid db.

Definition diff (snapshot_id_a snapshot_id_b : string) (db : DB) : result Diff :=
  match _get snapshot_id_a db with
  | inl e => inl e
  | inr a =>
      match _get snapshot_id_b db with
      | inl e => inl e
      | inr b => inr (diff_maps snapshot_id_a snapshot_id_b a b)
      end
  end.

(* ====================================================================== *)
(** ** Sequences of store operations, and the keys of a store *)
(* ====================================================================== *)

Inductive op : Type :=
| Add (token : Token) (now : string)
| Update (name_or_id : string) (fields : Fields) (now : string)
| Delete (name_or_id : string).

(** One call on the live store; what it returns or raises is dropped. *)
Definition run_op (db : DB) (o : op) : DB :=
  match o with
  | Add t now => (add_token t now db).2
  | Update k f now => (update_token k f now db).2
  | Delete k => (delete_token k db).2
  end.

Definition run_ops (ops : list op) (db : DB) : DB := fold_left run_op ops db.

(** The constraints of table [tokens]: [id] is the primary key and [name]
    is unique. *)
Definition unique_keys (db : DB) : Prop :=
  NoDup (map r_id (tokens db)) ∧ NoDup (map r_name (tokens db)).

(** What holds of every database the program builds: the constraints of
    table [tokens], and in each stored snapshot distinct token names and a
    [count] that is the number of its tokens. *)
Definition well_formed (db : DB) : Prop :=
  unique_keys db
  ∧ ∀ s, In s (token_snapshots db) →
      NoDup (map name (ts_tokens (s_data s)))
      ∧ count (ts_metadata (s_data s)) = length (ts_tokens (s_data s)).

(* ====================================================================== *)
(** ** The shapes the specification names, for comparison with the code *)
(* ====================================================================== *)

(** [#] followed by exactly [n] hexadecimal digits. *)
Definition is_hex_color (n : nat) (s : string) : bool :=
  match s with
  | String c h =>
      Ascii.eqb c "#" && Nat.eqb (String.length h) n
      && forallb is_hex (list_ascii_of_string h)
  | EmptyString => false
  end.

(** The accepted colour shapes, read on the value without its surrounding
    white space and without regard to letter case: a 3-, 6- or 8-digit hex
    value, one of the functional forms, a [var(--] reference, or one of
    the three literals. *)
Definition color_shape (value_ : string) : bool :=
  let v := Py.strip value_ in
  let l := Py.lower v in
  is_hex_color 3 v || is_hex_color 6 v || is_hex_color 8 v
  || Py.startswith l "rgb(" || Py.startswith l "rgba("
  || Py.startswith l "hsl(" || Py.startswith l "hsla("
  || Py.startswith l "oklch(" || Py.startswith l "color("
  || Py.startswith l "var(--"
  || String.eqb l "transparent" || String.eqb l "currentcolor"
  || String.eqb l "inherit".

(** Splitting on every run of separator characters, written directly:
    [in_run] tells that the previous character was a separator. *)
Fixpoint split_runs (in_run : bool) (s : string) : list string :=
  match s with
  | EmptyString => [EmptyString]
  | String c s' =>
      if is_separator c then
        if in_run then split_runs true s' else EmptyString :: split_runs true s'
      else
        match split_runs false s' with
        | f :: fs => String c f :: fs
        | [] => [String c EmptyString]
        end
  end.

(** The characters of a name that are no separators, in order. *)
Fixpoint without_separators (s : string) : string :=
  match s with
  | EmptyString => EmptyString
  | String c s' =>
      if is_separator c then without_separators s'
      else String c (without_separators s')
  end.

(** No character of the text is a separator. *)
Fixpoint separator_free (s : string) : bool :=
  match s with
  | EmptyString => true
  | String c s' => negb (is_separator c) && separator_free s'
  end.

(** The specification's segment rule: first letter upper, rest unchanged. *)
Definition capitalize (s : string) : string :=
  match s with
  | EmptyString => EmptyString
  | String c s' => String (Py.upper_char c) s'
  end.

(** [camelKey] as the specification words it. *)
Definition camelKey_spec (name_ : string) : string :=
  match split_runs false name_ with
  | [] => EmptyString
  | p0 :: parts => Py.lower p0 +:+ Py.concat (map capitalize parts)
  end.

(** The case of one character of a title-cased segment, given the
    character before it ([None] at the start of the segment): a letter is
    upper case when it starts the segment or follows a character that is
    no letter, and lower case when it follows a letter. *)
Definition title_char (prev : option ascii) (c : ascii) : ascii :=
  if Py.is_cased c then
    match prev with
    | Some q => if Py.is_cased q then Py.lower_char c else Py.upper_char c
    | None => Py.upper_char c
    end
  else c.

(** What [changed] holds for one name: a record when the name is on both
    sides and one of value, category, deprecated differs. *)
Definition changed_record (a b : gmap string Token) (n : string) : option Change :=
  match a !! n, b !! n with
  | Some ta, Some tb =>
      if differs ta tb then Some (mkChange (tracked ta) (tracked tb)) else None
  | _, _ => None
  end.

(** A name on both sides whose value, category and deprecated agree. *)
Definition same_tracked (a b : gmap string Token) (n : string) : bool :=
  match a !! n, b !! n with
  | Some ta, Some tb => negb (differs ta tb)
  | _, _ => false
  end.

(** A list the comma-joined column can hold: every item is non-empty and
    has no comma. *)
Definition well_shaped (l : list string) : Prop :=
  forall x, In x l -> x <> "" /\ Py.contains "," x = false.

(** The length of the run of separators a word starts with. *)
Fixpoint run_length (w : list ascii) : nat :=
  match w with
  | c :: w' => if is_separator c then S (run_length w') else 0
  | [] => 0
  end.

(** Put [u] in front of the first field. *)
Definition cons_head (u : string) (fields : list string) : list string :=
  match fields with
  | f :: fs => (u +:+ f) :: fs
  | [] => [u]
  end.

(* ====================================================================== *)
(** ** Validate-all sweep *)
(* ====================================================================== *)

(** The three lists of [results]: names, [(name, errors)] and
    [(name, reason)]. *)
Record Sweep : Type := mkSweep {
  sw_valid : list string;
  sw_invalid : list (string * list string);
  sw_deprecated : list (string * string)
}.

Record SweepSummary : Type := mkSweepSummary {
  sum_total : nat;
  sum_valid : nat;
  sum_invalid : nat;
  sum_deprecated : nat
}.

(** The body of [for t in tokens]. *)
Definition sweep_step (results : Sweep) (t : Token) : Sweep :=
  let errs := validate t in
  let results :=
    if deprecated t then
      mkSweep (sw_valid results) (sw_invalid results)
        (sw_deprecated results ++ [(name t, deprecated_reason t)])
    else results in
  match errs with
  | _ :: _ =>
      mkSweep (sw_valid results) (sw_invalid results ++ [(name t, errs)])
        (sw_deprecated results)
  | [] =>
      mkSweep (sw_valid results ++ [name t]) (sw_invalid results)
        (sw_deprecated results)
  end.

Definition validate_all (db : DB) : Sweep * SweepSummary :=
  let toks := list_tokens None true db in
  let results := fold_left sweep_step toks (mkSweep [] [] []) in
  (results,
   mkSweepSummary (length toks) (length (sw_valid results))
     (length (sw_invalid results)) (length (sw_deprecated results))).

(* ====================================================================== *)
(** ** Seeding the defaults *)
(* ====================================================================== *)

(** One dictionary of [SEED_TOKENS]; each has the four keys. *)
Record SeedSpec : Type := mkSeed {
  seed_name : string;
  seed_category : string;
  seed_value : string;
  seed_description : string
}.

(** The en dash of the first description stands as its UTF-8 bytes;
    descriptions are only stored. *)
Definition SEED_TOKENS : list SeedSpec :=
  [
    mkSeed "color/brand/primary" "color" "#FF1D6C" "Hot Pink – primary brand";
    mkSeed "color/brand/secondary" "color" "#2979FF" "Electric Blue";
    mkSeed "color/brand/accent" "color" "#F5A623" "Amber";
    mkSeed "color/brand/violet" "color" "#9C27B0" "Violet";
    mkSeed "color/text/primary" "color" "#0F0F0F" "Near-black body text";
    mkSeed "color/text/secondary" "color" "#4B5563" "Muted text";
    mkSeed "color/bg/base" "color" "#FFFFFF" "Page background";
    mkSeed "color/bg/surface" "color" "#F9FAFB" "Card / panel background";
    mkSeed "color/semantic/success" "color" "#16A34A" "Success green";
    mkSeed "color/semantic/error" "color" "#DC2626" "Error red";
    mkSeed "color/semantic/warning" "color" "#D97706" "Warning amber";
    mkSeed "spacing/1" "spacing" "4px" "4px = half-unit";
    mkSeed "spacing/2" "spacing" "8px" "8px = 1 unit";
    mkSeed "spacing/3" "spacing" "12px" "12px";
    mkSeed "spacing/4" "spacing" "16px" "16px = 2 units";
    mkSeed "spacing/6" "spacing" "24px" "24px";
    mkSeed "spacing/8" "spacing" "32px" "32px = 4 units";
    mkSeed "spacing/12" "spacing" "48px" "48px";
    mkSeed "spacing/16" "spacing" "64px" "64px";
    mkSeed "radius/sm" "radius" "4px" "Small radius";
    mkSeed "radius/md" "radius" "8px" "Medium radius";
    mkSeed "radius/lg" "radius" "12px" "Large radius";
    mkSeed "radius/xl" "radius" "16px" "XL radius";
    mkSeed "radius/full" "radius" "9999px" "Pill / full round";
    mkSeed "typography/size/xs" "typography" "0.75rem" "12px";
    mkSeed "typography/size/sm" "typography" "0.875rem" "14px";
    mkSeed "typography/size/md" "typography" "1rem" "16px base";
    mkSeed "typography/size/lg" "typography" "1.125rem" "18px";
    mkSeed "typography/size/xl" "typography" "1.25rem" "20px";
    mkSeed "typography/size/2xl" "typography" "1.5rem" "24px";
    mkSeed "typography/size/4xl" "typography" "2.25rem" "36px";
    mkSeed "shadow/sm" "shadow" "0 1px 2px rgba(0,0,0,0.05)" "Subtle shadow";
    mkSeed "shadow/md" "shadow" "0 4px 6px -1px rgba(0,0,0,0.1)" "Card shadow";
    mkSeed "shadow/lg" "shadow" "0 10px 15px -3px rgba(0,0,0,0.1)" "Modal shadow";
    mkSeed "shadow/xl" "shadow" "0 20px 25px -5px rgba(0,0,0,0.1)" "Overlay shadow"
  ].

Record SeedState : Type := mkSeedState {
  sd_added : nat;
  sd_db : DB;
  sd_drawn : nat
}.

Section Seeding.
(** The identifiers [uuid4] hands out and the readings of the clock. *)
Variable uuid4 : nat -> string.
Variable _now : nat -> string.

(** The [Token(...)] built for one seed. *)
Definition token_of_seed (spec : SeedSpec) (k : nat) : Token :=
  mkToken (uuid4 k) (seed_name spec) (seed_category spec) (seed_value spec)
    (seed_description spec) [] false "" [] (_now (3 * k)) (_now (3 * k + 1)) 1.

(** One turn of [for spec in SEED_TOKENS]: a [ValueError] is passed over;
    the token has version 1, so [add_token] raises nothing else. *)
Definition seed_entry (st : SeedState) (spec : SeedSpec) : SeedState :=
  let k := sd_drawn st in
  match add_token (token_of_seed spec k) (_now (3 * k + 2)) (sd_db st) with
  | (inr _, db') => mkSeedState (S (sd_added st)) db' (S k)
  | (inl _, db') => mkSeedState (sd_added st) db' (S k)
  end.

(** The loop of [seed_defaults] over a list of seeds. *)
Definition seed_loop (specs : list SeedSpec) (first : nat) (db : DB) : nat * DB :=
  let st := fold_left seed_entry specs (mkSeedState 0 db first) in
  (sd_added st, sd_db st).

Definition seed_defaults (first : nat) (db : DB) : nat * DB :=
  seed_loop SEED_TOKENS first db.
End Seeding.

(* ====================================================================== *)
(** ** Listing snapshots *)
(* ====================================================================== *)

(** Insertion into a list ordered by [leb], and the sort it gives; rows of
    equal rank keep their order. *)
Fixpoint insert_with {A : Type} (leb : A -> A -> bool) (x : A) (l : list A) : list A :=
  match l with
  | [] => [x]
  | y :: l' => if leb x y then x :: l else y :: insert_with leb x l'
  end.

Definition sort_with {A : Type} (leb : A -> A -> bool) (l : list A) : list A :=
  fold_right (insert_with leb) [] l.

(** The columns [list_snapshots] selects. *)
Record SnapshotHeader : Type := mkSnapshotHeader {
  h_id : string;
  h_version : string;
  h_name : string;
  h_description : string;
  h_created_at : string
}.

Definition header_of (s : SnapshotRow) : SnapshotHeader :=
  mkSnapshotHeader (s_id s) (s_version s) (s_name s) (s_description s) (s_created_at s).

(** [ORDER BY created_at DESC] *)
Definition newer_first (x y : SnapshotRow) : bool :=
  String.leb (s_created_at y) (s_created_at x).

Definition list_snapshots (db : DB) : list SnapshotHeader :=
  map header_of (sort_with newer_first (token_snapshots db)).

(* ====================================================================== *)
(** ** Exports *)
(* ====================================================================== *)

Definition newline : string := String "010" EmptyString.

(** [by_cat.setdefault(t.category, []).append(t)] for each token in turn. *)
Definition group_by_category (toks : list Token) : gmap string (list Token) :=
  fold_left
    (fun by_cat t => <[category t := default [] (by_cat !! category t) ++ [t]]> by_cat)
    toks ∅.

(** [sorted(d)]: the keys of a dictionary in ascending order. *)
Definition sorted_keys {V : Type} (d : gmap string V) : list string :=
  sort_with String.leb (elements (dom d)).

(** The lines [export_css] writes for one token: the description when there
    is one, the declaration, and one line for each alias. *)
Definition css_token_lines (prefix : string) (t : Token) : list string :=
  let var := to_css_var t prefix in
  let dep := if deprecated t then "  /* @deprecated */" else "" in
  let comment :=
    if String.eqb (description t) "" then "" else "  /* " +:+ description t +:+ " */" in
  (if String.eqb comment "" then [] else [comment])
  ++ ["  " +:+ var +:+ ": " +:+ value t +:+ ";" +:+ dep]
  ++ map (fun alias =>
            "  " +:+ prefix +:+ "-" +:+ _slug alias +:+ ": var(" +:+ var +:+ "); /* alias */")
         (aliases t).

(** The header of a category, the lines of its tokens, one empty line. *)
Definition css_block (prefix : string) (cat : string) (toks : list Token) : list string :=
  ("  /* " +:+ Py.upper cat +:+ " */") :: flat_map (css_token_lines prefix) toks ++ [""].

(** The list [lines] of [export_css]; [by_cat[cat]] is read for keys of
    [by_cat] only. *)
Definition export_css_lines (prefix : string) (toks : list Token) : list string :=
  let by_cat := group_by_category toks in
  [":root {"]
  ++ flat_map (fun cat => css_block prefix cat (default [] (by_cat !! cat)))
       (sorted_keys by_cat)
  ++ ["}"].

Definition export_css (prefix : string) (category_ : option string)
    (include_deprecated : bool) (db : DB) : string :=
  match list_tokens category_ include_deprecated db with
  | [] => "/* No tokens found */"
  | (_ :: _) as toks => Py.join newline (export_css_lines prefix toks)
  end.

(** [_CAT_MAP]: the section of the Tailwind theme for each category; the
    extractor is [t.value] in every entry.  Category [border] has none. *)
Definition _CAT_MAP : list (string * string) :=
  [("color", "colors"); ("spacing", "spacing"); ("typography", "fontSize");
   ("radius", "borderRadius"); ("shadow", "boxShadow"); ("opacity", "opacity");
   ("z-index", "zIndex"); ("breakpoint", "screens"); ("motion", "transitionDuration")].

(** [_CAT_MAP[category]], if [category in _CAT_MAP]. *)
Definition cat_map (category_ : string) : option string :=
  snd <$> find (fun entry => String.eqb entry.1 category_) _CAT_MAP.

(** The dictionary [tw], its sections in the order of the literal. *)
Definition tw_sections : list string :=
  ["colors"; "spacing"; "fontSize"; "borderRadius"; "boxShadow"; "opacity";
   "zIndex"; "screens"; "transitionDuration"].

Definition tw_empty : list (string * gmap string string) :=
  map (fun key => (key, ∅)) tw_sections.

(** [tw[tw_key][slug] = v] *)
Definition tw_set (tw_key slug v : string) (tw : list (string * gmap string string))
  : list (string * gmap string string) :=
  map (fun section =>
         if String.eqb section.1 tw_key then (section.1, <[slug := v]> section.2)
         else section)
      tw.

(** [_slug(t.name).split("-")[-1]] *)
Definition tw_slug (t : Token) : string :=
  default "" (last (Py.split_char "-" (_slug (name t)))).

(** One turn of [for t in tokens]. *)
Definition tw_step (tw : list (string * gmap string string)) (t : Token)
  : list (string * gmap string string) :=
  match cat_map (category t) with
  | Some tw_key => tw_set tw_key (tw_slug t) (value t) tw
  | None => tw
  end.

(** What one turn of the loop does to the section [tw_key], and whether a
    token is written to that section. *)
Definition tw_section_step (tw_key : string) (vals : gmap string string) (t : Token)
  : gmap string string :=
  match cat_map (category t) with
  | Some k => if String.eqb tw_key k then <[tw_slug t := value t]> vals else vals
  | None => vals
  end.

Definition tw_writes (tw_key : string) (t : Token) : bool :=
  match cat_map (category t) with
  | Some k => String.eqb tw_key k
  | None => false
  end.

(** Whether a dictionary is true, that is, has an entry. *)
Definition has_entry (vals : gmap string string) : bool :=
  match map_to_list vals with
  | [] => false
  | _ :: _ => true
  end.

(** [tw] after the loop over the tokens and after the empty sections were
    removed. *)
Definition tailwind_theme (toks : list Token) : list (string * gmap string string) :=
  List.filter (fun section => has_entry section.2) (fold_left tw_step toks tw_empty).

(** The order of [sorted(vals.items())]: pairs by key, then by value. *)
Definition item_leb (x y : string * string) : bool :=
  match String.compare x.1 y.1 with
  | Lt => true
  | Gt => false
  | Eq => String.leb x.2 y.2
  end.

Definition tw_section_lines (section : string * gmap string string) : list string :=
  ["      " +:+ section.1 +:+ ": {"]
  ++ map (fun item => "        '" +:+ item.1 +:+ "': '" +:+ item.2 +:+ "',")
       (sort_with item_leb (map_to_list section.2))
  ++ ["      },"].

(** [export_tailwind_config]; [now] is the reading of [_now()]. *)
Definition export_tailwind_config (now : string) (db : DB) : string :=
  let toks := list_tokens None false db in
  Py.join newline
    (["/** @type {import('tailwindcss').Config} */";
      "/** Generated by BlackRoad Studio Design Token Manager */";
      "/** " +:+ now +:+ " */";
      "module.exports = {";
      "  theme: {";
      "    extend: {"]
     ++ flat_map tw_section_lines (tailwind_theme toks)
     ++ ["    },"; "  },"; "};"]).

(* ====================================================================== *)
(** ** Every call that writes, and the databases they build *)
(* ====================================================================== *)

Inductive action : Type :=
| Call (o : op)
| ImportJson (uuid4 _now : nat -> string) (tokens_data : list (string * ImportEntry))
    (first : nat)
| SeedDefaults (uuid4 _now : nat -> string) (first : nat)
| SaveSnapshot (version_ name_ description_ stamp now sid now2 : string).

(** One call; a call that raises leaves the database as it was. *)
Definition run_action (db : DB) (a : action) : DB :=
  match a with
  | Call o => run_op db o
  | ImportJson uuid4 _now tokens_data first =>
      (import_json uuid4 _now tokens_data first db).2
  | SeedDefaults uuid4 _now first => (seed_defaults uuid4 _now first db).2
  | SaveSnapshot version_ name_ description_ stamp now sid now2 =>
      match save_snapshot version_ name_ description_ stamp now sid now2 db with
      | Some (_, db') => db'
      | None => db
      end
  end.

Definition run_actions (actions : list action) (db : DB) : DB :=
  fold_left run_action actions db.

(** The two independent parts of [Token.validate]: the checks that read
    the name, and those that read category and value. *)
Definition name_valid (n : string) : bool :=
  negb (String.eqb n "") && Re.re_match false name_pattern (Py.lower n).

Definition content_valid (c v : string) : bool :=
  in_categories c && negb (String.eqb v "")
  && (negb (String.eqb c "color") || _is_valid_color v)
  && (negb (String.eqb c "spacing")
      || Re.re_match false spacing_pattern (Py.strip v)
      || Py.startswith v "var(").

(** What the tables hold in every database the program builds: unique ids
    and names, rows that validate, a 0/1 deprecation flag, and snapshots
    with distinct names and a true count. *)
Definition sound (db : DB) : Prop :=
  well_formed db
  ∧ ∀ r, In r (tokens db) →
      validate (_row_to_token r) = []
      ∧ (r_deprecated r = 0 ∨ r_deprecated r = 1)%Z.

(** The name shape, written directly: a first character that is a letter
    or a digit, then letters, digits, hyphens, dots and slashes, letters in
    either case; one newline may end the name. *)
Fixpoint name_rest (s : string) : bool :=
  match s with
  | EmptyString => true
  | String c EmptyString => is_name_char (Py.lower_char c) || Ascii.eqb c "010"
  | String c s' => is_name_char (Py.lower_char c) && name_rest s'
  end.

Definition name_shape (n : string) : bool :=
  match n with
  | EmptyString => false
  | String c s => is_name_start (Py.lower_char c) && name_rest s
  end.

(** The spacing shape, written directly: digits and dots, at least one,
    then one of the six units, on the value without its surrounding white
    space; or a value that begins with [var(]. *)
Definition is_unit (s : string) : bool :=
  existsb (String.eqb s) ["px"; "rem"; "em"; "%"; "vw"; "vh"].

Fixpoint number_then_unit (s : string) : bool :=
  is_unit s
  || match s with
     | String c s' => is_digit_or_dot c && number_then_unit s'
     | EmptyString => false
     end.

Definition spacing_shape (v : string) : bool :=
  match Py.strip v with
  | String c s => is_digit_or_dot c && number_then_unit s
  | EmptyString => false
  end
  || Py.startswith v "var(".

(** A [changed] record read from the other side. *)
Definition reverse_change (c : Change) : Change := mkChange (after c) (before c).

(** The stored token of a given name, if any. *)
Definition token_named (n : string) (db : DB) : option Token :=
  _row_to_token <$> find (fun r => String.eqb (r_name r) n) (tokens db).

(** A reference [diff] can resolve: the keyword [current], or the id or
    the version of a stored snapshot. *)
Definition known_reference (ref : string) (db : DB) : Prop :=
  ref = "current"
  \/ exists s, In s (token_snapshots db) /\ (s_id s = ref \/ s_version s = ref).

(** A seed read off a stored row, and whether no stored row bears a seed's
    name. *)
Definition seed_of_row (r : Row) : SeedSpec :=
  mkSeed (r_name r) (r_category r) (r_value r) (r_description r).

Definition seed_missing (db : DB) (spec : SeedSpec) : bool :=
  negb (existsb (fun r => String.eqb (r_name r) (seed_name spec)) (tokens db)).

(** Whether the token built for a seed passes [validate], which reads the
    name, the category and the value only. *)
Definition seed_valid (spec : SeedSpec) : bool :=
  match validate (mkToken "" (seed_name spec) (seed_category spec) (seed_value spec)
                    "" [] false "" [] "" "" 1) with
  | [] => true
  | _ :: _ => false
  end.

(** ** Sample data for the worked examples *)

Definition ten_o_clock : string := "2026-11-03T10:00:00".
Definition eleven_o_clock : string := "2026-11-03T11:00:00".

(** A colour token as a caller builds it, no timestamps given. *)
Definition brand_token : Token :=
  mkToken "t1" "color/brand" "color" "#fff" "" [] false "" [] "" "" 1.


(** A token with aliases and tags. *)
Definition tagged_token : Token :=
  mkToken "t1" "color/brand" "color" "#fff" "" ["primary"; "brand-blue"]
    false "" ["ui"] "" "" 1.

(** [tagged_token] as stored at ten. *)
Definition tagged_stored : Token :=
  mkToken "t1" "color/brand" "color" "#fff" "" ["primary"; "brand-blue"]
    false "" ["ui"] ten_o_clock ten_o_clock 1.

(** [brand_token] after the update [value_black_deprecated] at eleven. *)
Definition brand_updated : Token :=
  mkToken "t1" "color/brand" "color" "#000" "" [] true "" []
    ten_o_clock eleven_o_clock 2.

(** The store after [brand_token] was added at ten. *)
Definition brand_db : DB := (add_token brand_token ten_o_clock empty_db).2.

Definition brand_row : Row :=
  mkRow "t1" "color/brand" "color" "#fff" "" "" 0 "" "" ten_o_clock ten_o_clock 1.

(** Keyword arguments: a value that is no colour, a new category, a new
    value with a deprecation. *)
Definition value_blue : Fields :=
  mkFields None None None (Some "blue") None None None None None None None None.
Definition category_shadow : Fields :=
  mkFields None None (Some "shadow") None None None None None None None None None.
Definition value_black_deprecated : Fields :=
  mkFields None None None (Some "#000") None None (Some true) None None None None None.

(** A store with one snapshot of two tokens, and no live token. *)
Definition two_tokens : list Token :=
  [mkToken "t1" "color/a" "color" "#111" "" [] false "" [] "c" "u" 1;
   mkToken "t2" "spacing/b" "spacing" "4px" "" [] true "old" [] "c" "u" 3].
Definition first_snapshot : SnapshotRow :=
  mkSnapshotRow "sid-1" "v1" "first" "" (to_dict "v1" "first" two_tokens "now" "") "now".
Definition snapshot_db : DB := mkDB [] [first_snapshot].

(** [brand_db] after a snapshot [v2] was saved at eleven. *)
Definition brand_saved : DB :=
  mkDB (tokens brand_db)
    [mkSnapshotRow "sid-2" "v2" "second" ""
       (export_json_snapshot "v2" "second" "" ten_o_clock eleven_o_clock brand_db)
       eleven_o_clock].

(** Identifiers and clock readings numbered in the order they are drawn. *)
Definition numbered : nat -> string := fun k => pretty k.

(** An import source of one colour record. *)
Definition brand_source : list (string * ImportEntry) :=
  [("color/brand", Dict (mkImportSpec (Some (JStr "#fff")) None None None None None None))].

(** An import source of one record whose value is a sentence. *)
Definition quoted_source : list (string * ImportEntry) :=
  [("tok", Dict (mkImportSpec (Some (JStr "already exists")) None None None None None None))].

(** All characters, to settle facts about single characters by evaluation. *)
Definition all_ascii : list ascii := map ascii_of_nat (seq 0 256).

(* ====================================================================== *)
(** * Facts about characters and strings *)
(* ====================================================================== *)

Lemma all_ascii_complete (c : ascii) : In c all_ascii.
Proof.
  unfold all_ascii. rewrite <- (ascii_nat_embedding c).
  apply in_map, in_seq. pose proof (nat_ascii_bounded c). lia.
Qed.

Lemma forall_ascii (P : ascii -> bool) :
  forallb P all_ascii = true -> forall c, P c = true.
Proof.
  intros H c. rewrite forallb_forall in H. apply H, all_ascii_complete.
Qed.

Lemma ascii_bool_ext (f g : ascii -> bool) :
  forallb (fun c => Bool.eqb (f c) (g c)) all_ascii = true -> forall c, f c = g c.
Proof.
  intros H c. apply Bool.eqb_prop. exact (forall_ascii _ H c).
Qed.

Lemma ignorecase_char (x c : ascii) :
  (Ascii.eqb x (Py.lower_char c) || Ascii.eqb x (Py.upper_char c))
  = Ascii.eqb (Py.lower_char c) (Py.lower_char x).
Proof.
  revert x c.
  assert (H : forallb (fun x => forallb (fun c =>
             Bool.eqb (Ascii.eqb x (Py.lower_char c) || Ascii.eqb x (Py.upper_char c))
                      (Ascii.eqb (Py.lower_char c) (Py.lower_char x))) all_ascii) all_ascii = true)
    by (vm_compute; reflexivity).
  intros x c. apply Bool.eqb_prop.
  exact (forall_ascii _ (forall_ascii _ H x) c).
Qed.

(* ====================================================================== *)
(** * The matcher decides membership *)
(* ====================================================================== *)

Lemma Matches_Void_inv w : Re.Matches Re.Void w -> False.
Proof. inversion 1. Qed.

Lemma Matches_Eps_inv w : Re.Matches Re.Eps w -> w = [].
Proof. inversion 1; reflexivity. Qed.

Lemma Matches_Class_inv p w :
  Re.Matches (Re.Class p) w -> exists c, w = [c] /\ p c = true.
Proof. inversion 1; subst; eauto. Qed.

Lemma Matches_Cat_inv r1 r2 w :
  Re.Matches (Re.Cat r1 r2) w ->
  exists w1 w2, w = w1 ++ w2 /\ Re.Matches r1 w1 /\ Re.Matches r2 w2.
Proof. inversion 1; subst; eauto. Qed.

Lemma Matches_Alt_inv r1 r2 w :
  Re.Matches (Re.Alt r1 r2) w -> Re.Matches r1 w \/ Re.Matches r2 w.
Proof. inversion 1; subst; auto. Qed.

Lemma Matches_Star_cons r c w :
  Re.Matches (Re.Star r) (c :: w) ->
  exists w1 w2, w = w1 ++ w2 /\ Re.Matches r (c :: w1) /\ Re.Matches (Re.Star r) w2.
Proof.
  intros H. remember (Re.Star r) as sr eqn:Hsr. remember (c :: w) as cw eqn:Hcw.
  revert w Hcw.
  induction H as [| | | | | |r' w1 w2 H1 _ H2 IH2]; intros u Hcw; try discriminate.
  injection Hsr as ->. destruct w1 as [|c1 w1].
  - simpl in Hcw. apply IH2; auto.
  - simpl in Hcw. injection Hcw as -> <-. eauto.
Qed.

Lemma nullable_spec r : Re.nullable r = true <-> Re.Matches r [].
Proof.
  induction r as [| |p|r1 IH1 r2 IH2|r1 IH1 r2 IH2|r IH]; simpl.
  - split; [discriminate | intros H; destruct (Matches_Void_inv _ H)].
  - split; [constructor | reflexivity].
  - split; [discriminate |].
    intros H. apply Matches_Class_inv in H as (c & Hc & _). discriminate.
  - rewrite andb_true_iff, IH1, IH2. split.
    + intros [H1 H2]. exact (Re.MCat _ _ [] [] H1 H2).
    + intros H. apply Matches_Cat_inv in H as (w1 & w2 & Hw & H1 & H2).
      symmetry in Hw. apply app_eq_nil in Hw as [-> ->]. auto.
  - rewrite orb_true_iff, IH1, IH2. split.
    + intros [H|H]; [apply Re.MAltL | apply Re.MAltR]; assumption.
    + apply Matches_Alt_inv.
  - split; [constructor | reflexivity].
Qed.

Lemma deriv_spec r : forall c w, Re.Matches (Re.deriv c r) w <-> Re.Matches r (c :: w).
Proof.
  induction r as [| |p|r1 IH1 r2 IH2|r1 IH1 r2 IH2|r IH]; intros c w; simpl.
  - split; intros H; destruct (Matches_Void_inv _ H).
  - split; intros H; [destruct (Matches_Void_inv _ H) |].
    apply Matches_Eps_inv in H. discriminate.
  - destruct (p c) eqn:Hp; split; intros H.
    + apply Matches_Eps_inv in H as ->. constructor; assumption.
    + apply Matches_Class_inv in H as (c' & Hc & _). injection Hc as <- ->. constructor.
    + destruct (Matches_Void_inv _ H).
    + apply Matches_Class_inv in H as (c' & Hc & Hp'). injection Hc as <- ->. congruence.
  - assert (Hcat : Re.Matches (Re.Cat (Re.deriv c r1) r2) w ->
                   Re.Matches (Re.Cat r1 r2) (c :: w)).
    { intros H. apply Matches_Cat_inv in H as (w1 & w2 & -> & H1 & H2).
      apply IH1 in H1. exact (Re.MCat _ _ (c :: w1) w2 H1 H2). }
    assert (Hinv : Re.Matches (Re.Cat r1 r2) (c :: w) ->
                   Re.Matches (Re.Cat (Re.deriv c r1) r2) w
                   \/ (Re.Matches r1 [] /\ Re.Matches r2 (c :: w))).
    { intros H. apply Matches_Cat_inv in H as (w1 & w2 & Hw & H1 & H2).
      destruct w1 as [|c1 w1]; simpl in Hw.
      - right. subst w2. auto.
      - left. injection Hw as <- ->. apply IH1 in H1. constructor; assumption. }
    destruct (Re.nullable r1) eqn:Hn; split; intros H.
    + apply Matches_Alt_inv in H as [H|H]; [auto |].
      apply IH2 in H. apply nullable_spec in Hn.
      exact (Re.MCat _ _ [] (c :: w) Hn H).
    + apply Hinv in H as [H|[_ H]]; [apply Re.MAltL | apply Re.MAltR]; [assumption |].
      apply IH2; assumption.
    + auto.
    + apply Hinv in H as [H|[H _]]; [assumption |].
      apply nullable_spec in H. congruence.
  - split; intros H.
    + apply Matches_Alt_inv in H as [H|H]; [apply Re.MAltL, IH1 | apply Re.MAltR, IH2]; assumption.
    + apply Matches_Alt_inv in H as [H|H]; [apply Re.MAltL, IH1 | apply Re.MAltR, IH2]; assumption.
  - split; intros H.
    + apply Matches_Cat_inv in H as (w1 & w2 & -> & H1 & H2).
      apply IH in H1. exact (Re.MStarApp _ (c :: w1) w2 H1 H2).
    + apply Matches_Star_cons in H as (w1 & w2 & -> & H1 & H2).
      apply IH in H1. constructor; assumption.
Qed.

Lemma matches_spec w : forall r, Re.matches r w = true <-> Re.Matches r w.
Proof.
  induction w as [|c w IH]; intros r; simpl.
  - apply nullable_spec.
  - rewrite IH. apply deriv_spec.
Qed.

(** [re.match]: a prefix is a word of the body, the rest is accepted. *)
Lemma re_match_spec ic p s :
  Re.re_match ic p s = true <->
  exists w1 w2, list_ascii_of_string s = w1 ++ w2
    /\ Re.Matches (if ic then Re.ignorecase (Re.body p) else Re.body p) w1
    /\ Re.rest_ok p w2 = true.
Proof.
  unfold Re.re_match. rewrite existsb_exists. split.
  - intros (n & _ & H). apply andb_true_iff in H as [H1 H2].
    exists (take n (list_ascii_of_string s)), (drop n (list_ascii_of_string s)).
    rewrite take_drop. apply matches_spec in H1. auto.
  - intros (w1 & w2 & Hs & H1 & H2). exists (length w1). split.
    + apply in_seq. rewrite Hs, length_app. lia.
    + rewrite Hs, take_app_length, drop_app_length.
      apply andb_true_iff. split; [apply matches_spec |]; assumption.
Qed.

Lemma Matches_Class_Cat p r w :
  Re.Matches (Re.Cat (Re.Class p) r) w <->
  exists c w', w = c :: w' /\ p c = true /\ Re.Matches r w'.
Proof.
  split.
  - intros H. apply Matches_Cat_inv in H as (w1 & w2 & -> & H1 & H2).
    apply Matches_Class_inv in H1 as (c & -> & Hc). simpl. eauto.
  - intros (c & w' & -> & Hc & H).
    exact (Re.MCat _ _ [c] w' (Re.MClass p c Hc) H).
Qed.

Lemma Matches_rep p n : forall w,
  Re.Matches (Re.rep n (Re.Class p)) w <-> length w = n /\ forallb p w = true.
Proof.
  induction n as [|n IH]; intros w; simpl.
  - split.
    + intros H. apply Matches_Eps_inv in H as ->. auto.
    + intros [H _]. destruct w; [constructor | discriminate].
  - rewrite Matches_Class_Cat. split.
    + intros (c & w' & -> & Hc & H). apply IH in H as [<- H].
      simpl. rewrite Hc, H. auto.
    + intros [Hl H]. destruct w as [|c w']; [discriminate |].
      simpl in *. apply andb_true_iff in H as [Hc H].
      exists c, w'. repeat split; auto. apply IH. split; [lia | assumption].
Qed.

Lemma Matches_rep_rep p n m w :
  Re.Matches (Re.Cat (Re.rep n (Re.Class p)) (Re.rep m (Re.Class p))) w <->
  length w = n + m /\ forallb p w = true.
Proof.
  split.
  - intros H. apply Matches_Cat_inv in H as (w1 & w2 & -> & H1 & H2).
    apply Matches_rep in H1 as [<- H1]. apply Matches_rep in H2 as [<- H2].
    rewrite length_app, forallb_app, H1, H2. auto.
  - intros [Hl H]. rewrite <- (take_drop n w) in H |- *.
    rewrite forallb_app in H. apply andb_true_iff in H as [H1 H2].
    constructor; apply Matches_rep; (split; [| assumption]).
    + rewrite length_take. lia.
    + rewrite length_drop. lia.
Qed.

Lemma Matches_Star_Class p w :
  Re.Matches (Re.Star (Re.Class p)) w <-> forallb p w = true.
Proof.
  split.
  - intros H. remember (Re.Star (Re.Class p)) as r eqn:Hr.
    induction H as [| | | | | |r' w1 w2 H1 _ _ IH2]; try discriminate; [reflexivity |].
    injection Hr as ->. apply Matches_Class_inv in H1 as (c & -> & Hc).
    simpl. rewrite Hc. auto.
  - induction w as [|c w IH]; simpl; [constructor |].
    intros H. apply andb_true_iff in H as [Hc H].
    exact (Re.MStarApp _ [c] w (Re.MClass p c Hc) (IH H)).
Qed.

Lemma Matches_plus_Class p w :
  Re.Matches (Re.plus (Re.Class p)) w <-> w <> [] /\ forallb p w = true.
Proof.
  unfold Re.plus. rewrite Matches_Class_Cat. split.
  - intros (c & w' & -> & Hc & H). apply Matches_Star_Class in H.
    simpl. rewrite Hc, H. split; [discriminate | reflexivity].
  - intros [Hne H]. destruct w as [|c w']; [congruence |].
    simpl in H. apply andb_true_iff in H as [Hc H].
    exists c, w'. repeat split; auto. apply Matches_Star_Class; assumption.
Qed.

Lemma ignorecase_rep n r : Re.ignorecase (Re.rep n r) = Re.rep n (Re.ignorecase r).
Proof. induction n; simpl; congruence. Qed.

(** A literal, read without regard to case, accepts the words that agree
    with it after lowering. *)
Lemma Matches_lit_ignorecase f : forall w,
  Re.Matches (Re.ignorecase (Re.lit f)) w <->
  map Py.lower_char w = map Py.lower_char (list_ascii_of_string f).
Proof.
  induction f as [|x f IH]; intros w; simpl.
  - split.
    + intros H. apply Matches_Eps_inv in H as ->. reflexivity.
    + intros H. destruct w; [constructor | discriminate].
  - rewrite Matches_Class_Cat. split.
    + intros (c & w' & -> & Hc & H). rewrite ignorecase_char in Hc.
      apply Ascii.eqb_eq in Hc. apply IH in H. simpl. congruence.
    + intros H. destruct w as [|c w']; [discriminate |]. simpl in H.
      injection H as Hc H. exists c, w'. repeat split.
      * rewrite ignorecase_char. apply Ascii.eqb_eq. assumption.
      * apply IH. assumption.
Qed.

Lemma lower_chars s :
  list_ascii_of_string (Py.lower s) = map Py.lower_char (list_ascii_of_string s).
Proof. induction s; simpl; congruence. Qed.

Lemma chars_inj s1 s2 :
  list_ascii_of_string s1 = list_ascii_of_string s2 -> s1 = s2.
Proof.
  intros H. rewrite <- (string_of_list_ascii_of_string s1), H.
  apply string_of_list_ascii_of_string.
Qed.

Lemma startswith_spec p : forall s,
  Py.startswith s p = true <->
  exists rest, list_ascii_of_string s = list_ascii_of_string p ++ rest.
Proof.
  induction p as [|a p IH]; intros s; simpl.
  - split; [eauto | destruct s; reflexivity].
  - destruct s as [|b s]; simpl.
    + split; [discriminate | intros [rest H]; discriminate].
    + destruct (Ascii.eqb_spec a b) as [->|Hne].
      * rewrite IH. split; intros [rest H]; exists rest; congruence.
      * split; [discriminate | intros [rest H]; congruence].
Qed.

(** [rstrip] leaves no white space at the end. *)
Lemma rstrip_last s : forall w c,
  list_ascii_of_string (Py.rstrip s) = w ++ [c] -> Py.is_space c = false.
Proof.
  induction s as [|a s IH]; intros w c; simpl.
  - destruct w; discriminate.
  - destruct (Py.rstrip s) as [|b r] eqn:Hr.
    + destruct (Py.is_space a) eqn:Ha; simpl.
      * destruct w; discriminate.
      * destruct w as [|x [|y w]]; simpl; intros H; try discriminate.
        injection H as <-. assumption.
    + simpl. destruct w as [|x w]; simpl; intros H; [discriminate |].
      injection H as _ H. exact (IH w c H).
Qed.

Lemma strip_no_final_newline v w :
  list_ascii_of_string (Py.strip v) <> w ++ ["010"%char].
Proof.
  intros H. apply rstrip_last in H. discriminate.
Qed.

Lemma at_end_spec w : Re.at_end w = true <-> w = [] \/ w = ["010"%char].
Proof.
  destruct w as [|c [|d w]]; simpl.
  - split; auto.
  - rewrite Ascii.eqb_eq. split.
    + intros ->. auto.
    + intros [H|H]; [discriminate | congruence].
  - split; [discriminate | intros [H|H]; discriminate].
Qed.

(** On a stripped subject, a pattern that ends in [$] must consume it all. *)
Lemma re_match_dollar ic b v :
  Re.re_match ic (Re.Pattern b true) (Py.strip v) = true <->
  Re.Matches (if ic then Re.ignorecase b else b) (list_ascii_of_string (Py.strip v)).
Proof.
  rewrite re_match_spec. unfold Re.rest_ok. simpl. split.
  - intros (w1 & w2 & Hs & H1 & H2). apply at_end_spec in H2 as [->| ->].
    + rewrite app_nil_r in Hs. congruence.
    + destruct (strip_no_final_newline _ _ Hs).
  - intros H. exists (list_ascii_of_string (Py.strip v)), [].
    rewrite app_nil_r. auto.
Qed.

Lemma re_match_literal f v :
  Re.re_match true (Re.Pattern (Re.lit f) true) (Py.strip v)
  = String.eqb (Py.lower (Py.strip v)) (Py.lower f).
Proof.
  apply Bool.eq_iff_eq_true. rewrite re_match_dollar, Matches_lit_ignorecase.
  rewrite String.eqb_eq, <- !lower_chars. split.
  - apply chars_inj.
  - congruence.
Qed.

Lemma re_match_prefix f s :
  Re.re_match true (Re.Pattern (Re.lit f) false) s
  = Py.startswith (Py.lower s) (Py.lower f).
Proof.
  apply Bool.eq_iff_eq_true. rewrite re_match_spec, startswith_spec. simpl.
  rewrite !lower_chars. split.
  - intros (w1 & w2 & Hs & H & _). apply Matches_lit_ignorecase in H.
    exists (map Py.lower_char w2). rewrite Hs, map_app. congruence.
  - intros (rest & H).
    exists (take (String.length f) (list_ascii_of_string s)),
           (drop (String.length f) (list_ascii_of_string s)).
    rewrite take_drop. repeat split. apply Matches_lit_ignorecase.
    rewrite <- firstn_map, H.
    replace (String.length f) with (length (map Py.lower_char (list_ascii_of_string f))).
    + apply take_app_length.
    + rewrite length_map. clear. induction f; simpl; congruence.
Qed.

Lemma ignorecase_hex c :
  (is_hex (Py.lower_char c) || is_hex (Py.upper_char c)) = is_hex c.
Proof.
  revert c. apply ascii_bool_ext. vm_compute. reflexivity.
Qed.

Lemma ignorecase_hash c :
  (Ascii.eqb "#" (Py.lower_char c) || Ascii.eqb "#" (Py.upper_char c)) = Ascii.eqb c "#".
Proof.
  revert c. apply ascii_bool_ext. vm_compute. reflexivity.
Qed.

Lemma forallb_ignorecase_hex w :
  forallb (fun c => is_hex (Py.lower_char c) || is_hex (Py.upper_char c)) w
  = forallb is_hex w.
Proof.
  induction w as [|c w IH]; simpl; [reflexivity |].
  rewrite ignorecase_hex, IH. reflexivity.
Qed.

Lemma is_hex_color_spec n s :
  is_hex_color n s = true <->
  exists h, list_ascii_of_string s = "#"%char :: h /\ length h = n
            /\ forallb is_hex h = true.
Proof.
  destruct s as [|c h]; simpl.
  - split; [discriminate | intros (h & H & _); discriminate].
  - rewrite !andb_true_iff, Ascii.eqb_eq, Nat.eqb_eq. split.
    + intros [[-> Hl] H]. exists (list_ascii_of_string h). repeat split; auto.
      rewrite <- Hl. clear. induction h; simpl; congruence.
    + intros (h' & Hs & Hl & H). injection Hs as -> <-. repeat split; auto.
      rewrite <- Hl. clear. induction h; simpl; congruence.
Qed.

(** [^#([0-9a-fA-F]{3}){1,2}$] accepts the 3- and the 6-digit forms. *)
Lemma re_match_hex_3_6 v :
  Re.re_match true
    (Re.Pattern (Re.Cat (Re.chr "#")
       (Re.Alt (Re.rep 3 hex) (Re.Cat (Re.rep 3 hex) (Re.rep 3 hex)))) true)
    (Py.strip v)
  = is_hex_color 3 (Py.strip v) || is_hex_color 6 (Py.strip v).
Proof.
  apply Bool.eq_iff_eq_true.
  rewrite re_match_dollar, orb_true_iff, !is_hex_color_spec.
  cbn [Re.ignorecase Re.chr]. rewrite !ignorecase_rep. cbn [Re.ignorecase hex].
  rewrite Matches_Class_Cat. split.
  - intros (c & h & Hs & Hc & H). rewrite ignorecase_hash in Hc.
    apply Ascii.eqb_eq in Hc as ->. apply Matches_Alt_inv in H as [H|H].
    + apply Matches_rep in H as [Hl H]. rewrite forallb_ignorecase_hex in H.
      left. eauto.
    + apply Matches_rep_rep in H as [Hl H]. rewrite forallb_ignorecase_hex in H.
      right. eauto.
  - intros [(h & Hs & Hl & H)|(h & Hs & Hl & H)]; exists "#"%char, h;
      (split; [assumption | split; [reflexivity |]]).
    + apply Re.MAltL, Matches_rep. rewrite forallb_ignorecase_hex. auto.
    + apply Re.MAltR, Matches_rep_rep. rewrite forallb_ignorecase_hex. auto.
Qed.

(** [^#[0-9a-fA-F]{8}$] accepts the 8-digit form. *)
Lemma re_match_hex_8 v :
  Re.re_match true (Re.Pattern (Re.Cat (Re.chr "#") (Re.rep 8 hex)) true) (Py.strip v)
  = is_hex_color 8 (Py.strip v).
Proof.
  apply Bool.eq_iff_eq_true. rewrite re_match_dollar, is_hex_color_spec.
  cbn [Re.ignorecase Re.chr]. rewrite !ignorecase_rep. cbn [Re.ignorecase hex].
  rewrite Matches_Class_Cat. split.
  - intros (c & h & Hs & Hc & H). rewrite ignorecase_hash in Hc.
    apply Ascii.eqb_eq in Hc as ->.
    apply Matches_rep in H as [Hl H]. rewrite forallb_ignorecase_hex in H. eauto.
  - intros (h & Hs & Hl & H). exists "#"%char, h.
    split; [assumption | split; [reflexivity |]].
    apply Matches_rep. rewrite forallb_ignorecase_hex. auto.
Qed.

(** The validator and the list of shapes agree on every value. *)
Lemma is_valid_color_shape v : _is_valid_color v = color_shape v.
Proof.
  unfold _is_valid_color, color_shape, color_patterns. cbn [existsb].
  rewrite re_match_hex_3_6, re_match_hex_8, !re_match_prefix, !re_match_literal.
  cbn [Py.lower Py.lower_char Py.is_upper].
  rewrite orb_false_r, !orb_assoc. reflexivity.
Qed.

(* ====================================================================== *)
(** * The colour validator *)
(* ====================================================================== *)

Lemma In_when b msg x : In x (when b msg) <-> b = true /\ x = msg.
Proof.
  destruct b; simpl.
  - split; [intros [H|[]]; auto | intros [_ ->]; auto].
  - split; [intros [] | intros [H _]; discriminate].
Qed.

(** A colour token reports the colour error exactly when its value has
    none of the shapes. *)
Lemma color_error_iff (t : Token) :
  category t = "color" ->
  In (color_error t) (validate t) <-> color_shape (value t) = false.
Proof.
  intros Hc. unfold validate. rewrite !in_app_iff, !In_when, Hc.
  rewrite is_valid_color_shape.
  change (String.eqb "color" "color") with true.
  change (String.eqb "color" "spacing") with false.
  unfold color_error, name_required, name_error, category_error, value_required.
  simpl andb. split.
  - intros [[_ H]|[[_ H]|[[_ H]|[[_ H]|[[H _]|[H _]]]]]];
      try discriminate. apply negb_true_iff, H.
  - intros H. do 4 right. left. rewrite H. auto.
Qed.

Lemma four_digit_hex_shape v :
  is_hex_color 4 (Py.strip v) = true -> color_shape v = false.
Proof.
  unfold color_shape. destruct (Py.strip v) as [|c h]; [discriminate |].
  simpl. rewrite !andb_true_iff, Ascii.eqb_eq, Nat.eqb_eq.
  intros [[-> Hl] _]. rewrite Hl. reflexivity.
Qed.

(** C1, as stated, fails: the four-digit hex value [#abcd] is rejected, and
    a colour token carrying it reports the colour error. *)
Lemma four_digit_hex_is_rejected :
  is_hex_color 4 "#abcd" = true
  /\ _is_valid_color "#abcd" = false
  /\ validate (mkToken "t1" "color/brand" "color" "#abcd" "" [] false "" [] "" "" 1)
     = ["value '#abcd' doesn't look like a valid color"].
Proof. vm_compute. auto. Qed.

(** C1, amended: on values of ASCII characters, the colour validator
    accepts exactly a 3-, 6- or 8-digit hex value, a functional form
    beginning rgb(, rgba(, hsl(, hsla(, oklch( or color(, a var(--
    reference, or one of the literals transparent, currentColor, inherit
    (read without surrounding white space and without regard to letter
    case); a colour token with such a value reports the colour error
    exactly for the other values; every 4-digit hex value is rejected, and
    so are [blue] and [not-a-color]. *)
Theorem color_validator_shapes :
  (forall v, Py.isascii v = true -> _is_valid_color v = color_shape v)
  /\ (forall t, Py.isascii (value t) = true -> category t = "color" ->
        (In (color_error t) (validate t) <-> color_shape (value t) = false))
  /\ (forall v, Py.isascii v = true -> is_hex_color 4 (Py.strip v) = true ->
        _is_valid_color v = false)
  /\ _is_valid_color "blue" = false
  /\ _is_valid_color "not-a-color" = false
  /\ forallb _is_valid_color
       ["#3b82f6"; "#fff"; "#3b82f6ff"; "rgb(59,130,246)"; "rgba(0,0,0,0.5)";
        "hsl(220,90%,60%)"; "var(--color-primary)"; "transparent";
        "currentColor"; "inherit"] = true.
Proof.
  split; [intros v _; apply is_valid_color_shape |].
  split; [intros t _; apply color_error_iff |].
  split.
  - intros v _ H. rewrite is_valid_color_shape. apply four_digit_hex_shape, H.
  - repeat split; vm_compute; reflexivity.
Qed.

(* ====================================================================== *)
(** * Splitting a name and title-casing a segment *)
(* ====================================================================== *)

Lemma longest_match_None w : forall r,
  Re.longest_match r w = None -> forall n, ~ Re.Matches r (take n w).
Proof.
  induction w as [|c w IH]; intros r; simpl.
  - destruct (Re.nullable r) eqn:Hn; [discriminate |].
    intros _ n H. rewrite take_nil in H. apply nullable_spec in H. congruence.
  - destruct (Re.longest_match (Re.deriv c r) w) eqn:Hl; [discriminate |].
    destruct (Re.nullable r) eqn:Hn; [discriminate |].
    intros _ [|n] H; simpl in H.
    + apply nullable_spec in H. congruence.
    + apply deriv_spec in H. exact (IH _ Hl n H).
Qed.

Lemma longest_match_Some w : forall r n,
  Re.longest_match r w = Some n ->
  n <= length w
  /\ Re.Matches r (take n w)
  /\ forall m, n < m -> m <= length w -> ~ Re.Matches r (take m w).
Proof.
  induction w as [|c w IH]; intros r n; simpl.
  - destruct (Re.nullable r) eqn:Hn; [| discriminate].
    intros [= <-]. split; [lia |]. split; [apply nullable_spec, Hn | intros; lia].
  - destruct (Re.longest_match (Re.deriv c r) w) as [k|] eqn:Hl.
    + intros [= <-]. destruct (IH _ _ Hl) as (H0 & H1 & H2).
      split; [lia |]. split.
      * simpl. apply deriv_spec, H1.
      * intros [|m] Hm Hle H; [lia |]. simpl in H. apply deriv_spec in H.
        apply (H2 m); [lia | lia | assumption].
    + destruct (Re.nullable r) eqn:Hn; [| discriminate].
      intros [= <-]. split; [lia |]. split; [apply nullable_spec, Hn |].
      intros [|m] Hm Hle H; [lia |]. simpl in H. apply deriv_spec in H.
      exact (longest_match_None _ _ Hl m H).
Qed.

Lemma run_length_le w : run_length w <= length w.
Proof.
  induction w as [|c w IH]; simpl; [lia |].
  destruct (is_separator c); simpl; lia.
Qed.

Lemma run_length_all w : forallb is_separator (take (run_length w) w) = true.
Proof.
  induction w as [|c w IH]; simpl; [reflexivity |].
  destruct (is_separator c) eqn:Hc; simpl; [| reflexivity].
  rewrite Hc, IH. reflexivity.
Qed.

Lemma run_length_max w : forall n,
  n <= length w -> forallb is_separator (take n w) = true -> n <= run_length w.
Proof.
  induction w as [|c w IH]; intros [|n]; simpl; try lia.
  intros Hn H. apply andb_true_iff in H as [Hc H]. rewrite Hc.
  assert (n <= run_length w) by (apply IH; [lia | assumption]). lia.
Qed.

(** On the separator pattern the longest match is the leading run. *)
Lemma longest_match_separators w :
  Re.longest_match separators w
  = match run_length w with 0 => None | S k => Some (S k) end.
Proof.
  assert (Hrun : forall k, run_length w = S k ->
                 Re.Matches separators (take (S k) w)).
  { intros k Hk. apply Matches_plus_Class. rewrite <- Hk. split.
    - destruct w as [|c w]; [discriminate |]. simpl in *.
      destruct (is_separator c); [discriminate | discriminate].
    - apply run_length_all. }
  destruct (Re.longest_match separators w) as [n|] eqn:Hl.
  - apply longest_match_Some in Hl as (Hle & H1 & H2).
    apply Matches_plus_Class in H1 as [Hne Hall].
    assert (Hn : n <= run_length w) by (apply run_length_max; assumption).
    destruct (run_length w) as [|k] eqn:Hk.
    + assert (n = 0) as -> by lia. rewrite take_0 in Hne. congruence.
    + destruct (Nat.eq_dec n (S k)) as [->|Hne']; [reflexivity |].
      exfalso. apply (H2 (S k)); [lia | | apply Hrun; reflexivity].
      rewrite <- Hk. apply run_length_le.
  - destruct (run_length w) as [|k] eqn:Hk; [reflexivity |].
    exfalso. exact (longest_match_None _ _ Hl (S k) (Hrun k eq_refl)).
Qed.

Lemma append_cons c (u v : string) : String c u +:+ v = String c (u +:+ v).
Proof. reflexivity. Qed.

Lemma append_empty_l (v : string) : "" +:+ v = v.
Proof. reflexivity. Qed.

Lemma append_empty_r (u : string) : u +:+ "" = u.
Proof. induction u as [|a u IH]; [reflexivity | rewrite append_cons, IH; reflexivity]. Qed.

Lemma append_cons_r (u : string) c f : (u +:+ String c "") +:+ f = u +:+ String c f.
Proof. induction u as [|a u IH]; [reflexivity | rewrite !append_cons, IH; reflexivity]. Qed.

Lemma string_of_list_ascii_snoc l c :
  string_of_list_ascii (l ++ [c]) = string_of_list_ascii l +:+ String c "".
Proof. induction l as [|a l IH]; [reflexivity | simpl; rewrite append_cons, IH; reflexivity]. Qed.

Lemma split_runs_nonempty s : forall b, split_runs b s <> [].
Proof.
  induction s as [|c s IH]; intros b; simpl; [discriminate |].
  destruct (is_separator c).
  - destruct b; [apply IH | discriminate].
  - destruct (split_runs false s); discriminate.
Qed.

Lemma cons_head_empty fields : fields <> [] -> cons_head "" fields = fields.
Proof. destruct fields; [congruence | reflexivity]. Qed.

(** The scan of [re.split] and the direct splitting agree, both between
    matches and inside a run of separators. *)
Lemma split_go_runs s :
  (forall cur,
     Re.split_go separators (list_ascii_of_string s) 0 cur
     = cons_head (string_of_list_ascii (rev cur)) (split_runs false s))
  /\ Re.split_go separators (list_ascii_of_string s)
       (run_length (list_ascii_of_string s)) []
     = split_runs true s.
Proof.
  induction s as [|c s [IHA IHB]].
  - split; [intros cur |]; simpl; [rewrite append_empty_r |]; reflexivity.
  - assert (HA : forall cur,
       Re.split_go separators (list_ascii_of_string (String c s)) 0 cur
       = cons_head (string_of_list_ascii (rev cur)) (split_runs false (String c s))).
    { intros cur. cbn [list_ascii_of_string Re.split_go].
      rewrite longest_match_separators. cbn [run_length split_runs].
      destruct (is_separator c) eqn:Hc.
      - rewrite IHB. simpl. rewrite append_empty_r. reflexivity.
      - rewrite IHA. cbn [rev]. rewrite string_of_list_ascii_snoc.
        destruct (split_runs false s) as [|f fs]; cbn [cons_head].
        + reflexivity.
        + rewrite append_cons_r. reflexivity. }
    split; [exact HA |].
    cbn [list_ascii_of_string run_length].
    destruct (is_separator c) eqn:Hc.
    + cbn [Re.split_go split_runs]. rewrite Hc. exact IHB.
    + change (c :: list_ascii_of_string s) with (list_ascii_of_string (String c s)).
      rewrite HA. cbn [rev string_of_list_ascii].
      rewrite cons_head_empty by apply split_runs_nonempty.
      cbn [split_runs]. rewrite Hc. reflexivity.
Qed.

Lemma re_split_runs s : Re.re_split separators s = split_runs false s.
Proof.
  unfold Re.re_split. rewrite (proj1 (split_go_runs s)). simpl.
  apply cons_head_empty, split_runs_nonempty.
Qed.

Lemma lower_upper_disjoint c : Py.is_lower c && Py.is_upper c = false.
Proof.
  revert c. apply (ascii_bool_ext (fun c => Py.is_lower c && Py.is_upper c) (fun _ => false)).
  vm_compute. reflexivity.
Qed.

(** Whether a character, if any, is a letter. *)
Lemma title_from_get s : forall prev i,
  String.get i (Py.title_from (from_option Py.is_cased false prev) s)
  = title_char (match i with 0 => prev | S j => String.get j s end)
      <$> String.get i s.
Proof.
  induction s as [|c s IH]; intros prev i.
  - destruct i; reflexivity.
  - pose proof (lower_upper_disjoint c) as Hd.
    assert (Hhead : forall b : bool,
      (if Py.is_lower c then String (if b then c else Py.upper_char c) (Py.title_from true s)
       else if Py.is_upper c then String (if b then Py.lower_char c else c) (Py.title_from true s)
       else String c (Py.title_from false s))
      = String (if Py.is_cased c then if b then Py.lower_char c else Py.upper_char c else c)
               (Py.title_from (Py.is_cased c) s)).
    { intros b. unfold Py.is_cased, Py.lower_char, Py.upper_char.
      destruct (Py.is_lower c), (Py.is_upper c); try discriminate; reflexivity. }
    cbn [Py.title_from]. rewrite Hhead. destruct i as [|j].
    + simpl. unfold title_char. destruct prev as [q|]; simpl; reflexivity.
    + cbn [String.get]. pose proof (IH (Some c) j) as H.
      cbn [from_option] in H. rewrite H. destruct j; reflexivity.
Qed.

(** [str.title] on a segment: every letter that starts the segment or
    follows a character that is no letter becomes upper case, every letter
    that follows a letter becomes lower case, the rest is unchanged. *)
Lemma title_get p i :
  String.get i (Py.title p)
  = title_char (match i with 0 => None | S j => String.get j p end)
      <$> String.get i p.
Proof. exact (title_from_get p None i). Qed.

(** C9, as stated, fails: the letters after the first of a segment are
    lowered, not kept. *)
Lemma camel_lowers_rest_of_segment :
  _camel "font-sizeXL" = "fontSizexl"
  /\ camelKey_spec "font-sizeXL" = "fontSizeXL"
  /\ _camel "font-sizeXL" <> camelKey_spec "font-sizeXL".
Proof. vm_compute. repeat split. discriminate. Qed.

Lemma split_runs_separator_free s : forall b,
  forallb separator_free (split_runs b s) = true.
Proof.
  induction s as [|c s IH]; intros b; [reflexivity |]. cbn [split_runs].
  destruct (is_separator c) eqn:Hc.
  - destruct b; [apply IH |]. cbn [forallb separator_free]. apply IH.
  - specialize (IH false). destruct (split_runs false s) as [|f fs].
    + cbn. rewrite Hc. reflexivity.
    + cbn [forallb separator_free] in IH |- *. rewrite Hc. exact IH.
Qed.

Lemma split_runs_concat s : forall b,
  Py.concat (split_runs b s) = without_separators s.
Proof.
  induction s as [|c s IH]; intros b; [reflexivity |].
  cbn [split_runs without_separators]. destruct (is_separator c).
  - destruct b; [apply IH |]. unfold Py.concat. cbn [fold_right].
    rewrite append_empty_l. apply IH.
  - specialize (IH false). destruct (split_runs false s) as [|f fs].
    + unfold Py.concat in *. cbn [fold_right] in *. rewrite <- IH. reflexivity.
    + unfold Py.concat in *. cbn [fold_right] in *. rewrite append_cons, IH.
      reflexivity.
Qed.

(** C9, amended: for every name of ASCII characters, [_camel] splits the
    name on every run of [-], [/], [.] or space (the segments hold no
    separator and, put together, are the name without its separators),
    lowercases the first segment, title-cases each later segment the way
    [str.title] does (a letter that starts the segment or follows a
    character that is no letter is made upper case, a letter that follows a
    letter is made lower case, other characters are kept) and concatenates;
    [font-size] gives [fontSize] and [color/brand/primary] gives
    [colorBrandPrimary]. *)
Theorem camel_splits_and_titles :
  (forall name_, Py.isascii name_ = true -> exists p0 parts,
      split_runs false name_ = p0 :: parts
      /\ forallb separator_free (p0 :: parts) = true
      /\ Py.concat (p0 :: parts) = without_separators name_
      /\ _camel name_ = Py.lower p0 +:+ Py.concat (map Py.title parts))
  /\ (forall p i, Py.isascii p = true ->
        String.get i (Py.title p)
        = title_char (match i with 0 => None | S j => String.get j p end)
            <$> String.get i p)
  /\ _camel "font-size" = "fontSize"
  /\ _camel "color/brand/primary" = "colorBrandPrimary".
Proof.
  split; [| split; [intros p i _; apply title_get | split; vm_compute; reflexivity]].
  intros name_ _. unfold _camel. rewrite re_split_runs.
  pose proof (split_runs_separator_free name_ false) as Hfree.
  pose proof (split_runs_concat name_ false) as Hcat.
  destruct (split_runs false name_) as [|p0 parts] eqn:Hs.
  - destruct (split_runs_nonempty _ _ Hs).
  - exists p0, parts. auto.
Qed.

(** The key-derivation helpers on the names the tests use. *)
Lemma slug_and_css_var_examples :
  _slug "color/brand/primary" = "color-brand-primary"
  /\ _slug "my token" = "my-token"
  /\ to_css_var brand_token "--br" = "--br-color-brand"
  /\ to_js_key brand_token = "colorBrand".
Proof. vm_compute. repeat split. Qed.

(* ====================================================================== *)
(** * The token store *)
(* ====================================================================== *)


Lemma find_app_r {A} (f : A -> bool) l1 l2 :
  (forall x, In x l1 -> f x = false) -> find f (l1 ++ l2) = find f l2.
Proof.
  induction l1 as [|x l1 IH]; intros H; simpl; [reflexivity |].
  rewrite (H x) by (left; reflexivity). apply IH. intros y Hy. apply H. right. exact Hy.
Qed.

(** What a lookup returns is a stored row that bears the key as its id or
    as its name, and it returns nothing only when no row does. *)
Lemma select_token_In key db r :
  select_token key db = Some r -> In r (tokens db) /\ id_or_name key r = true.
Proof.
  unfold select_token, id_or_name.
  destruct (find (fun r0 => String.eqb (r_id r0) key) (tokens db)) as [r1|] eqn:Hid.
  - intros [= <-]. apply find_some in Hid as [Hin ->]. auto.
  - intros Hname. apply find_some in Hname as [Hin ->]. split; [exact Hin |].
    apply orb_true_r.
Qed.

Lemma select_token_None key db :
  select_token key db = None <-> forall r, In r (tokens db) -> id_or_name key r = false.
Proof.
  unfold select_token, id_or_name. split.
  - destruct (find (fun r0 => String.eqb (r_id r0) key) (tokens db)) as [r1|] eqn:Hid;
      [discriminate |].
    intros Hname r Hr. rewrite (find_none _ _ Hid r Hr), (find_none _ _ Hname r Hr).
    reflexivity.
  - intros H.
    destruct (find (fun r0 => String.eqb (r_id r0) key) (tokens db)) as [r1|] eqn:Hid.
    + apply find_some in Hid as [Hin He]. specialize (H r1 Hin). rewrite He in H.
      discriminate.
    + destruct (find (fun r0 => String.eqb (r_name r0) key) (tokens db)) as [r1|] eqn:Hn;
        [| reflexivity].
      apply find_some in Hn as [Hin He]. specialize (H r1 Hin). rewrite He, orb_true_r in H.
      discriminate.
Qed.

(** The row whose id is the key is the one returned, whatever rows bear
    the key as their name. *)
Lemma select_token_by_id key db r :
  find (fun r0 => String.eqb (r_id r0) key) (tokens db) = Some r ->
  select_token key db = Some r.
Proof. unfold select_token. intros ->. reflexivity. Qed.

Lemma select_token_appended rows snaps row :
  (forall r, In r rows -> r_id r <> r_id row) ->
  select_token (r_id row) (mkDB (rows ++ [row]) snaps) = Some row.
Proof.
  intros Hfresh. apply select_token_by_id. cbn [tokens]. rewrite find_app_r.
  - cbn [find]. rewrite String.eqb_refl. reflexivity.
  - intros r Hr. apply String.eqb_neq, Hfresh, Hr.
Qed.

Lemma select_token_appended_name rows snaps row :
  (forall r, In r rows -> r_id r <> r_name row /\ r_name r <> r_name row) ->
  select_token (r_name row) (mkDB (rows ++ [row]) snaps) = Some row.
Proof.
  intros Hfresh. unfold select_token. cbn [tokens].
  rewrite !find_app_r by (intros r Hr; apply String.eqb_neq, (Hfresh r Hr)).
  cbn [find]. destruct (String.eqb (r_id row) (r_name row)); [reflexivity |].
  rewrite String.eqb_refl. reflexivity.
Qed.


Lemma add_token_stores t now db :
  validate t = [] -> fits_int64 (version t) = true ->
  integrity_error (row_of_token (stamp_new t now)) db = false ->
  add_token t now db
  = (inr (stamp_new t now),
     mkDB (tokens db ++ [row_of_token (stamp_new t now)]) (token_snapshots db)).
Proof.
  intros Hv Hf Hi. unfold add_token. rewrite Hv. cbn [stamp_new version]. rewrite Hf.
  cbn [negb]. fold (stamp_new t now). rewrite Hi. reflexivity.
Qed.

Lemma integrity_error_true_iff row db :
  integrity_error row db = true <->
  exists r, In r (tokens db) /\ (r_id r = r_id row \/ r_name r = r_name row).
Proof.
  unfold integrity_error. rewrite existsb_exists. split.
  - intros (r & Hr & H). apply orb_true_iff in H. rewrite !String.eqb_eq in H. eauto.
  - intros (r & Hr & H). exists r. split; [exact Hr |].
    apply orb_true_iff. rewrite !String.eqb_eq. exact H.
Qed.

Lemma add_token_taken t now db :
  validate t = [] -> fits_int64 (version t) = true ->
  (exists r, In r (tokens db) /\ (r_id r = id t \/ r_name r = name t)) ->
  add_token t now db
  = (inl (ValueError ("Token with name '" +:+ name t +:+ "' already exists")), db).
Proof.
  intros Hv Hf Hr. unfold add_token. rewrite Hv.
  change (version (stamp_new t now)) with (version t). rewrite Hf. cbn [negb].
  replace (integrity_error (row_of_token (stamp_new t now)) db) with true; [reflexivity |].
  symmetry. apply integrity_error_true_iff. exact Hr.
Qed.

(** Whatever [add_token] raises, it has written nothing. *)
Lemma add_token_inl t now db e db' :
  add_token t now db = (inl e, db') -> db' = db.
Proof.
  unfold add_token. destruct (validate t); [| congruence].
  destruct (negb (fits_int64 _)); [congruence |].
  destruct (integrity_error _ _); congruence.
Qed.




(** C4: an update whose patched token is invalid raises the validation
    error and leaves the database as it was, so every stored token keeps
    all its fields. *)
Theorem update_invalid_changes_nothing
    (name_or_id : string) (fields : Fields) (now : string) (db : DB) (row : Row) :
  select_token name_or_id db = Some row ->
  validate (bump now (set_fields fields (_row_to_token row))) <> [] ->
  update_token name_or_id fields now db
  = (inl (ValueError
            ("Validation failed: "
             +:+ Py.join "; " (validate (bump now (set_fields fields (_row_to_token row)))))),
     db)
  /\ forall key, get_token key (update_token name_or_id fields now db).2 = get_token key db.
Proof.
  intros Hsel Hbad.
  assert (Hupd : update_token name_or_id fields now db
    = (inl (ValueError
              ("Validation failed: "
               +:+ Py.join "; " (validate (bump now (set_fields fields (_row_to_token row)))))),
       db)).
  { unfold update_token. rewrite Hsel.
    destruct (validate (bump now (set_fields fields (_row_to_token row)))) as [|e es];
      [congruence | reflexivity]. }
  rewrite Hupd. split; reflexivity.
Qed.

(** Setting the value of [brand_token] to [blue] is refused and changes nothing. *)
Lemma update_invalid_changes_nothing_witness :
  (update_token "t1" value_blue eleven_o_clock brand_db).2 = brand_db
  /\ get_token "t1" (update_token "t1" value_blue eleven_o_clock brand_db).2
     = get_token "t1" brand_db.
Proof.
  destruct (update_invalid_changes_nothing "t1" value_blue eleven_o_clock brand_db brand_row)
    as [Hupd Hget].
  - vm_compute. reflexivity.
  - vm_compute. discriminate.
  - split; [rewrite Hupd; reflexivity | apply Hget].
Defined.

(* ---------------------------------------------------------------------- *)
(** ** The comma-joined columns *)

Lemma join_cons_head sep c f fs :
  Py.join sep (String c f :: fs) = String c (Py.join sep (f :: fs)).
Proof. destruct fs; reflexivity. Qed.

Lemma split_char_nonempty sep s : Py.split_char sep s <> [].
Proof.
  destruct s as [|c s]; simpl; [discriminate |].
  destruct (Ascii.eqb c sep); [discriminate |].
  destruct (Py.split_char sep s); discriminate.
Qed.

(** Joining what was split gives the text back. *)
Lemma join_split_char s : Py.join "," (Py.split_char "," s) = s.
Proof.
  induction s as [|c s IH]; [reflexivity |].
  cbn [Py.split_char]. destruct (Ascii.eqb_spec c ",") as [->|Hne].
  - destruct (Py.split_char "," s) as [|f fs] eqn:Hs.
    + destruct (split_char_nonempty _ _ Hs).
    + change (Py.join "," ("" :: f :: fs)) with (String "," (Py.join "," (f :: fs))).
      rewrite IH. reflexivity.
  - destruct (Py.split_char "," s) as [|f fs] eqn:Hs.
    + destruct (split_char_nonempty _ _ Hs).
    + rewrite join_cons_head, IH. reflexivity.
Qed.

Lemma join_split_list s : Py.join "," (split_list s) = s.
Proof.
  unfold split_list. destruct (String.eqb_spec s "") as [->|Hne]; [reflexivity |].
  apply join_split_char.
Qed.

Lemma contains_comma_cons c s :
  Py.contains "," (String c s) = Ascii.eqb "," c || Py.contains "," s.
Proof.
  cbn [Py.contains Py.startswith]. destruct (Ascii.eqb "," c); [| reflexivity].
  destruct s; reflexivity.
Qed.

Lemma split_char_app x rest :
  Py.contains "," x = false ->
  Py.split_char "," (x +:+ String "," rest) = x :: Py.split_char "," rest.
Proof.
  induction x as [|c x IH]; intros H.
  - reflexivity.
  - rewrite contains_comma_cons in H. apply orb_false_iff in H as [Hc H].
    rewrite append_cons. cbn [Py.split_char].
    rewrite Ascii.eqb_sym, Hc, (IH H). reflexivity.
Qed.

Lemma split_char_no_comma x :
  Py.contains "," x = false -> Py.split_char "," x = [x].
Proof.
  induction x as [|c x IH]; intros H; [reflexivity |].
  rewrite contains_comma_cons in H. apply orb_false_iff in H as [Hc H].
  cbn [Py.split_char]. rewrite Ascii.eqb_sym, Hc, (IH H). reflexivity.
Qed.

Lemma split_join l :
  l <> [] -> (forall x, In x l -> Py.contains "," x = false) ->
  Py.split_char "," (Py.join "," l) = l.
Proof.
  induction l as [|x l IH]; intros Hne H; [congruence |].
  destruct l as [|y l].
  - apply split_char_no_comma, H. left. reflexivity.
  - change (Py.join "," (x :: y :: l)) with (x +:+ String "," (Py.join "," (y :: l))).
    rewrite split_char_app by (apply H; left; reflexivity).
    rewrite IH; [reflexivity | discriminate |].
    intros z Hz. apply H. right. exact Hz.
Qed.

Lemma join_empty_iff l :
  (forall x, In x l -> x <> "") -> Py.join "," l = "" -> l = [].
Proof.
  destruct l as [|x l]; [reflexivity |]. intros H Hj. exfalso.
  destruct x as [|c x]; [apply (H ""); [left |]; reflexivity |].
  rewrite join_cons_head in Hj. discriminate.
Qed.

(** The comma-joined column gives a well-shaped list back. *)
Lemma split_list_join l : well_shaped l -> split_list (Py.join "," l) = l.
Proof.
  intros H. unfold split_list.
  destruct (String.eqb_spec (Py.join "," l) "") as [He|Hne].
  - symmetry. apply join_empty_iff; [intros x Hx; apply (H x Hx) | exact He].
  - apply split_join.
    + intros ->. apply Hne. reflexivity.
    + intros x Hx. apply (H x Hx).
Qed.

Lemma bool_of_int_of_bool b : bool_of_int (int_of_bool b) = b.
Proof. destruct b; reflexivity. Qed.

(** Reading a row written from a token gives the token back up to the
    encoding of the two lists. *)
Lemma row_to_token_of_token t :
  _row_to_token (row_of_token t)
  = mkToken (id t) (name t) (category t) (value t) (description t)
      (split_list (Py.join "," (aliases t))) (deprecated t) (deprecated_reason t)
      (split_list (Py.join "," (tags t))) (created_at t) (updated_at t) (version t).
Proof.
  unfold _row_to_token, row_of_token. cbn. rewrite bool_of_int_of_bool. reflexivity.
Qed.

Lemma add_token_inr t now db stored db' :
  add_token t now db = (inr stored, db') ->
  validate t = []
  /\ stored = stamp_new t now
  /\ integrity_error (row_of_token stored) db = false
  /\ db' = mkDB (tokens db ++ [row_of_token stored]) (token_snapshots db).
Proof.
  unfold add_token. destruct (validate t) as [|e es]; [| discriminate].
  destruct (negb (fits_int64 (version (stamp_new t now)))); [discriminate |].
  destruct (integrity_error (row_of_token (stamp_new t now)) db) eqn:Hi; [discriminate |].
  intros [= <- <-]. auto.
Qed.

Lemma add_token_inr_fits t now db stored db' :
  add_token t now db = (inr stored, db') -> fits_int64 (version t) = true.
Proof.
  unfold add_token. destruct (validate t) as [|e es]; [| discriminate].
  cbn [stamp_new version]. destruct (fits_int64 (version t)); [reflexivity | discriminate].
Qed.

(** C10: when a token whose aliases and tags hold only non-empty strings
    without commas (the empty list included) was added, getting it back by
    its id returns a token with aliases and tags equal to those given, and
    so does every other lookup that returns the token of that id. *)
Theorem aliases_and_tags_round_trip
    (t : Token) (now : string) (db : DB) (stored : Token) (db' : DB) :
  well_shaped (aliases t) ->
  well_shaped (tags t) ->
  add_token t now db = (inr stored, db') ->
  (forall key g, get_token key db' = Some g -> id g = id t ->
     aliases g = aliases t /\ tags g = tags t)
  /\ exists g, get_token (id t) db' = Some g /\ id g = id t
               /\ aliases g = aliases t /\ tags g = tags t.
Proof.
  intros Ha Ht Hadd.
  apply add_token_inr in Hadd as (_ & -> & Hi & ->).
  assert (Hnew : _row_to_token (row_of_token (stamp_new t now))
                 = mkToken (id t) (name t) (category t) (value t) (description t)
                     (aliases t) (deprecated t) (deprecated_reason t) (tags t)
                     (created_at (stamp_new t now)) now (version t)).
  { rewrite row_to_token_of_token. cbn [stamp_new id name category value description
      aliases deprecated deprecated_reason tags updated_at version].
    rewrite (split_list_join _ Ha), (split_list_join _ Ht). reflexivity. }
  assert (Hold : forall r, In r (tokens db) -> r_id r <> id t).
  { intros r Hr He. unfold integrity_error in Hi.
    assert (existsb (fun r0 => String.eqb (r_id r0) (r_id (row_of_token (stamp_new t now)))
                     || String.eqb (r_name r0) (r_name (row_of_token (stamp_new t now))))
              (tokens db) = true); [| congruence].
    apply existsb_exists. exists r. split; [exact Hr |].
    apply orb_true_iff. left. apply String.eqb_eq. exact He. }
  split.
  - intros key g Hget Hid. unfold get_token in Hget.
    destruct (select_token key _) as [r|] eqn:Hsel; [| discriminate].
    injection Hget as <-. apply select_token_In in Hsel as [Hin _]. cbn [tokens] in Hin.
    apply in_app_iff in Hin as [Hin|[<-|[]]].
    + destruct (Hold r Hin Hid).
    + rewrite Hnew. auto.
  - exists (_row_to_token (row_of_token (stamp_new t now))).
    split; [| rewrite Hnew; auto].
    unfold get_token.
    pose proof (select_token_appended (tokens db) (token_snapshots db)
                  (row_of_token (stamp_new t now)) Hold) as Hsel.
    cbn [r_id row_of_token stamp_new id] in Hsel. rewrite Hsel. reflexivity.
Qed.

(** [tagged_token] comes back with its two aliases and its tag. *)
Lemma aliases_and_tags_round_trip_witness :
  exists g,
    get_token "t1" (add_token tagged_token ten_o_clock empty_db).2 = Some g
    /\ aliases g = ["primary"; "brand-blue"] /\ tags g = ["ui"].
Proof.
  destruct (aliases_and_tags_round_trip tagged_token ten_o_clock empty_db
              tagged_stored (add_token tagged_token ten_o_clock empty_db).2)
    as [_ Hget].
  - intros x [<-|[<-|[]]]; split; [discriminate | reflexivity | discriminate | reflexivity].
  - intros x [<-|[]]; split; [discriminate | reflexivity].
  - vm_compute. reflexivity.
  - destruct Hget as (g & Hg & _ & Ha & Ht).
    exists g. auto.
Defined.

(* ---------------------------------------------------------------------- *)
(** ** Updates *)

Lemma NoDup_map_inj {A B} (f : A -> B) l x y :
  NoDup (map f l) -> In x l -> In y l -> f x = f y -> x = y.
Proof.
  induction l as [|a l IH]; intros Hnd Hx Hy Hf; [destruct Hx |].
  simpl in Hnd. apply NoDup_cons in Hnd as [Hna Hnd].
  destruct Hx as [->|Hx], Hy as [->|Hy]; auto.
  - exfalso. apply Hna. rewrite Hf. apply list_elem_of_In, in_map, Hy.
  - exfalso. apply Hna. rewrite <- Hf. apply list_elem_of_In, in_map, Hx.
Qed.

Lemma update_token_inr key fields now db t' db' :
  update_token key fields now db = (inr t', db') ->
  exists row,
    select_token key db = Some row
    /\ t' = bump now (set_fields fields (_row_to_token row))
    /\ validate t' = []
    /\ db' = mkDB (map (update_row t') (tokens db)) (token_snapshots db).
Proof.
  unfold update_token. destruct (select_token key db) as [row|]; [| discriminate].
  destruct (validate (bump now (set_fields fields (_row_to_token row)))) as [|e es] eqn:Hv;
    [| discriminate].
  destruct (negb (fits_int64 _)); [discriminate |].
  intros [= <- <-]. exists row. auto.
Qed.

(** C2, as stated, fails: an update that names [category] changes the
    stored category. *)
Lemma update_changes_category :
  category <$> get_token "t1" brand_db = Some "color"
  /\ exists t' db',
       update_token "t1" category_shadow eleven_o_clock brand_db = (inr t', db')
       /\ category <$> get_token "t1" db' = Some "shadow".
Proof.
  split; [vm_compute; reflexivity |].
  eexists _, _. split; vm_compute; reflexivity.
Qed.

(** C2, amended: for every existing token and every update that leaves
    [id] alone, a successful update stores the supplied values of category,
    value, description, aliases, deprecated, deprecated_reason and tags
    (the two lists through their comma-joined column) and keeps the
    previous value of each of these that is not supplied; the stored id,
    name and created_at are never changed through the update path, and
    every other row and every snapshot stays as it is; the version becomes
    the previous (or supplied) version plus one and updated_at the current
    time. *)
Theorem update_token_stores_supplied_fields
    (key : string) (fields : Fields) (now : string) (db : DB)
    (row : Row) (t' : Token) (db' : DB) :
  NoDup (map r_id (tokens db)) ->
  select_token key db = Some row ->
  f_id fields = None ->
  update_token key fields now db = (inr t', db') ->
  token_snapshots db' = token_snapshots db
  /\ forall i r, tokens db !! i = Some r ->
       exists r', tokens db' !! i = Some r'
         /\ (r <> row -> r' = r)
         /\ (r = row ->
             let old := _row_to_token row in
             let new := _row_to_token r' in
             id new = id old /\ name new = name old
             /\ created_at new = created_at old
             /\ category new = default (category old) (f_category fields)
             /\ value new = default (value old) (f_value fields)
             /\ description new = default (description old) (f_description fields)
             /\ aliases new
                = from_option (fun l => split_list (Py.join "," l)) (aliases old)
                    (f_aliases fields)
             /\ deprecated new = default (deprecated old) (f_deprecated fields)
             /\ deprecated_reason new
                = default (deprecated_reason old) (f_deprecated_reason fields)
             /\ tags new
                = from_option (fun l => split_list (Py.join "," l)) (tags old)
                    (f_tags fields)
             /\ version new = (default (version old) (f_version fields) + 1)%Z
             /\ updated_at new = now).
Proof.
  intros Hnd Hsel Hid Hupd.
  apply update_token_inr in Hupd as (row' & Hsel' & -> & _ & ->).
  rewrite Hsel in Hsel'. injection Hsel' as <-.
  split; [reflexivity |]. intros i r Hi. cbn [tokens].
  exists (update_row (bump now (set_fields fields (_row_to_token row))) r).
  split; [rewrite list_lookup_fmap, Hi; reflexivity |].
  assert (Hin_row : In row (tokens db)).
  { apply select_token_In in Hsel. tauto. }
  assert (Hin_r : In r (tokens db)).
  { apply list_elem_of_In, list_elem_of_lookup. eauto. }
  assert (Htid : id (bump now (set_fields fields (_row_to_token row))) = r_id row).
  { cbn [bump set_fields id]. rewrite Hid. reflexivity. }
  unfold update_row. rewrite Htid. split.
  - intros Hne. destruct (String.eqb_spec (r_id r) (r_id row)) as [He|]; [| reflexivity].
    destruct Hne. exact (NoDup_map_inj r_id _ _ _ Hnd Hin_r Hin_row He).
  - intros ->. rewrite String.eqb_refl. cbv zeta.
    assert (Hold : _row_to_token row
              = mkToken (r_id row) (r_name row) (r_category row) (r_value row)
                  (r_description row) (split_list (r_aliases row))
                  (bool_of_int (r_deprecated row)) (r_deprecated_reason row)
                  (split_list (r_tags row)) (r_created_at row) (r_updated_at row)
                  (r_version row)) by reflexivity.
    remember (_row_to_token row) as old eqn:Hdef. clear Hdef.
    cbn [_row_to_token id name category value description aliases deprecated
      deprecated_reason tags created_at updated_at version r_id r_name r_category r_value
      r_description r_aliases r_deprecated r_deprecated_reason r_tags r_created_at
      r_updated_at r_version bump set_fields].
    rewrite bool_of_int_of_bool, Hold.
    cbn [id name category value description aliases deprecated
      deprecated_reason tags created_at updated_at version].
    repeat split.
    + destruct (f_aliases fields) as [l|]; cbn [default from_option]; [reflexivity |].
      rewrite join_split_list. reflexivity.
    + destruct (f_tags fields) as [l|]; cbn [default from_option]; [reflexivity |].
      rewrite join_split_list. reflexivity.
Qed.

(** Updating value and deprecated of [brand_token] keeps name and category. *)
Lemma update_token_stores_supplied_fields_witness :
  exists r',
    tokens (update_token "color/brand" value_black_deprecated eleven_o_clock brand_db).2 !! 0
    = Some r'
    /\ value (_row_to_token r') = "#000"
    /\ deprecated (_row_to_token r') = true
    /\ name (_row_to_token r') = "color/brand"
    /\ category (_row_to_token r') = "color"
    /\ version (_row_to_token r') = 2%Z.
Proof.
  destruct (update_token_stores_supplied_fields "color/brand" value_black_deprecated
              eleven_o_clock brand_db brand_row brand_updated
              (update_token "color/brand" value_black_deprecated eleven_o_clock brand_db).2)
    as [_ Hrows].
  - vm_compute. apply NoDup_singleton.
  - vm_compute. reflexivity.
  - reflexivity.
  - vm_compute. reflexivity.
  - destruct (Hrows 0 brand_row) as (r' & Hr' & _ & Hnew); [vm_compute; reflexivity |].
    destruct (Hnew eq_refl)
      as (_ & Hname & _ & Hcat & Hvalue & _ & _ & Hdep & _ & _ & Hver & _).
    exists r'. split; [exact Hr' |]. split; [exact Hvalue |]. split; [exact Hdep |].
    split; [exact Hname |]. split; [exact Hcat | exact Hver].
Defined.

(* ====================================================================== *)
(** * Snapshots *)
(* ====================================================================== *)

Lemma add_token_snapshots t now db :
  token_snapshots (add_token t now db).2 = token_snapshots db.
Proof.
  unfold add_token. destruct (validate t); [| reflexivity].
  destruct (negb (fits_int64 _)); [reflexivity |].
  destruct (integrity_error _ db); reflexivity.
Qed.

Lemma update_token_snapshots key fields now db :
  token_snapshots (update_token key fields now db).2 = token_snapshots db.
Proof.
  unfold update_token. destruct (select_token key db); [| reflexivity].
  destruct (validate _); [| reflexivity].
  destruct (negb (fits_int64 _)); reflexivity.
Qed.

Lemma delete_token_snapshots key db :
  token_snapshots (delete_token key db).2 = token_snapshots db.
Proof. reflexivity. Qed.

Lemma run_ops_snapshots ops : forall db,
  token_snapshots (run_ops ops db) = token_snapshots db.
Proof.
  induction ops as [|o ops IH]; intros db; [reflexivity |].
  unfold run_ops in *. cbn [fold_left]. rewrite IH.
  destruct o; cbn [run_op].
  - apply add_token_snapshots.
  - apply update_token_snapshots.
  - apply delete_token_snapshots.
Qed.

Lemma run_ops_select_snapshot ops db snapshot_id :
  select_snapshot snapshot_id (run_ops ops db) = select_snapshot snapshot_id db.
Proof. unfold select_snapshot. rewrite run_ops_snapshots. reflexivity. Qed.

Lemma run_ops_load_snapshot ops db snapshot_id :
  _load_snapshot_tokens snapshot_id (run_ops ops db)
  = _load_snapshot_tokens snapshot_id db.
Proof. unfold _load_snapshot_tokens. rewrite run_ops_select_snapshot. reflexivity. Qed.

(** C5: whatever sequence of adds, updates and deletes runs on the live
    store, every snapshot reference resolves to the same snapshot row and
    to the same name-to-token mapping as before the sequence. *)
Theorem snapshots_are_immutable (ops : list op) (db : DB) (snapshot_id : string) :
  select_snapshot snapshot_id (run_ops ops db) = select_snapshot snapshot_id db
  /\ _load_snapshot_tokens snapshot_id (run_ops ops db)
     = _load_snapshot_tokens snapshot_id db.
Proof.
  split; [apply run_ops_select_snapshot | apply run_ops_load_snapshot].
Qed.

(** A snapshot just saved under a fresh identifier resolves, after any
    later adds, updates and deletes, to the tokens the store held when it
    was saved. *)
Lemma saved_snapshot_resolves version_ name_ description_ stamp now sid now2 db sid' db' ops :
  (forall s, In s (token_snapshots db) -> s_id s <> sid /\ s_version s <> sid) ->
  save_snapshot version_ name_ description_ stamp now sid now2 db = Some (sid', db') ->
  sid' = sid
  /\ _load_snapshot_tokens sid (run_ops ops db') = inr (by_name (list_tokens None true db)).
Proof.
  intros Hfresh. unfold save_snapshot.
  destruct (existsb _ (token_snapshots db)); [discriminate |].
  intros [= <- <-]. split; [reflexivity |].
  rewrite run_ops_load_snapshot.
  unfold _load_snapshot_tokens, select_snapshot. cbn [token_snapshots].
  rewrite find_app_r.
  - cbn [find s_id s_version]. rewrite String.eqb_refl. reflexivity.
  - intros s Hs. destruct (Hfresh s Hs) as [H1 H2].
    apply orb_false_iff. split; apply String.eqb_neq; assumption.
Qed.

(* ====================================================================== *)
(** * The diff engine *)
(* ====================================================================== *)

Lemma differs_false_iff ta tb :
  differs ta tb = false <->
  value ta = value tb /\ category ta = category tb /\ deprecated ta = deprecated tb.
Proof.
  unfold differs. rewrite !orb_false_iff, !negb_false_iff, !String.eqb_eq.
  rewrite Bool.eqb_true_iff. tauto.
Qed.

Lemma differs_true_iff ta tb :
  differs ta tb = true <->
  value ta <> value tb \/ category ta <> category tb \/ deprecated ta <> deprecated tb.
Proof.
  unfold differs. rewrite !orb_true_iff, !negb_true_iff, !String.eqb_neq.
  rewrite Bool.eqb_false_iff. tauto.
Qed.

Lemma diff_step_lookup a b acc m n :
  (diff_step a b acc m).1 !! n
  = if decide (n = m) then from_option Some (acc.1 !! n) (changed_record a b n)
    else acc.1 !! n.
Proof.
  unfold diff_step, changed_record. destruct (decide (n = m)) as [->|Hne].
  - destruct (a !! m) as [ta|], (b !! m) as [tb|]; try reflexivity.
    destruct (differs ta tb); cbn [fst from_option]; [apply lookup_insert_eq | reflexivity].
  - destruct (a !! m) as [ta|], (b !! m) as [tb|]; try reflexivity.
    destruct (differs ta tb); cbn [fst]; [| reflexivity].
    apply lookup_insert_ne. congruence.
Qed.

Lemma diff_step_count a b acc m :
  (diff_step a b acc m).2 = acc.2 + (if same_tracked a b m then 1 else 0).
Proof.
  unfold diff_step, same_tracked.
  destruct (a !! m) as [ta|], (b !! m) as [tb|]; cbn [snd]; try lia.
  destruct (differs ta tb); cbn [snd negb]; lia.
Qed.

(** The loop over the common names: what it leaves in [changed]. *)
Lemma diff_loop_lookup a b names : forall acc n,
  (fold_left (diff_step a b) names acc).1 !! n
  = if decide (n ∈ names)
    then from_option Some (acc.1 !! n) (changed_record a b n)
    else acc.1 !! n.
Proof.
  induction names as [|m names IH]; intros acc n; cbn [fold_left].
  - destruct (decide (n ∈ [])) as [H|_]; [| reflexivity].
    apply elem_of_nil in H. destruct H.
  - rewrite IH, diff_step_lookup.
    destruct (decide (n ∈ names)) as [Hin|Hnin];
      destruct (decide (n = m)) as [->|Hne];
      destruct (decide (_ ∈ m :: names)) as [Hc|Hc];
      try reflexivity.
    + destruct (changed_record a b m); reflexivity.
    + destruct Hc. apply elem_of_cons. auto.
    + destruct Hc. apply elem_of_cons. auto.
    + destruct Hc. apply elem_of_cons. auto.
    + apply elem_of_cons in Hc as [Hc|Hc]; contradiction.
Qed.

(** The loop over the common names: what it counts as unchanged. *)
Lemma diff_loop_count a b names : forall acc,
  (fold_left (diff_step a b) names acc).2
  = acc.2 + length (filter (fun n => same_tracked a b n = true) names).
Proof.
  induction names as [|m names IH]; intros acc; cbn [fold_left].
  - simpl. lia.
  - rewrite IH, diff_step_count, filter_cons.
    destruct (same_tracked a b m); simpl.
    + destruct (decide (true = true)); [simpl; lia | congruence].
    + destruct (decide (false = true)); [discriminate | lia].
Qed.

Lemma changed_record_common a b n :
  is_Some (changed_record a b n) -> n ∈ elements (dom a ∩ dom b).
Proof.
  unfold changed_record. intros H.
  apply elem_of_elements, elem_of_intersection.
  destruct (a !! n) as [ta|] eqn:Ha, (b !! n) as [tb|] eqn:Hb;
    try (destruct H; discriminate).
  split; apply elem_of_dom; eauto.
Qed.

Lemma diff_maps_changed ra rb a b n :
  d_changed (diff_maps ra rb a b) !! n = changed_record a b n.
Proof.
  unfold diff_maps.
  pose proof (diff_loop_lookup a b (elements (dom a ∩ dom b)) (∅, 0) n) as H.
  destruct (fold_left (diff_step a b) (elements (dom a ∩ dom b)) (∅, 0)) as [ch un].
  cbn [d_changed fst] in *. rewrite H, lookup_empty.
  destruct (decide (n ∈ elements (dom a ∩ dom b))) as [Hin|Hnin].
  - destruct (changed_record a b n); reflexivity.
  - destruct (changed_record a b n) as [c|] eqn:Hc; [| reflexivity].
    destruct Hnin. apply changed_record_common. rewrite Hc. eauto.
Qed.

Lemma length_filter_elements (P : string -> Prop) `{!forall n, Decision (P n)}
    (X : gset string) :
  length (filter P (elements X)) = size (filter P X).
Proof.
  unfold size, set_size. cbn. apply Permutation_length, NoDup_Permutation.
  - apply NoDup_filter, NoDup_elements.
  - apply NoDup_elements.
  - intros n. rewrite list_elem_of_filter, !elem_of_elements, elem_of_filter. tauto.
Qed.

Lemma diff_maps_summary ra rb a b :
  d_summary (diff_maps ra rb a b)
  = mkSummary (size (d_added (diff_maps ra rb a b)))
      (size (d_removed (diff_maps ra rb a b)))
      (size (d_changed (diff_maps ra rb a b)))
      (size (filter (fun n => same_tracked a b n = true) (dom a ∩ dom b))).
Proof.
  unfold diff_maps.
  pose proof (diff_loop_count a b (elements (dom a ∩ dom b)) (∅, 0)) as H.
  destruct (fold_left (diff_step a b) (elements (dom a ∩ dom b)) (∅, 0)) as [ch un].
  cbn [d_summary d_added d_removed d_changed snd] in *.
  rewrite H, length_filter_elements. reflexivity.
Qed.

(** C6: for every pair of mappings, a name on both sides is under
    [changed] exactly when the two tokens differ in value, category or
    deprecated; its record carries the before and after values of those
    three fields and nothing else; only names on both sides are under
    [changed]; the unchanged count is the number of common names whose
    three fields agree, so a pair that differs only in description, tags or
    aliases is counted there. *)
Theorem diff_changed_tracks_three_fields (ra rb : string) (a b : gmap string Token) :
  (forall n ta tb, a !! n = Some ta -> b !! n = Some tb ->
     (is_Some (d_changed (diff_maps ra rb a b) !! n) <->
        value ta <> value tb \/ category ta <> category tb
        \/ deprecated ta <> deprecated tb)
     /\ (forall c, d_changed (diff_maps ra rb a b) !! n = Some c ->
           c = mkChange (mkTracked (value ta) (category ta) (deprecated ta))
                        (mkTracked (value tb) (category tb) (deprecated tb)))
     /\ (value ta = value tb -> category ta = category tb ->
         deprecated ta = deprecated tb ->
         d_changed (diff_maps ra rb a b) !! n = None
         /\ n ∈ filter (fun n => same_tracked a b n = true) (dom a ∩ dom b)))
  /\ (forall n, is_Some (d_changed (diff_maps ra rb a b) !! n) ->
        is_Some (a !! n) /\ is_Some (b !! n))
  /\ n_changed (d_summary (diff_maps ra rb a b)) = size (d_changed (diff_maps ra rb a b))
  /\ n_unchanged (d_summary (diff_maps ra rb a b))
     = size (filter (fun n => same_tracked a b n = true) (dom a ∩ dom b)).
Proof.
  split; [| split; [| rewrite diff_maps_summary; split; reflexivity]].
  - intros n ta tb Ha Hb. rewrite diff_maps_changed.
    unfold changed_record. rewrite Ha, Hb. split; [| split].
    + rewrite <- differs_true_iff. destruct (differs ta tb); split; eauto.
      * intros [c Hc]. discriminate.
      * discriminate.
    + intros c. destruct (differs ta tb); [| discriminate].
      intros [= <-]. reflexivity.
    + intros Hv Hc Hd.
      assert (Hsame : differs ta tb = false) by (apply differs_false_iff; auto).
      rewrite Hsame. split; [reflexivity |].
      apply elem_of_filter. split.
      * unfold same_tracked. rewrite Ha, Hb, Hsame. reflexivity.
      * apply elem_of_intersection. split; apply elem_of_dom; eauto.
  - intros n. rewrite diff_maps_changed. unfold changed_record.
    destruct (a !! n), (b !! n); intros [c Hc]; try discriminate. eauto.
Qed.

Lemma differs_refl t : differs t t = false.
Proof. apply differs_false_iff. auto. Qed.

Lemma diff_maps_added ra rb a b :
  d_added (diff_maps ra rb a b) = filter (fun kv : string * Token => a !! kv.1 = None) b.
Proof.
  unfold diff_maps.
  destruct (fold_left (diff_step a b) (elements (dom a ∩ dom b)) (∅, 0)). reflexivity.
Qed.

Lemma diff_maps_removed ra rb a b :
  d_removed (diff_maps ra rb a b) = filter (fun kv : string * Token => b !! kv.1 = None) a.
Proof.
  unfold diff_maps.
  destruct (fold_left (diff_step a b) (elements (dom a ∩ dom b)) (∅, 0)). reflexivity.
Qed.

(** Diffing a mapping with itself. *)
Lemma diff_maps_self ra rb (m : gmap string Token) :
  d_added (diff_maps ra rb m m) = ∅
  /\ d_removed (diff_maps ra rb m m) = ∅
  /\ d_changed (diff_maps ra rb m m) = ∅
  /\ d_summary (diff_maps ra rb m m) = mkSummary 0 0 0 (size m).
Proof.
  assert (Hfilter : filter (fun kv : string * Token => m !! kv.1 = None) m = ∅).
  { apply map_empty. intros n. apply map_lookup_filter_None.
    destruct (m !! n) as [t|] eqn:Hn; [right | left; reflexivity].
    intros t' [= <-]. cbn. congruence. }
  assert (Hchanged : d_changed (diff_maps ra rb m m) = ∅).
  { apply map_empty. intros n. rewrite diff_maps_changed. unfold changed_record.
    destruct (m !! n) as [t|]; [| reflexivity]. rewrite differs_refl. reflexivity. }
  assert (Hsame : filter (fun n => same_tracked m m n = true) (dom m ∩ dom m) = dom m).
  { apply set_eq. intros n. rewrite elem_of_filter, elem_of_intersection, elem_of_dom.
    unfold same_tracked. split; [tauto |]. intros [t Ht].
    rewrite Ht, differs_refl. eauto. }
  rewrite diff_maps_summary, diff_maps_added, diff_maps_removed.
  rewrite Hchanged, Hsame, size_dom, Hfilter, map_size_empty. auto.
Qed.

Lemma by_name_from_size toks : forall m0 : gmap string Token,
  NoDup (map name toks) ->
  (forall t, In t toks -> m0 !! name t = None) ->
  size (fold_left (fun m t => <[name t := t]> m) toks m0) = size m0 + length toks.
Proof.
  induction toks as [|t toks IH]; intros m0 Hnd Hfresh; cbn [fold_left length]; [lia |].
  simpl in Hnd. apply NoDup_cons in Hnd as [Hnotin Hnd].
  rewrite IH; [| exact Hnd |].
  - rewrite map_size_insert_None by (apply Hfresh; left; reflexivity). lia.
  - intros t' Ht'. rewrite lookup_insert_ne.
    + apply Hfresh. right. exact Ht'.
    + intros He. apply Hnotin. rewrite He. apply list_elem_of_In, in_map, Ht'.
Qed.

(** With distinct names, the mapping has one entry per token. *)
Lemma by_name_size toks :
  NoDup (map name toks) -> size (by_name toks) = length toks.
Proof.
  intros Hnd. unfold by_name. rewrite by_name_from_size; [| exact Hnd |].
  - rewrite map_size_empty. reflexivity.
  - intros t _. apply lookup_empty.
Qed.

(** Any reference diffed with itself: nothing added, removed or changed,
    and every entry unchanged. *)
Lemma diff_with_itself ref db m :
  _get ref db = inr m ->
  exists d, diff ref ref db = inr d
    /\ d_added d = ∅ /\ d_removed d = ∅ /\ d_changed d = ∅
    /\ d_summary d = mkSummary 0 0 0 (size m).
Proof.
  intros Hget. unfold diff. rewrite Hget.
  exists (diff_maps ref ref m m). split; [reflexivity |]. apply diff_maps_self.
Qed.

(** C7: diffing a snapshot against itself gives no added, no removed and
    no changed entry, and an unchanged count equal to the number of entries
    of the snapshot's mapping, which is the number of its tokens as their
    names are distinct. *)
Theorem diff_snapshot_with_itself (db : DB) (ref : string) (row : SnapshotRow) :
  ref <> "current" ->
  select_snapshot ref db = Some row ->
  exists d, diff ref ref db = inr d
    /\ d_added d = ∅ /\ d_removed d = ∅ /\ d_changed d = ∅
    /\ d_summary d = mkSummary 0 0 0 (size (by_name (ts_tokens (s_data row))))
    /\ (NoDup (map name (ts_tokens (s_data row))) ->
        n_unchanged (d_summary d) = length (ts_tokens (s_data row))).
Proof.
  intros Hne Hsel.
  assert (Hget : _get ref db = inr (by_name (ts_tokens (s_data row)))).
  { unfold _get, _load_snapshot_tokens.
    destruct (String.eqb_spec ref "current") as [He|_]; [contradiction |].
    rewrite Hsel. reflexivity. }
  destruct (diff_with_itself _ _ _ Hget) as (d & Hd & Ha & Hr & Hc & Hs).
  exists d. repeat split; try assumption.
  intros Hnd. rewrite Hs. cbn [n_unchanged]. apply by_name_size, Hnd.
Qed.

(** The snapshot of two tokens diffed with itself: two unchanged. *)
Lemma diff_snapshot_with_itself_witness :
  exists d, diff "v1" "v1" snapshot_db = inr d
    /\ d_changed d = ∅
    /\ n_unchanged (d_summary d) = 2.
Proof.
  destruct (diff_snapshot_with_itself snapshot_db "v1" first_snapshot)
    as (d & Hd & _ & _ & Hc & _ & Hn).
  - discriminate.
  - reflexivity.
  - exists d. split; [exact Hd |]. split; [exact Hc |].
    apply Hn. cbn. apply NoDup_cons. split.
    + intros H. apply list_elem_of_singleton in H. discriminate.
    + apply NoDup_singleton.
Defined.

(* ====================================================================== *)
(** * Bulk import *)
(* ====================================================================== *)

(** C8: on an empty store, importing the one record [tok] whose value is
    the text [already exists] counts one skipped entry and collects no
    error message, although the store holds no token of that name: the
    validation message quotes the value, and the loop takes every message
    that contains [already exists] for a duplicate. *)
Theorem import_takes_quoted_text_for_duplicate :
  select_token "tok" empty_db = None
  /\ import_json (fun _ => "id-0") (fun _ => ten_o_clock) quoted_source 0 empty_db
     = ((0, 1, []), empty_db)
  /\ (add_token (mkToken "id-0" "tok" "color" "already exists" "" [] false "" []
                   ten_o_clock ten_o_clock 1) ten_o_clock empty_db).1
     = inl (ValueError
              "Token validation failed: value 'already exists' doesn't look like a valid color").
Proof. vm_compute. repeat split. Qed.

(** Every record is attempted and lands in exactly one of the three
    results; entries that are no records are passed over. *)
Lemma add_token_raises_ValueError t now db e db' :
  fits_int64 (version t) = true ->
  add_token t now db = (inl e, db') -> exists msg, e = ValueError msg.
Proof.
  intros Hf. unfold add_token. destruct (validate t); [| intros [= <- _]; eauto].
  cbn [stamp_new version]. rewrite Hf. cbn [negb].
  destruct (integrity_error _ db); [intros [= <- _]; eauto | discriminate].
Qed.

Lemma import_entry_counts uuid4 _now st entry :
  let st' := import_entry uuid4 _now st entry in
  added st' + skipped st' + length (errors st')
  = added st + skipped st + length (errors st) + (if is_record entry.2 then 1 else 0).
Proof.
  cbv zeta. unfold import_entry. destruct entry.2 as [|spec]; cbn [is_record]; [lia |].
  destruct (add_token _ _ (st_db st)) as [[[msg|key|]|t] db'] eqn:Hadd;
    [destruct (Py.contains "already exists" msg) | | |]; cbn; rewrite ?length_app; simpl;
    try lia;
    apply add_token_raises_ValueError in Hadd as [msg Hmsg]; try reflexivity; discriminate.
Qed.

(** X18: on a source whose records hold a string as description and a
    list of strings as tags (or hold none), [import_json] attempts every
    record: the numbers of added and of skipped records and the number of
    error messages together count every entry of the source that is a
    dictionary, and entries that are none are passed over. *)
Theorem import_json_counts
    (uuid4 _now : nat -> string) (tokens_data : list (string * ImportEntry))
    (first : nat) (db : DB) :
  (import_json uuid4 _now tokens_data first db).1.1.1
  + (import_json uuid4 _now tokens_data first db).1.1.2
  + length (import_json uuid4 _now tokens_data first db).1.2
  = length (List.filter (fun entry : string * ImportEntry => is_record entry.2) tokens_data).
Proof.
  unfold import_json.
  assert (H : forall st,
    let st' := fold_left (import_entry uuid4 _now) tokens_data st in
    added st' + skipped st' + length (errors st')
    = added st + skipped st + length (errors st)
      + length (List.filter (fun entry : string * ImportEntry => is_record entry.2)
                  tokens_data)).
  { induction tokens_data as [|entry rest IH]; intros st; cbn [fold_left List.filter].
    - simpl. lia.
    - cbv zeta in IH |- *. rewrite IH.
      pose proof (import_entry_counts uuid4 _now st entry) as Hc. cbv zeta in Hc.
      rewrite Hc. destruct (is_record entry.2); simpl; lia. }
  specialize (H (mkImportState 0 0 [] db first)). cbv zeta in H |- *. cbn in H |- *. exact H.
Qed.

(* ====================================================================== *)
(** * The databases the program builds *)
(* ====================================================================== *)

Lemma In_map_filter {A B} (f : A -> B) (p : A -> bool) l y :
  In y (map f (List.filter p l)) -> In y (map f l).
Proof.
  rewrite !in_map_iff. intros (x & Hx & Hin). apply filter_In in Hin as [Hin _]. eauto.
Qed.

Lemma NoDup_map_filter {A B} (f : A -> B) (p : A -> bool) l :
  NoDup (map f l) -> NoDup (map f (List.filter p l)).
Proof.
  induction l as [|x l IH]; intros Hnd; [exact Hnd |].
  simpl in Hnd. apply NoDup_cons in Hnd as [Hx Hnd]. cbn [List.filter].
  destruct (p x); [| exact (IH Hnd)].
  cbn [map]. apply NoDup_cons. split; [| exact (IH Hnd)].
  intros H. apply Hx. apply list_elem_of_In. apply list_elem_of_In in H.
  exact (In_map_filter _ _ _ _ H).
Qed.

Lemma insert_sorted_perm x l : insert_sorted x l ≡ₚ x :: l.
Proof.
  induction l as [|y l IH]; simpl; [reflexivity |].
  destruct (row_leb x y); [reflexivity |].
  rewrite IH. apply Permutation_swap.
Qed.

Lemma order_by_category_name_perm l : order_by_category_name l ≡ₚ l.
Proof.
  induction l as [|x l IH]; simpl; [reflexivity |].
  rewrite insert_sorted_perm, IH. reflexivity.
Qed.

Lemma update_row_keys t r :
  r_id (update_row t r) = r_id r /\ r_name (update_row t r) = r_name r.
Proof. unfold update_row. destruct (String.eqb (r_id r) (id t)); auto. Qed.

Lemma unique_keys_empty : unique_keys empty_db.
Proof. split; apply NoDup_nil_2. Qed.

Lemma add_token_unique_keys t now db :
  unique_keys db -> unique_keys (add_token t now db).2.
Proof.
  intros [Hid Hname]. unfold add_token. destruct (validate t); [| split; assumption].
  destruct (negb (fits_int64 _)); [split; assumption |].
  destruct (integrity_error _ db) eqn:Hi; [split; assumption |].
  unfold integrity_error in Hi.
  assert (Hfresh : forall r, In r (tokens db) ->
            r_id r <> r_id (row_of_token (stamp_new t now))
            /\ r_name r <> r_name (row_of_token (stamp_new t now))).
  { intros r Hr.
    destruct (String.eqb_spec (r_id r) (r_id (row_of_token (stamp_new t now)))) as [He|Hne];
    destruct (String.eqb_spec (r_name r) (r_name (row_of_token (stamp_new t now)))) as [He'|Hne'];
      try (split; assumption);
      exfalso; apply not_true_iff_false in Hi; apply Hi, existsb_exists;
      exists r; (split; [exact Hr |]); apply orb_true_iff;
      [left | left | right]; apply String.eqb_eq; assumption. }
  unfold unique_keys. cbn [snd set_tokens tokens]. rewrite !map_app. cbn [map].
  split; apply NoDup_app; (split; [assumption |]); (split; [| apply NoDup_singleton]);
    intros x Hx Hx'; apply list_elem_of_singleton in Hx'; subst x;
    apply list_elem_of_In, in_map_iff in Hx as (r & He & Hr);
    destruct (Hfresh r Hr); congruence.
Qed.

Lemma update_token_unique_keys key fields now db :
  unique_keys db -> unique_keys (update_token key fields now db).2.
Proof.
  intros Hu. unfold update_token. destruct (select_token key db) as [row|]; [| exact Hu].
  destruct (validate _); [| exact Hu].
  destruct (negb (fits_int64 _)); [exact Hu |].
  destruct Hu as [Hid Hname]. unfold unique_keys. cbn [snd set_tokens tokens].
  rewrite !map_map.
  rewrite (map_ext (fun x => r_id (update_row _ x)) r_id),
          (map_ext (fun x => r_name (update_row _ x)) r_name);
    [split; assumption | |]; intros x; apply update_row_keys.
Qed.

Lemma delete_token_unique_keys key db :
  unique_keys db -> unique_keys (delete_token key db).2.
Proof.
  intros [Hid Hname]. split; cbn [delete_token snd set_tokens tokens];
    apply NoDup_map_filter; assumption.
Qed.

Lemma run_ops_unique_keys ops : forall db, unique_keys db -> unique_keys (run_ops ops db).
Proof.
  induction ops as [|o ops IH]; intros db Hu; [exact Hu |].
  unfold run_ops in *. cbn [fold_left]. apply IH. destruct o; cbn [run_op].
  - apply add_token_unique_keys, Hu.
  - apply update_token_unique_keys, Hu.
  - apply delete_token_unique_keys, Hu.
Qed.

(** The listing of a store with unique names has distinct names. *)
Lemma list_tokens_names_distinct c d db :
  unique_keys db -> NoDup (map name (list_tokens c d db)).
Proof.
  intros [_ Hname]. unfold list_tokens. rewrite map_map.
  change (fun x => name (_row_to_token x)) with r_name.
  rewrite order_by_category_name_perm. apply NoDup_map_filter, Hname.
Qed.

Lemma well_formed_empty : well_formed empty_db.
Proof. split; [apply unique_keys_empty | intros s []]. Qed.

Lemma run_ops_well_formed ops db : well_formed db -> well_formed (run_ops ops db).
Proof.
  intros [Hu Hs]. split; [apply run_ops_unique_keys, Hu |].
  rewrite run_ops_snapshots. exact Hs.
Qed.

Lemma save_snapshot_well_formed version_ name_ description_ stamp now sid now2 db sid' db' :
  well_formed db ->
  save_snapshot version_ name_ description_ stamp now sid now2 db = Some (sid', db') ->
  well_formed db'.
Proof.
  intros [Hu Hs]. unfold save_snapshot.
  destruct (existsb _ (token_snapshots db)); [discriminate |].
  intros [= _ <-]. split; [exact Hu |]. cbn [token_snapshots].
  intros s Hin. apply in_app_iff in Hin as [Hin|[<-|[]]]; [exact (Hs s Hin) |].
  cbn. split; [apply list_tokens_names_distinct, Hu | reflexivity].
Qed.

(** In a database the program built, diffing a snapshot against itself
    counts as unchanged the [count] recorded in the snapshot. *)
Lemma diff_snapshot_with_itself_count db ref row :
  well_formed db ->
  ref <> "current" ->
  select_snapshot ref db = Some row ->
  exists d, diff ref ref db = inr d
    /\ d_summary d = mkSummary 0 0 0 (count (ts_metadata (s_data row))).
Proof.
  intros [_ Hs] Hne Hsel.
  destruct (diff_with_itself ref db (by_name (ts_tokens (s_data row)))) as (d & Hd & _ & _ & _ & Hsum).
  - unfold _get, _load_snapshot_tokens.
    destruct (String.eqb_spec ref "current") as [He|_]; [contradiction |].
    rewrite Hsel. reflexivity.
  - exists d. split; [exact Hd |]. rewrite Hsum.
    unfold select_snapshot in Hsel. apply find_some in Hsel as [Hin _].
    destruct (Hs row Hin) as [Hnd Hcount].
    rewrite by_name_size, Hcount by exact Hnd. reflexivity.
Qed.

(* ====================================================================== *)
(** * Importing a source again *)
(* ====================================================================== *)

Lemma contains_self sub : Py.contains sub sub = true.
Proof.
  assert (H : forall s, Py.startswith s s = true).
  { induction s as [|c s IH]; [reflexivity |]. simpl. rewrite Ascii.eqb_refl. exact IH. }
  destruct sub; simpl; [reflexivity |]. rewrite Ascii.eqb_refl, H. reflexivity.
Qed.

Lemma contains_app_r sub u v :
  Py.contains sub v = true -> Py.contains sub (u +:+ v) = true.
Proof.
  intros H. induction u as [|c u IH]; [exact H |].
  rewrite append_cons. cbn [Py.contains]. rewrite IH. apply orb_true_r.
Qed.

Lemma duplicate_message_is_skipped name_ :
  Py.contains "already exists" ("Token with name '" +:+ name_ +:+ "' already exists") = true.
Proof. do 2 apply contains_app_r. reflexivity. Qed.

(** Validation reads the name, the category and the value only. *)
Lemma validate_token_of_spec n spec u t1 t2 u' t1' t2' :
  validate (token_of_spec n spec u t1 t2) = validate (token_of_spec n spec u' t1' t2').
Proof. reflexivity. Qed.

Lemma add_token_duplicate t now db :
  validate t = [] -> fits_int64 (version t) = true ->
  (exists r, In r (tokens db) /\ r_name r = name t) ->
  add_token t now db
  = (inl (ValueError ("Token with name '" +:+ name t +:+ "' already exists")), db).
Proof.
  intros Hv Hf (r & Hr & Hn). apply add_token_taken; [exact Hv | exact Hf |].
  exists r. split; [exact Hr | right; exact Hn].
Qed.

(** Importing records that are valid and already stored: nothing is added,
    every record is skipped, no error is reported, the store is unchanged. *)
Lemma import_stored_records uuid4 _now tokens_data : forall st,
  (forall n spec, In (n, Dict spec) tokens_data ->
     validate (token_of_spec n spec "" "" "") = []
     /\ exists r, In r (tokens (st_db st)) /\ r_name r = n) ->
  let st' := fold_left (import_entry uuid4 _now) tokens_data st in
  added st' = added st
  /\ skipped st'
     = skipped st
       + length (List.filter (fun entry : string * ImportEntry => is_record entry.2) tokens_data)
  /\ errors st' = errors st
  /\ st_db st' = st_db st.
Proof.
  induction tokens_data as [|[n entry] rest IH]; intros st Hall; cbn [fold_left List.filter].
  - simpl. repeat split. lia.
  - destruct entry as [|spec].
    + cbn [import_entry snd is_record].
      apply IH. intros m s Hin. apply Hall. right. exact Hin.
    + assert (Hstep : import_entry uuid4 _now st (n, Dict spec)
                      = mkImportState (added st) (S (skipped st)) (errors st) (st_db st)
                          (S (drawn st))).
      { destruct (Hall n spec) as [Hv Hr]; [left; reflexivity |].
        unfold import_entry. cbn [fst snd].
        rewrite add_token_duplicate; [| exact Hv | reflexivity | exact Hr].
        cbn [name token_of_spec]. rewrite duplicate_message_is_skipped. reflexivity. }
      rewrite Hstep. cbn [snd is_record length].
      destruct (IH (mkImportState (added st) (S (skipped st)) (errors st) (st_db st)
                      (S (drawn st)))) as (Ha & Hs & He & Hd).
      * intros m s Hin. apply Hall. right. exact Hin.
      * cbv zeta in Ha, Hs, He, Hd. cbn [added skipped errors st_db] in Ha, Hs, He, Hd.
        rewrite Ha, Hs, He, Hd. repeat split. lia.
Qed.

Lemma import_entry_grows uuid4 _now st entry :
  let st' := import_entry uuid4 _now st entry in
  added st <= added st' /\ skipped st <= skipped st'
  /\ length (errors st) <= length (errors st')
  /\ (forall r, In r (tokens (st_db st)) -> In r (tokens (st_db st'))).
Proof.
  cbv zeta. unfold import_entry. destruct entry.2 as [|spec]; [repeat split; auto |].
  destruct (add_token _ _ (st_db st)) as [[e|t] db'] eqn:Hadd.
  - assert (db' = st_db st) as -> by (apply add_token_inl in Hadd; exact Hadd).
    destruct e as [msg|key|]; [destruct (Py.contains "already exists" msg) | |];
      cbn; rewrite ?length_app; repeat split; auto; lia.
  - apply add_token_inr in Hadd as (_ & _ & _ & ->). cbn. repeat split; auto.
    intros r Hr. apply in_app_iff. left. exact Hr.
Qed.

Lemma import_loop_grows uuid4 _now tokens_data : forall st,
  let st' := fold_left (import_entry uuid4 _now) tokens_data st in
  added st <= added st' /\ skipped st <= skipped st'
  /\ length (errors st) <= length (errors st')
  /\ (forall r, In r (tokens (st_db st)) -> In r (tokens (st_db st'))).
Proof.
  induction tokens_data as [|entry rest IH]; intros st; cbn [fold_left].
  - repeat split; auto.
  - destruct (IH (import_entry uuid4 _now st entry)) as (Ha & Hs & He & Hd).
    destruct (import_entry_grows uuid4 _now st entry) as (Ha' & Hs' & He' & Hd').
    cbv zeta in *. repeat split; try lia. auto.
Qed.

(** A pass of the loop that skipped nothing and reported nothing added
    every record: each is valid and is stored at the end. *)
Lemma import_clean_pass uuid4 _now tokens_data : forall st,
  let st' := fold_left (import_entry uuid4 _now) tokens_data st in
  skipped st' = skipped st ->
  length (errors st') = length (errors st) ->
  added st'
  = added st
    + length (List.filter (fun entry : string * ImportEntry => is_record entry.2) tokens_data)
  /\ forall n spec, In (n, Dict spec) tokens_data ->
       validate (token_of_spec n spec "" "" "") = []
       /\ exists r, In r (tokens (st_db st')) /\ r_name r = n.
Proof.
  induction tokens_data as [|[n entry] rest IH]; intros st; cbn [fold_left List.filter].
  - cbv zeta. intros _ _. split; [simpl; lia | intros m s []].
  - cbv zeta. intros Hs He.
    destruct (import_loop_grows uuid4 _now rest (import_entry uuid4 _now st (n, entry)))
      as (_ & Hs1 & He1 & Hd1).
    destruct (import_entry_grows uuid4 _now st (n, entry)) as (_ & Hs0 & He0 & _).
    cbv zeta in *.
    destruct (IH (import_entry uuid4 _now st (n, entry))) as [Ha Hall]; [lia | lia |].
    cbv zeta in Ha, Hall.
    assert (Hsk : skipped (import_entry uuid4 _now st (n, entry)) = skipped st) by lia.
    assert (Her : length (errors (import_entry uuid4 _now st (n, entry)))
                  = length (errors st)) by lia.
    destruct entry as [|spec]; cbn [snd is_record].
    + split; [exact Ha |]. intros m s [Heq|Hin]; [discriminate | auto].
    + remember (import_entry uuid4 _now st (n, Dict spec)) as st1 eqn:Hst1.
      unfold import_entry in Hst1. cbn [fst snd] in Hst1.
      destruct (add_token _ _ (st_db st)) as [[[msg|key|]|t] db'] eqn:Hadd.
      * destruct (Py.contains "already exists" msg); subst st1; cbn in Hsk, Her;
          [lia | rewrite length_app in Her; simpl in Her; lia].
      * apply add_token_raises_ValueError in Hadd as [msg Hmsg]; [discriminate | reflexivity].
      * apply add_token_raises_ValueError in Hadd as [msg Hmsg]; [discriminate | reflexivity].
      * subst st1. cbn [added] in Ha. split; [simpl; lia |].
        intros m s [Heq|Hin]; [| auto]. injection Heq as <- <-.
        apply add_token_inr in Hadd as (Hv & -> & _ & ->). split; [exact Hv |].
        exists (row_of_token (stamp_new (token_of_spec n spec (uuid4 (drawn st))
                  (_now (3 * drawn st)) (_now (3 * drawn st + 1))) (_now (3 * drawn st + 2)))).
        split; [| reflexivity]. apply Hd1. cbn [st_db tokens].
        apply in_app_iff. right. left. reflexivity.
Qed.

(** X19: importing again a source whose first import added every record
    adds nothing, counts each record as skipped, reports no error and leaves
    the database as it is, whatever identifiers and clock the second import
    draws. *)
Theorem reimport_skips_every_record
    (uuid4 _now uuid4' _now' : nat -> string)
    (tokens_data : list (string * ImportEntry)) (first first' : nat)
    (db : DB) (a : nat) (db' : DB) :
  import_json uuid4 _now tokens_data first db = ((a, 0, []), db') ->
  import_json uuid4' _now' tokens_data first' db' = ((0, a, []), db').
Proof.
  unfold import_json. intros [= Ha Hs He Hd].
  destruct (import_clean_pass uuid4 _now tokens_data (mkImportState 0 0 [] db first))
    as [Hadded Hall]; cbv zeta; cbn [skipped errors added].
  - exact Hs.
  - rewrite He. reflexivity.
  - cbv zeta in Hadded, Hall. cbn [added] in Hadded. rewrite Hd in Hall.
    destruct (import_stored_records uuid4' _now' tokens_data (mkImportState 0 0 [] db' first'))
      as (Ha' & Hs' & He' & Hd').
    + exact Hall.
    + cbv zeta in Ha', Hs', He', Hd'. cbn [added skipped errors st_db] in Ha', Hs', He', Hd'.
      rewrite Ha', Hs', He', Hd'. repeat f_equal. lia.
Qed.

(* ====================================================================== *)
(** * What validation accepts *)
(* ====================================================================== *)

Lemma when_nil b msg : when b msg = [] <-> b = false.
Proof. destruct b; simpl; split; congruence. Qed.

(** Validation is the conjunction of a check of the name and a check of
    category and value. *)
Lemma validate_nil_iff t :
  validate t = [] <->
  name_valid (name t) = true /\ content_valid (category t) (value t) = true.
Proof.
  unfold validate, name_valid, content_valid.
  destruct (String.eqb (name t) ""), (Re.re_match false name_pattern (Py.lower (name t))),
    (in_categories (category t)), (String.eqb (value t) ""),
    (String.eqb (category t) "color"), (_is_valid_color (value t)),
    (String.eqb (category t) "spacing"),
    (Re.re_match false spacing_pattern (Py.strip (value t))),
    (Py.startswith (value t) "var(");
    cbn [when negb andb orb app]; split; try discriminate; try (intros [? ?]; discriminate);
    auto.
Qed.

Lemma lower_char_newline c : Ascii.eqb (Py.lower_char c) "010" = Ascii.eqb c "010".
Proof. revert c. apply ascii_bool_ext. vm_compute. reflexivity. Qed.

(** The words [[a-z0-9\-./]*] followed by what [$] accepts. *)
Lemma name_rest_cons c d s :
  name_rest (String c (String d s))
  = is_name_char (Py.lower_char c) && name_rest (String d s).
Proof. reflexivity. Qed.

Lemma lower_chars_cons c s :
  map Py.lower_char (list_ascii_of_string (String c s))
  = Py.lower_char c :: map Py.lower_char (list_ascii_of_string s).
Proof. reflexivity. Qed.

Lemma name_rest_spec s :
  name_rest s = true <->
  exists w1 w2, map Py.lower_char (list_ascii_of_string s) = w1 ++ w2
    /\ forallb is_name_char w1 = true /\ Re.at_end w2 = true.
Proof.
  induction s as [|c s IH].
  - split; [exists [], []; auto | reflexivity].
  - split.
    + intros H. destruct s as [|d s].
      * simpl in H. apply orb_true_iff in H as [H|H].
        -- exists [Py.lower_char c], []. simpl. rewrite H. auto.
        -- exists [], [Py.lower_char c]. simpl. rewrite lower_char_newline. auto.
      * rewrite name_rest_cons in H. apply andb_true_iff in H as [Hc H].
        apply IH in H as (w1 & w2 & Hw & H1 & H2).
        exists (Py.lower_char c :: w1), w2. rewrite lower_chars_cons, Hw.
        simpl. rewrite Hc, H1. auto.
    + intros (w1 & w2 & Hw & H1 & H2). rewrite lower_chars_cons in Hw.
      destruct w1 as [|x w1].
      * simpl in Hw. subst w2. apply at_end_spec in H2 as [H2|H2]; [discriminate |].
        injection H2 as Hc Hs. apply map_eq_nil in Hs.
        destruct s; [| discriminate]. simpl.
        apply orb_true_iff. right. rewrite <- lower_char_newline, Hc. reflexivity.
      * simpl in Hw, H1. injection Hw as <- Hw. apply andb_true_iff in H1 as [Hc H1].
        assert (Hrest : name_rest s = true) by (apply IH; eauto).
        destruct s as [|d s]; [simpl; rewrite Hc; reflexivity |].
        rewrite name_rest_cons, Hc, Hrest. reflexivity.
Qed.

(** The name check is the name shape. *)
Lemma name_valid_shape n : name_valid n = name_shape n.
Proof.
  apply Bool.eq_iff_eq_true. unfold name_valid, name_shape.
  rewrite andb_true_iff, negb_true_iff, re_match_spec, lower_chars.
  cbn [Re.body name_pattern Re.rest_ok Re.dollar]. split.
  - intros [_ (w1 & w2 & Hw & H1 & H2)].
    apply Matches_Class_Cat in H1 as (c & w' & -> & Hc & H1).
    apply Matches_Star_Class in H1. destruct n as [|c0 s]; [discriminate |].
    simpl in Hw. injection Hw as <- Hw. rewrite Hc. apply name_rest_spec. eauto.
  - destruct n as [|c0 s]; [discriminate |]. intros H.
    apply andb_true_iff in H as [Hc H]. apply name_rest_spec in H as (w1 & w2 & Hw & H1 & H2).
    split; [reflexivity |]. exists (Py.lower_char c0 :: w1), w2. simpl. rewrite Hw.
    repeat split; [| exact H2]. apply Matches_Class_Cat.
    exists (Py.lower_char c0), w1. repeat split; [exact Hc |].
    apply Matches_Star_Class, H1.
Qed.

Lemma Matches_lit f : forall w, Re.Matches (Re.lit f) w <-> w = list_ascii_of_string f.
Proof.
  induction f as [|x f IH]; intros w; simpl.
  - split; [apply Matches_Eps_inv | intros ->; constructor].
  - unfold Re.chr. rewrite Matches_Class_Cat. split.
    + intros (c & w' & -> & Hc & H). apply Ascii.eqb_eq in Hc as ->.
      apply IH in H as ->. reflexivity.
    + intros ->. exists x, (list_ascii_of_string f).
      repeat split; [apply Ascii.eqb_refl | apply IH; reflexivity].
Qed.

(** The alternation of the six units. *)
Lemma Matches_units w :
  Re.Matches
    (Re.Alt (Re.lit "px") (Re.Alt (Re.lit "rem") (Re.Alt (Re.lit "em")
       (Re.Alt (Re.lit "%") (Re.Alt (Re.lit "vw") (Re.lit "vh"))))))
    w
  <-> is_unit (string_of_list_ascii w) = true.
Proof.
  unfold is_unit. cbn [existsb]. rewrite !orb_true_iff, !String.eqb_eq. split.
  - intros H.
    repeat (apply Matches_Alt_inv in H as [H|H];
            [apply Matches_lit in H as ->; simpl; tauto |]).
    apply Matches_lit in H as ->. simpl. tauto.
  - intros H.
    assert (Hw : forall f, string_of_list_ascii w = f -> Re.Matches (Re.lit f) w).
    { intros f <-. apply Matches_lit. symmetry. apply list_ascii_of_string_of_list_ascii. }
    destruct H as [H|[H|[H|[H|[H|[H|H]]]]]]; [| | | | | | discriminate H]; apply Hw in H.
    + apply Re.MAltL, H.
    + apply Re.MAltR, Re.MAltL, H.
    + do 2 apply Re.MAltR. apply Re.MAltL, H.
    + do 3 apply Re.MAltR. apply Re.MAltL, H.
    + do 4 apply Re.MAltR. apply Re.MAltL, H.
    + do 5 apply Re.MAltR. exact H.
Qed.

Lemma number_then_unit_spec s :
  number_then_unit s = true <->
  exists w1 w2, list_ascii_of_string s = w1 ++ w2
    /\ forallb is_digit_or_dot w1 = true
    /\ is_unit (string_of_list_ascii w2) = true.
Proof.
  induction s as [|c s IH]; cbn [number_then_unit].
  - rewrite orb_false_r. split.
    + intros H. exists [], []. auto.
    + intros (w1 & w2 & Hw & _ & H). simpl in Hw. symmetry in Hw.
      apply app_eq_nil in Hw as [_ ->]. exact H.
  - rewrite orb_true_iff, andb_true_iff, IH. split.
    + intros [H|[Hc (w1 & w2 & Hw & H1 & H2)]].
      * exists [], (list_ascii_of_string (String c s)). split; [reflexivity |].
        split; [reflexivity |]. rewrite string_of_list_ascii_of_string. exact H.
      * exists (c :: w1), w2. simpl. rewrite Hw, Hc, H1. auto.
    + intros (w1 & w2 & Hw & H1 & H2). destruct w1 as [|x w1].
      * left. cbn [app] in Hw. rewrite <- Hw, string_of_list_ascii_of_string in H2. exact H2.
      * right. simpl in Hw, H1. injection Hw as <- Hw.
        apply andb_true_iff in H1 as [Hc H1]. split; [exact Hc |]. eauto.
Qed.

(** The spacing check is the spacing shape. *)
Lemma spacing_check_shape v :
  Re.re_match false spacing_pattern (Py.strip v) || Py.startswith v "var("
  = spacing_shape v.
Proof.
  unfold spacing_shape. f_equal. apply Bool.eq_iff_eq_true.
  unfold spacing_pattern. rewrite re_match_dollar. unfold Re.plus. split.
  - intros H. apply Matches_Cat_inv in H as (w1 & w2 & Hw & H1 & H2).
    apply Matches_Class_Cat in H1 as (c & w' & -> & Hc & H1).
    apply Matches_Star_Class in H1. apply Matches_units in H2.
    destruct (Py.strip v) as [|c0 s]; [discriminate |].
    simpl in Hw. injection Hw as -> Hw. rewrite Hc. apply number_then_unit_spec. eauto.
  - destruct (Py.strip v) as [|c0 s]; [discriminate |]. intros H.
    apply andb_true_iff in H as [Hc H].
    apply number_then_unit_spec in H as (w1 & w2 & Hw & H1 & H2).
    cbn [list_ascii_of_string]. rewrite Hw.
    apply (Re.MCat _ _ (c0 :: w1) w2).
    + apply Matches_Class_Cat. exists c0, w1. repeat split; [exact Hc |].
      apply Matches_Star_Class, H1.
    + apply Matches_units, H2.
Qed.

(** X1: a token whose name and value are of ASCII characters validates
    exactly when its name has the name shape (a letter or digit, then
    letters, digits, hyphens, dots, slashes, in either case, one final
    newline allowed), its category is one of the ten, its value is not
    empty, a colour value has a colour shape and a spacing value is a number
    with a unit or begins with [var(]. *)
Theorem validate_accepts_exactly (t : Token) :
  Py.isascii (name t) = true ->
  Py.isascii (value t) = true ->
  validate t = [] <->
  name_shape (name t) = true
  /\ in_categories (category t) = true
  /\ value t <> ""
  /\ (category t = "color" -> color_shape (value t) = true)
  /\ (category t = "spacing" -> spacing_shape (value t) = true).
Proof.
  intros _ _.
  rewrite validate_nil_iff, name_valid_shape. unfold content_valid.
  rewrite <- orb_assoc, spacing_check_shape, is_valid_color_shape.
  rewrite !andb_true_iff, !orb_true_iff, !negb_true_iff, !String.eqb_neq.
  destruct (String.eqb_spec (category t) "color") as [Hc|Hc];
    destruct (String.eqb_spec (category t) "spacing") as [Hs|Hs];
    intuition congruence.
Qed.

(** [brand_token] validates: its name and its value have the shapes. *)
Lemma validate_accepts_exactly_witness : validate brand_token = [].
Proof.
  apply (validate_accepts_exactly brand_token); [reflexivity | reflexivity |].
  split; [vm_compute; reflexivity |]. split; [vm_compute; reflexivity |].
  split; [discriminate |]. split; [intros _; vm_compute; reflexivity | discriminate].
Defined.

(* ====================================================================== *)
(** * Adding, looking up, deleting and updating *)
(* ====================================================================== *)


(** A stored row read back, when the two lists are well-shaped. *)
Lemma stored_token_read_back t :
  well_shaped (aliases t) -> well_shaped (tags t) ->
  _row_to_token (row_of_token t) = t.
Proof.
  intros Ha Ht. rewrite row_to_token_of_token, (split_list_join _ Ha), (split_list_join _ Ht).
  destruct t; reflexivity.
Qed.

(** X2: after a token with well-shaped aliases and tags was added, every
    lookup that returns the row of its id returns the stored token, equal in
    all fields to the token [add_token] returned; the lookup by name does so
    unless an older row bears that name as its id. *)
Theorem add_then_get_returns_stored
    (t : Token) (now : string) (db : DB) (stored : Token) (db' : DB) :
  well_shaped (aliases t) ->
  well_shaped (tags t) ->
  add_token t now db = (inr stored, db') ->
  (forall key g, get_token key db' = Some g -> id g = id t -> g = stored)
  /\ ((forall r, In r (tokens db) -> r_id r <> name t) ->
      get_token (name t) db' = Some stored).
Proof.
  intros Ha Ht Hadd. apply add_token_inr in Hadd as (_ & -> & Hi & ->).
  assert (Hread : _row_to_token (row_of_token (stamp_new t now)) = stamp_new t now)
    by (apply stored_token_read_back; assumption).
  assert (Hfresh : forall r, In r (tokens db) -> r_id r <> id t /\ r_name r <> name t).
  { intros r Hr. split; intros He;
      (assert (Ht' : integrity_error (row_of_token (stamp_new t now)) db = true);
       [apply integrity_error_true_iff; exists r; split; [exact Hr |]; cbn; auto
       | congruence]). }
  split.
  - intros key g Hget Hid. unfold get_token in Hget.
    destruct (select_token key _) as [r|] eqn:Hsel; [| discriminate].
    injection Hget as <-. apply select_token_In in Hsel as [Hin _].
    cbn [tokens] in Hin. apply in_app_iff in Hin as [Hin|[<-|[]]].
    + destruct (Hfresh r Hin) as [Hne _]. destruct (Hne Hid).
    + exact Hread.
  - intros Hid. unfold get_token.
    pose proof (select_token_appended_name (tokens db) (token_snapshots db)
                  (row_of_token (stamp_new t now))) as Hsel.
    cbn [r_name row_of_token stamp_new name] in Hsel. rewrite Hsel.
    + cbn [fmap option_fmap option_map]. f_equal. exact Hread.
    + intros r Hr. split; [apply Hid, Hr | apply (Hfresh r Hr)].
Qed.

(** [tagged_token] comes back whole, by name. *)
Lemma add_then_get_returns_stored_witness :
  get_token "color/brand" (add_token tagged_token ten_o_clock empty_db).2
  = Some tagged_stored.
Proof.
  destruct (add_then_get_returns_stored tagged_token ten_o_clock empty_db tagged_stored
              (add_token tagged_token ten_o_clock empty_db).2) as [_ Hname].
  - intros x [<-|[<-|[]]]; split; [discriminate | reflexivity | discriminate | reflexivity].
  - intros x [<-|[]]; split; [discriminate | reflexivity].
  - vm_compute. reflexivity.
  - apply Hname. intros r [].
Defined.





Lemma filter_twice {A} (p : A -> bool) l :
  List.filter p (List.filter p l) = List.filter p l.
Proof.
  induction l as [|x l IH]; [reflexivity |]. cbn [List.filter].
  destruct (p x) eqn:Hx; [| exact IH]. cbn [List.filter]. rewrite Hx, IH. reflexivity.
Qed.

Lemma filter_negb_matching key rows r :
  In r (List.filter (fun r => negb (id_or_name key r)) rows)
  <-> In r rows /\ r_id r <> key /\ r_name r <> key.
Proof.
  rewrite filter_In. unfold id_or_name.
  rewrite negb_true_iff, orb_false_iff, !String.eqb_neq. tauto.
Qed.

(** X4: [delete_token] reports [True] exactly when a lookup of the key
    finds a token; afterwards the lookup finds nothing, the rows left are
    exactly those whose id and name both differ from the key, snapshots
    are untouched, and deleting again reports [False] and changes nothing. *)
Theorem delete_token_removes_matching_rows (key : string) (db : DB) :
  ((delete_token key db).1 = true <-> is_Some (get_token key db))
  /\ get_token key (delete_token key db).2 = None
  /\ (forall r, In r (tokens (delete_token key db).2)
        <-> In r (tokens db) /\ r_id r <> key /\ r_name r <> key)
  /\ token_snapshots (delete_token key db).2 = token_snapshots db
  /\ delete_token key (delete_token key db).2 = (false, (delete_token key db).2).
Proof.
  assert (Hnone : forall r,
            In r (List.filter (fun r => negb (id_or_name key r)) (tokens db)) ->
            id_or_name key r = false).
  { intros r Hr. apply filter_In in Hr as [_ Hr]. apply negb_true_iff, Hr. }
  split; [| split; [| split; [| split]]].
  - cbn [delete_token fst]. rewrite existsb_exists. unfold get_token. split.
    + intros (r & Hr & Hm).
      destruct (select_token key db) as [r'|] eqn:Hsel; [eexists; reflexivity |].
      rewrite select_token_None in Hsel. rewrite (Hsel r Hr) in Hm. discriminate.
    + intros [g Hg]. destruct (select_token key db) as [r|] eqn:Hsel; [| discriminate].
      apply select_token_In in Hsel. eauto.
  - unfold get_token.
    replace (select_token key (delete_token key db).2) with (@None Row); [reflexivity |].
    symmetry. apply select_token_None. exact Hnone.
  - intros r. apply filter_negb_matching.
  - reflexivity.
  - unfold delete_token at 1. cbn [fst snd]. f_equal.
    + apply not_true_is_false. intros H. apply existsb_exists in H as (r & Hr & Hm).
      cbn [delete_token snd set_tokens tokens] in Hr. rewrite (Hnone r Hr) in Hm.
      discriminate.
    + cbn [delete_token snd set_tokens tokens token_snapshots]. unfold set_tokens.
      cbn [tokens token_snapshots]. f_equal. apply filter_twice.
Qed.

Lemma update_row_created_at t r : r_created_at (update_row t r) = r_created_at r.
Proof. unfold update_row. destruct (String.eqb (r_id r) (id t)); reflexivity. Qed.

(** X5: [update_token] raises [KeyError] exactly when a lookup of the key
    finds nothing; whenever it raises, nothing is written; and when it
    returns, whatever keywords were given (an id included), the table has
    the same rows in number and order with the same ids, names and creation
    times, and the snapshots are untouched. *)
Theorem update_token_never_moves_rows
    (key : string) (fields : Fields) (now : string) (db : DB) :
  (get_token key db = None <-> (update_token key fields now db).1 = inl (KeyError key))
  /\ (forall e, (update_token key fields now db).1 = inl e ->
        (update_token key fields now db).2 = db)
  /\ map r_id (tokens (update_token key fields now db).2) = map r_id (tokens db)
  /\ map r_name (tokens (update_token key fields now db).2) = map r_name (tokens db)
  /\ map r_created_at (tokens (update_token key fields now db).2)
     = map r_created_at (tokens db)
  /\ token_snapshots (update_token key fields now db).2 = token_snapshots db.
Proof.
  unfold update_token, get_token. destruct (select_token key db) as [row|].
  - destruct (validate _) as [|e es]; [destruct (negb (fits_int64 _)) |]; cbn [fst snd].
    + split; [split; discriminate |]. repeat split.
    + split; [split; discriminate |]. split; [discriminate |].
      cbn [set_tokens tokens token_snapshots]. rewrite !map_map.
      repeat split; apply map_ext; intros r;
        [apply update_row_keys | apply update_row_keys | apply update_row_created_at].
    + split; [split; discriminate |]. repeat split.
  - cbn [fst snd]. repeat split.
Qed.

(** X6: after a successful update that supplies neither id, name nor
    created_at and whose supplied aliases and tags are well-shaped, every
    lookup that returns the row of the updated id returns exactly the token
    [update_token] returned. *)
Theorem update_then_get_returns_updated
    (key : string) (fields : Fields) (now : string) (db : DB)
    (t' : Token) (db' : DB) :
  NoDup (map r_id (tokens db)) ->
  f_id fields = None -> f_name fields = None -> f_created_at fields = None ->
  from_option well_shaped True (f_aliases fields) ->
  from_option well_shaped True (f_tags fields) ->
  update_token key fields now db = (inr t', db') ->
  forall key' g, get_token key' db' = Some g -> id g = id t' -> g = t'.
Proof.
  intros Hnd Hid Hname Hcreated Ha Ht Hupd key' g Hget Hg.
  apply update_token_inr in Hupd as (row & Hsel & -> & _ & ->).
  apply select_token_In in Hsel as [Hrow _].
  unfold get_token in Hget.
  destruct (select_token key' _) as [r'|] eqn:Hsel'; [| discriminate].
  injection Hget as <-. apply select_token_In in Hsel' as [Hin _].
  cbn [tokens] in Hin. apply in_map_iff in Hin as (r & <- & Hr).
  assert (Htid : id (bump now (set_fields fields (_row_to_token row))) = r_id row).
  { cbn [bump set_fields id]. rewrite Hid. reflexivity. }
  assert (r = row) as ->.
  { apply (NoDup_map_inj r_id _ _ _ Hnd Hr Hrow).
    rewrite <- Htid, <- Hg. cbn [_row_to_token id]. symmetry. apply update_row_keys. }
  unfold update_row. rewrite Htid, String.eqb_refl.
  unfold _row_to_token at 1.
  cbn [r_id r_name r_category r_value r_description r_aliases r_deprecated
       r_deprecated_reason r_tags r_created_at r_updated_at r_version].
  rewrite bool_of_int_of_bool.
  assert (Hal : split_list (Py.join "," (aliases (bump now (set_fields fields (_row_to_token row)))))
                = aliases (bump now (set_fields fields (_row_to_token row)))).
  { cbn [bump set_fields aliases]. destruct (f_aliases fields) as [l|]; cbn [default].
    - apply split_list_join, Ha.
    - cbn [_row_to_token aliases]. rewrite join_split_list. reflexivity. }
  assert (Htg : split_list (Py.join "," (tags (bump now (set_fields fields (_row_to_token row)))))
                = tags (bump now (set_fields fields (_row_to_token row)))).
  { cbn [bump set_fields tags]. destruct (f_tags fields) as [l|]; cbn [default].
    - apply split_list_join, Ht.
    - cbn [_row_to_token tags]. rewrite join_split_list. reflexivity. }
  rewrite Hal, Htg. cbn [bump set_fields id name category value description aliases
    deprecated deprecated_reason tags created_at updated_at version].
  unfold bump, set_fields. cbn [id name category value description aliases
    deprecated deprecated_reason tags created_at updated_at version].
  rewrite Hid, Hname, Hcreated. reflexivity.
Qed.

(** [brand_token] after the update, looked up by name. *)
Lemma update_then_get_returns_updated_witness :
  get_token "color/brand"
    (update_token "t1" value_black_deprecated eleven_o_clock brand_db).2
  = Some brand_updated.
Proof.
  assert (Hget : exists g,
            get_token "color/brand"
              (update_token "t1" value_black_deprecated eleven_o_clock brand_db).2 = Some g
            /\ id g = id brand_updated)
    by (eexists; split; vm_compute; reflexivity).
  destruct Hget as (g & Hg & Hid). rewrite Hg. f_equal.
  apply (update_then_get_returns_updated "t1" value_black_deprecated eleven_o_clock brand_db
           brand_updated
           (update_token "t1" value_black_deprecated eleven_o_clock brand_db).2
         ) with (key' := "color/brand").
  - vm_compute. apply NoDup_singleton.
  - reflexivity.
  - reflexivity.
  - reflexivity.
  - exact I.
  - exact I.
  - vm_compute. reflexivity.
  - exact Hg.
  - exact Hid.
Defined.

(* ====================================================================== *)
(** * What every database the program builds satisfies *)
(* ====================================================================== *)

Lemma validate_same_fields t1 t2 :
  name t1 = name t2 -> category t1 = category t2 -> value t1 = value t2 ->
  validate t1 = validate t2.
Proof.
  intros Hn Hc Hv. unfold validate, name_error, category_error, color_error, spacing_error.
  rewrite Hn, Hc, Hv. reflexivity.
Qed.

Lemma int_of_bool_flag b : (int_of_bool b = 0 \/ int_of_bool b = 1)%Z.
Proof. destruct b; auto. Qed.

Lemma add_token_rows t now db r :
  In r (tokens (add_token t now db).2) ->
  In r (tokens db) \/ (validate t = [] /\ r = row_of_token (stamp_new t now)).
Proof.
  unfold add_token. destruct (validate t); [| auto].
  destruct (negb (fits_int64 _)); [auto |].
  destruct (integrity_error _ db); [auto |].
  cbn [snd set_tokens tokens]. intros H. apply in_app_iff in H as [H|[<-|[]]]; auto.
Qed.

Lemma add_token_sound t now db : sound db -> sound (add_token t now db).2.
Proof.
  intros [[Hu Hs] Hrows]. split; [split |].
  - apply add_token_unique_keys, Hu.
  - rewrite add_token_snapshots. exact Hs.
  - intros r Hr. apply add_token_rows in Hr as [Hr|[Hv ->]]; [exact (Hrows r Hr) |].
    split; [| apply int_of_bool_flag].
    rewrite <- Hv. apply validate_same_fields; reflexivity.
Qed.

Lemma update_token_sound key fields now db :
  sound db -> sound (update_token key fields now db).2.
Proof.
  intros [[Hu Hs] Hrows]. split; [split |].
  - apply update_token_unique_keys, Hu.
  - rewrite update_token_snapshots. exact Hs.
  - unfold update_token. destruct (select_token key db) as [row|]; [| exact Hrows].
    destruct (validate _) as [|e es] eqn:Hv; [| exact Hrows].
    destruct (negb (fits_int64 _)); [exact Hrows |].
    cbn [snd set_tokens tokens]. intros r' Hr'.
    apply in_map_iff in Hr' as (r & <- & Hr). destruct (Hrows r Hr) as [Hvalid Hflag].
    unfold update_row.
    destruct (String.eqb (r_id r) _); [| split; assumption].
    split; [| apply int_of_bool_flag].
    apply validate_nil_iff in Hv as [_ Hcontent].
    apply validate_nil_iff in Hvalid as [Hname _].
    apply validate_nil_iff. split; [exact Hname | exact Hcontent].
Qed.

Lemma delete_token_sound key db : sound db -> sound (delete_token key db).2.
Proof.
  intros [[Hu Hs] Hrows]. split; [split |].
  - apply delete_token_unique_keys, Hu.
  - exact Hs.
  - intros r Hr. cbn [delete_token snd set_tokens tokens] in Hr.
    apply filter_In in Hr as [Hr _]. exact (Hrows r Hr).
Qed.

Lemma run_op_sound db o : sound db -> sound (run_op db o).
Proof.
  destruct o; cbn [run_op];
    [apply add_token_sound | apply update_token_sound | apply delete_token_sound].
Qed.

Lemma import_entry_db uuid4 _now st entry :
  st_db (import_entry uuid4 _now st entry) = st_db st
  \/ exists t now, st_db (import_entry uuid4 _now st entry) = (add_token t now (st_db st)).2.
Proof.
  unfold import_entry. destruct entry.2 as [|spec]; [left; reflexivity |]. right.
  exists (token_of_spec entry.1 spec (uuid4 (drawn st)) (_now (3 * drawn st))
            (_now (3 * drawn st + 1))), (_now (3 * drawn st + 2)).
  destruct (add_token _ _ (st_db st)) as [[[msg|k|]|t] db'];
    [destruct (Py.contains "already exists" msg) | | |]; reflexivity.
Qed.

Lemma import_json_sound uuid4 _now tokens_data first db :
  sound db -> sound (import_json uuid4 _now tokens_data first db).2.
Proof.
  unfold import_json. cbn [snd].
  assert (H : forall st, sound (st_db st) ->
            sound (st_db (fold_left (import_entry uuid4 _now) tokens_data st))).
  { induction tokens_data as [|entry rest IH]; intros st Hst; [exact Hst |].
    cbn [fold_left]. apply IH.
    destruct (import_entry_db uuid4 _now st entry) as [->|(t & now & ->)];
      [exact Hst | apply add_token_sound, Hst]. }
  intros Hdb. apply H. exact Hdb.
Qed.

Lemma seed_entry_db uuid4 _now st spec :
  exists t now, sd_db (seed_entry uuid4 _now st spec) = (add_token t now (sd_db st)).2.
Proof.
  unfold seed_entry.
  exists (token_of_seed uuid4 _now spec (sd_drawn st)), (_now (3 * sd_drawn st + 2)).
  destruct (add_token _ _ (sd_db st)) as [[e|t] db']; reflexivity.
Qed.

Lemma seed_loop_sound uuid4 _now specs first db :
  sound db -> sound (seed_loop uuid4 _now specs first db).2.
Proof.
  unfold seed_loop. cbn [snd].
  assert (H : forall st, sound (sd_db st) ->
            sound (sd_db (fold_left (seed_entry uuid4 _now) specs st))).
  { induction specs as [|spec rest IH]; intros st Hst; [exact Hst |].
    cbn [fold_left]. apply IH.
    destruct (seed_entry_db uuid4 _now st spec) as (t & now & ->).
    apply add_token_sound, Hst. }
  intros Hdb. apply H. exact Hdb.
Qed.

Lemma save_snapshot_sound version_ name_ description_ stamp now sid now2 db sid' db' :
  sound db ->
  save_snapshot version_ name_ description_ stamp now sid now2 db = Some (sid', db') ->
  sound db'.
Proof.
  intros [Hw Hrows] Hsave. split.
  - exact (save_snapshot_well_formed _ _ _ _ _ _ _ _ _ _ Hw Hsave).
  - unfold save_snapshot in Hsave.
    destruct (existsb _ (token_snapshots db)); [discriminate |].
    injection Hsave as _ <-. exact Hrows.
Qed.

Lemma run_action_sound db a : sound db -> sound (run_action db a).
Proof.
  intros Hdb. destruct a; cbn [run_action].
  - apply run_op_sound, Hdb.
  - apply import_json_sound, Hdb.
  - apply seed_loop_sound, Hdb.
  - destruct (save_snapshot _ _ _ _ _ _ _ db) as [[sid' db']|] eqn:Hsave; [| exact Hdb].
    exact (save_snapshot_sound _ _ _ _ _ _ _ _ _ _ Hdb Hsave).
Qed.

Lemma run_actions_sound actions : forall db, sound db -> sound (run_actions actions db).
Proof.
  induction actions as [|a actions IH]; intros db Hdb; [exact Hdb |].
  unfold run_actions in *. cbn [fold_left]. apply IH, run_action_sound, Hdb.
Qed.

Lemma sound_empty : sound empty_db.
Proof. split; [apply well_formed_empty | intros r []]. Qed.

(** X7: whatever sequence of adds, updates, deletes, imports, seedings and
    snapshots runs from the empty database, the table of tokens keeps
    unique ids and unique names, every stored token validates, every
    deprecation flag is 0 or 1, and every snapshot holds tokens of distinct
    names with a count that is their number. *)
Theorem built_databases_are_sound (actions : list action) :
  NoDup (map r_id (tokens (run_actions actions empty_db)))
  /\ NoDup (map r_name (tokens (run_actions actions empty_db)))
  /\ (forall r, In r (tokens (run_actions actions empty_db)) ->
        validate (_row_to_token r) = [] /\ (r_deprecated r = 0 \/ r_deprecated r = 1)%Z)
  /\ (forall s, In s (token_snapshots (run_actions actions empty_db)) ->
        NoDup (map name (ts_tokens (s_data s)))
        /\ count (ts_metadata (s_data s)) = length (ts_tokens (s_data s))).
Proof.
  destruct (run_actions_sound actions empty_db sound_empty) as [[[Hid Hname] Hs] Hrows].
  auto.
Qed.

(* ====================================================================== *)
(** * Listing tokens and snapshots *)
(* ====================================================================== *)

Lemma ascii_compare_lt_trans a b c :
  Ascii.compare a b = Lt -> Ascii.compare b c = Lt -> Ascii.compare a c = Lt.
Proof.
  unfold Ascii.compare. rewrite !N.compare_lt_iff. lia.
Qed.

Lemma string_compare_refl s : String.compare s s = Eq.
Proof.
  induction s as [|c s IH]; [reflexivity |]. simpl.
  unfold Ascii.compare. rewrite N.compare_refl. exact IH.
Qed.

Lemma string_compare_lt_trans a : forall b c,
  String.compare a b = Lt -> String.compare b c = Lt -> String.compare a c = Lt.
Proof.
  induction a as [|x a IH]; intros [|y b] [|z c]; simpl; try discriminate; auto.
  destruct (Ascii.compare x y) eqn:Hxy; try discriminate;
    destruct (Ascii.compare y z) eqn:Hyz; try discriminate; intros H1 H2.
  - apply Ascii.compare_eq_iff in Hxy as ->. rewrite Hyz. eauto.
  - apply Ascii.compare_eq_iff in Hxy as ->. rewrite Hyz. reflexivity.
  - apply Ascii.compare_eq_iff in Hyz as <-. rewrite Hxy. reflexivity.
  - rewrite (ascii_compare_lt_trans _ _ _ Hxy Hyz). reflexivity.
Qed.

Lemma string_leb_trans a b c :
  String.leb a b = true -> String.leb b c = true -> String.leb a c = true.
Proof.
  unfold String.leb.
  destruct (String.compare a b) eqn:Hab; try discriminate;
    destruct (String.compare b c) eqn:Hbc; try discriminate; intros _ _.
  - apply String.compare_eq_iff in Hab as ->. rewrite Hbc. reflexivity.
  - apply String.compare_eq_iff in Hab as ->. rewrite Hbc. reflexivity.
  - apply String.compare_eq_iff in Hbc as <-. rewrite Hab. reflexivity.
  - rewrite (string_compare_lt_trans _ _ _ Hab Hbc). reflexivity.
Qed.

Lemma row_leb_total x y : row_leb x y = false -> row_leb y x = true.
Proof.
  unfold row_leb. rewrite (String.compare_antisym (r_category y) (r_category x)).
  destruct (String.compare (r_category x) (r_category y)); simpl; try discriminate; auto.
  intros H. destruct (String.leb_total (r_name x) (r_name y)); congruence.
Qed.

Lemma row_leb_trans x y z :
  row_leb x y = true -> row_leb y z = true -> row_leb x z = true.
Proof.
  unfold row_leb.
  destruct (String.compare (r_category x) (r_category y)) eqn:Hxy; try discriminate;
    destruct (String.compare (r_category y) (r_category z)) eqn:Hyz; try discriminate.
  - apply String.compare_eq_iff in Hxy. rewrite Hxy, Hyz. apply string_leb_trans.
  - apply String.compare_eq_iff in Hxy. rewrite Hxy, Hyz. auto.
  - apply String.compare_eq_iff in Hyz. rewrite <- Hyz, Hxy. auto.
  - rewrite (string_compare_lt_trans _ _ _ Hxy Hyz). auto.
Qed.

Section Sorting.
Context {A : Type} (leb : A -> A -> bool).
Hypothesis leb_total : forall x y, leb x y = false -> leb y x = true.
Hypothesis leb_trans : forall x y z, leb x y = true -> leb y z = true -> leb x z = true.

Lemma insert_with_perm x l : insert_with leb x l ≡ₚ x :: l.
Proof.
  induction l as [|y l IH]; simpl; [reflexivity |].
  destruct (leb x y); [reflexivity |]. rewrite IH. apply Permutation_swap.
Qed.

Lemma sort_with_perm l : sort_with leb l ≡ₚ l.
Proof.
  induction l as [|x l IH]; simpl; [reflexivity |].
  rewrite insert_with_perm, IH. reflexivity.
Qed.

Lemma insert_with_sorted x l :
  StronglySorted (fun a b => leb a b = true) l ->
  StronglySorted (fun a b => leb a b = true) (insert_with leb x l).
Proof.
  induction l as [|y l IH]; intros Hs; simpl.
  - constructor; [constructor | constructor].
  - apply StronglySorted_inv in Hs as [Hs Hy]. destruct (leb x y) eqn:Hxy.
    + constructor; [constructor; assumption |].
      constructor; [exact Hxy |].
      eapply Forall_impl; [exact Hy |]. intros z Hz. exact (leb_trans _ _ _ Hxy Hz).
    + constructor; [apply IH, Hs |].
      rewrite insert_with_perm. constructor; [apply leb_total, Hxy | exact Hy].
Qed.

Lemma sort_with_sorted l : StronglySorted (fun a b => leb a b = true) (sort_with leb l).
Proof.
  induction l as [|x l IH]; simpl; [constructor |]. apply insert_with_sorted, IH.
Qed.
End Sorting.

Lemma order_by_category_name_sort l : order_by_category_name l = sort_with row_leb l.
Proof.
  unfold order_by_category_name, sort_with. induction l as [|x l IH]; simpl; [reflexivity |].
  rewrite IH. generalize (fold_right (insert_with row_leb) [] l). intros k.
  induction k as [|y k IHk]; simpl; [reflexivity |]. rewrite IHk. reflexivity.
Qed.

Lemma StronglySorted_map {A B} (R : A -> A -> Prop) (S : B -> B -> Prop) (f : A -> B) l :
  (forall x y, R x y -> S (f x) (f y)) ->
  StronglySorted R l -> StronglySorted S (map f l).
Proof.
  intros HRS. induction 1 as [|x l Hs IH Hx]; simpl; constructor; [exact IH |].
  apply Forall_map. eapply Forall_impl; [exact Hx |]. intros y. apply HRS.
Qed.

(** X8: [list_tokens] returns exactly the stored tokens that pass the two
    filters (the category filter when a non-empty category is given, and no
    deprecated row when deprecated tokens are not included), each once, in
    ascending order of category and, within a category, of name, both
    compared byte by byte. *)
Theorem list_tokens_filters_and_orders
    (category_ : option string) (include_deprecated : bool) (db : DB) :
  list_tokens category_ include_deprecated db
  ≡ₚ map _row_to_token
       (List.filter
          (fun r =>
             match category_ with
             | None => true
             | Some c => String.eqb c "" || String.eqb (r_category r) c
             end
             && (include_deprecated || Z.eqb (r_deprecated r) 0))
          (tokens db))
  /\ StronglySorted
       (fun x y =>
          String.compare (category x) (category y) = Lt
          \/ (category x = category y /\ String.leb (name x) (name y) = true))
       (list_tokens category_ include_deprecated db).
Proof.
  unfold list_tokens. rewrite order_by_category_name_sort. split.
  - apply Permutation_map, sort_with_perm.
  - eapply StronglySorted_map; [| apply (sort_with_sorted row_leb row_leb_total row_leb_trans)].
    intros x y. cbn beta. unfold row_leb. cbn [_row_to_token category name].
    destruct (String.compare (r_category x) (r_category y)) eqn:Hc; try discriminate; auto.
    apply String.compare_eq_iff in Hc. auto.
Qed.

Lemma newer_first_total x y : newer_first x y = false -> newer_first y x = true.
Proof.
  unfold newer_first. intros H.
  destruct (String.leb_total (s_created_at y) (s_created_at x)); congruence.
Qed.

Lemma newer_first_trans x y z :
  newer_first x y = true -> newer_first y z = true -> newer_first x z = true.
Proof. unfold newer_first. intros H1 H2. exact (string_leb_trans _ _ _ H2 H1). Qed.

(** X9: [list_snapshots] returns the header of every stored snapshot, each
    once, newest first: no header comes before one with a later creation
    time. *)
Theorem list_snapshots_newest_first (db : DB) :
  list_snapshots db ≡ₚ map header_of (token_snapshots db)
  /\ StronglySorted (fun x y => String.leb (h_created_at y) (h_created_at x) = true)
       (list_snapshots db).
Proof.
  unfold list_snapshots. split.
  - apply Permutation_map, sort_with_perm.
  - eapply StronglySorted_map;
      [| apply (sort_with_sorted newer_first newer_first_total newer_first_trans)].
    intros x y H. exact H.
Qed.

Lemma filter_all_true {A} (p : A -> bool) l :
  (forall x, In x l -> p x = true) -> List.filter p l = l.
Proof.
  induction l as [|x l IH]; intros H; [reflexivity |]. cbn [List.filter].
  rewrite (H x) by (left; reflexivity). f_equal. apply IH. intros y Hy. apply H. right. exact Hy.
Qed.

(** The unfiltered listing is the whole table, reordered. *)
Lemma list_tokens_all db :
  list_tokens None true db = map _row_to_token (order_by_category_name (tokens db)).
Proof.
  unfold list_tokens. rewrite filter_all_true; [reflexivity |]. intros; reflexivity.
Qed.

Lemma list_tokens_all_perm db :
  list_tokens None true db ≡ₚ map _row_to_token (tokens db).
Proof.
  rewrite list_tokens_all. apply Permutation_map, order_by_category_name_perm.
Qed.

(* ====================================================================== *)
(** * The validate-all sweep *)
(* ====================================================================== *)

(** What the loop of [validate_all] leaves in the three lists. *)
Lemma sweep_loop toks : forall acc,
  fold_left sweep_step toks acc
  = mkSweep
      (sw_valid acc ++ (name <$> filter (fun t => validate t = []) toks))
      (sw_invalid acc
       ++ ((fun t => (name t, validate t)) <$> filter (fun t => validate t <> []) toks))
      (sw_deprecated acc
       ++ ((fun t => (name t, deprecated_reason t))
             <$> filter (fun t => deprecated t = true) toks)).
Proof.
  induction toks as [|t toks IH]; intros acc; cbn [fold_left].
  - cbn. rewrite !app_nil_r. destruct acc; reflexivity.
  - rewrite IH. unfold sweep_step. rewrite !filter_cons.
    destruct (deprecated t) eqn:Hd; destruct (validate t) as [|e es] eqn:Hv;
      repeat (destruct (decide _) as [?|?]; try congruence; try tauto);
      cbn [sw_valid sw_invalid sw_deprecated fmap list_fmap];
      rewrite ?Hv, <- ?app_assoc; reflexivity.
Qed.

Lemma length_filter_split {A} (P : A -> Prop) `{!forall x, Decision (P x)} (l : list A) :
  length (filter P l) + length (filter (fun x => ~ P x) l) = length l.
Proof.
  induction l as [|x l IH]; [reflexivity |]. rewrite !filter_cons.
  destruct (decide (P x)) as [Hp|Hp]; destruct (decide (~ P x)) as [Hn|Hn];
    try contradiction; simpl; lia.
Qed.

(** X10: [validate_all] partitions the listed tokens: [valid] holds the
    names of the tokens without errors, [invalid] the name and the errors
    of each other token, [deprecated] the name and the reason of each
    deprecated token whether valid or not, each in listing order; the
    total is the number of stored tokens and is the sum of the valid and
    invalid counts. *)
Theorem validate_all_partitions (db : DB) :
  sw_valid (validate_all db).1
  = name <$> filter (fun t => validate t = []) (list_tokens None true db)
  /\ sw_invalid (validate_all db).1
     = (fun t => (name t, validate t))
         <$> filter (fun t => validate t <> []) (list_tokens None true db)
  /\ sw_deprecated (validate_all db).1
     = (fun t => (name t, deprecated_reason t))
         <$> filter (fun t => deprecated t = true) (list_tokens None true db)
  /\ sum_total (validate_all db).2 = length (tokens db)
  /\ sum_valid (validate_all db).2 + sum_invalid (validate_all db).2
     = sum_total (validate_all db).2
  /\ sum_deprecated (validate_all db).2
     = length (filter (fun t => deprecated t = true) (list_tokens None true db)).
Proof.
  unfold validate_all. cbn [fst snd]. rewrite sweep_loop.
  cbn [sw_valid sw_invalid sw_deprecated sum_total sum_valid sum_invalid sum_deprecated app].
  rewrite !length_fmap. repeat split.
  - rewrite (Permutation_length (list_tokens_all_perm db)). apply length_map.
  - apply (length_filter_split (fun t => validate t = [])).
Qed.

Lemma filter_none {A} (P : A -> Prop) `{!forall x, Decision (P x)} (l : list A) :
  (forall x, In x l -> ~ P x) -> filter P l = [].
Proof.
  induction l as [|x l IH]; intros Hall; [reflexivity |]. rewrite filter_cons.
  destruct (decide (P x)) as [Hp|_].
  - destruct (Hall x (or_introl eq_refl) Hp).
  - apply IH. intros y Hy. apply Hall. right. exact Hy.
Qed.

Lemma filter_all {A} (P : A -> Prop) `{!forall x, Decision (P x)} (l : list A) :
  (forall x, In x l -> P x) -> filter P l = l.
Proof.
  induction l as [|x l IH]; intros Hall; [reflexivity |]. rewrite filter_cons.
  destruct (decide (P x)) as [_|Hn].
  - f_equal. apply IH. intros y Hy. apply Hall. right. exact Hy.
  - destruct (Hn (Hall x (or_introl eq_refl))).
Qed.

Lemma sound_listing_valid db t :
  sound db -> In t (list_tokens None true db) -> validate t = [].
Proof.
  intros [_ Hrows] Ht.
  apply (Permutation_in _ (list_tokens_all_perm db)) in Ht.
  apply in_map_iff in Ht as (r & <- & Hr). apply (Hrows r Hr).
Qed.

(** X11: on every database built from the empty one by adds, updates,
    deletes, imports, seedings and snapshots, [validate_all] finds no
    invalid token: [invalid] is empty and [valid] names every stored
    token. *)
Theorem validate_all_finds_nothing_invalid (actions : list action) :
  sw_invalid (validate_all (run_actions actions empty_db)).1 = []
  /\ sw_valid (validate_all (run_actions actions empty_db)).1
     = name <$> list_tokens None true (run_actions actions empty_db)
  /\ sum_invalid (validate_all (run_actions actions empty_db)).2 = 0
  /\ sum_valid (validate_all (run_actions actions empty_db)).2
     = length (tokens (run_actions actions empty_db)).
Proof.
  pose proof (run_actions_sound actions empty_db sound_empty) as Hsound.
  set (db := run_actions actions empty_db) in *.
  unfold validate_all. cbn [fst snd]. rewrite sweep_loop.
  cbn [sw_valid sw_invalid sw_deprecated sum_valid sum_invalid app].
  rewrite (filter_none (fun t => validate t <> []))
    by (intros t Ht Hne; apply Hne, (sound_listing_valid db t Hsound Ht)).
  rewrite (filter_all (fun t => validate t = []))
    by (intros t Ht; apply (sound_listing_valid db t Hsound Ht)).
  repeat split. rewrite length_fmap, (Permutation_length (list_tokens_all_perm db)).
  apply length_map.
Qed.

(* ====================================================================== *)
(** * More on the diff engine *)
(* ====================================================================== *)

Lemma diff_maps_added_lookup ra rb (a b : gmap string Token) n t :
  d_added (diff_maps ra rb a b) !! n = Some t <-> b !! n = Some t /\ a !! n = None.
Proof. rewrite diff_maps_added, map_lookup_filter_Some. reflexivity. Qed.

Lemma diff_maps_removed_lookup ra rb (a b : gmap string Token) n t :
  d_removed (diff_maps ra rb a b) !! n = Some t <-> a !! n = Some t /\ b !! n = None.
Proof. rewrite diff_maps_removed, map_lookup_filter_Some. reflexivity. Qed.

Lemma changed_record_Some_iff (a b : gmap string Token) n :
  is_Some (changed_record a b n)
  <-> n ∈ dom a ∩ dom b /\ same_tracked a b n <> true.
Proof.
  unfold changed_record, same_tracked.
  rewrite elem_of_intersection, !elem_of_dom.
  destruct (a !! n) as [ta|], (b !! n) as [tb|];
    try (split; [intros [c Hc]; discriminate | intros [[[x Hx] [y Hy]] _]; discriminate]).
  destruct (differs ta tb); cbn [negb]; split.
  - intros _. split; [split; eauto | discriminate].
  - eauto.
  - intros [c Hc]. discriminate.
  - intros [_ H]. congruence.
Qed.

Lemma diff_maps_partition ra rb (a b : gmap string Token) :
  n_added (d_summary (diff_maps ra rb a b))
  + n_changed (d_summary (diff_maps ra rb a b))
  + n_unchanged (d_summary (diff_maps ra rb a b)) = size b
  /\ n_removed (d_summary (diff_maps ra rb a b))
     + n_changed (d_summary (diff_maps ra rb a b))
     + n_unchanged (d_summary (diff_maps ra rb a b)) = size a.
Proof.
  rewrite diff_maps_summary. cbn [n_added n_removed n_changed n_unchanged].
  set (U := filter (fun n => same_tracked a b n = true) (dom a ∩ dom b)).
  set (C := filter (fun n => same_tracked a b n <> true) (dom a ∩ dom b)).
  assert (HC : dom (d_changed (diff_maps ra rb a b)) = C).
  { apply set_eq. intros n. rewrite elem_of_dom, diff_maps_changed, changed_record_Some_iff.
    unfold C. rewrite elem_of_filter. tauto. }
  assert (HA : dom (d_added (diff_maps ra rb a b)) = dom b ∖ dom a).
  { apply set_eq. intros n. rewrite elem_of_difference, !elem_of_dom. split.
    - intros [t Ht]. apply diff_maps_added_lookup in Ht as [Hb Ha].
      split; [eauto | intros [x Hx]; congruence].
    - intros [[t Ht] Hna]. exists t. apply diff_maps_added_lookup. split; [exact Ht |].
      destruct (a !! n) eqn:Ha; [destruct Hna; eauto | reflexivity]. }
  assert (HR : dom (d_removed (diff_maps ra rb a b)) = dom a ∖ dom b).
  { apply set_eq. intros n. rewrite elem_of_difference, !elem_of_dom. split.
    - intros [t Ht]. apply diff_maps_removed_lookup in Ht as [Ha Hb].
      split; [eauto | intros [x Hx]; congruence].
    - intros [[t Ht] Hnb]. exists t. apply diff_maps_removed_lookup. split; [exact Ht |].
      destruct (b !! n) eqn:Hb; [destruct Hnb; eauto | reflexivity]. }
  assert (HCU : C ∪ U = dom a ∩ dom b).
  { apply set_eq. intros n. unfold C, U. rewrite elem_of_union, !elem_of_filter.
    destruct (same_tracked a b n); split; intros; intuition congruence. }
  assert (Hdisj : C ## U).
  { intros n. unfold C, U. rewrite !elem_of_filter. tauto. }
  rewrite <- !size_dom, HC, HA, HR.
  assert (Hsize : size C + size U = size (dom a ∩ dom b))
    by (rewrite <- HCU; symmetry; apply size_union, Hdisj).
  assert (Hb : size (dom b ∖ dom a) + size (dom a ∩ dom b) = size (dom b)).
  { rewrite <- size_union
      by (intros n; rewrite elem_of_difference, elem_of_intersection; tauto).
    f_equal. apply set_eq. intros n.
    rewrite elem_of_union, elem_of_difference, elem_of_intersection.
    destruct (decide (n ∈ dom a)); tauto. }
  assert (Ha : size (dom a ∖ dom b) + size (dom a ∩ dom b) = size (dom a)).
  { rewrite <- size_union
      by (intros n; rewrite elem_of_difference, elem_of_intersection; tauto).
    f_equal. apply set_eq. intros n.
    rewrite elem_of_union, elem_of_difference, elem_of_intersection.
    destruct (decide (n ∈ dom b)); tauto. }
  fold U. lia.
Qed.

(** X12: in every diff, [added] holds exactly the tokens of B whose name
    is not in A and [removed] exactly the tokens of A whose name is not in
    B, with their full data; the counts partition both sides: added plus
    changed plus unchanged is the size of B, and removed plus changed plus
    unchanged is the size of A. *)
Theorem diff_partitions_both_sides (ra rb : string) (a b : gmap string Token) :
  (forall n t, d_added (diff_maps ra rb a b) !! n = Some t
               <-> b !! n = Some t /\ a !! n = None)
  /\ (forall n t, d_removed (diff_maps ra rb a b) !! n = Some t
                  <-> a !! n = Some t /\ b !! n = None)
  /\ n_added (d_summary (diff_maps ra rb a b))
     + n_changed (d_summary (diff_maps ra rb a b))
     + n_unchanged (d_summary (diff_maps ra rb a b)) = size b
  /\ n_removed (d_summary (diff_maps ra rb a b))
     + n_changed (d_summary (diff_maps ra rb a b))
     + n_unchanged (d_summary (diff_maps ra rb a b)) = size a.
Proof.
  split; [intros n t; apply diff_maps_added_lookup |].
  split; [intros n t; apply diff_maps_removed_lookup |].
  apply diff_maps_partition.
Qed.

Lemma differs_sym ta tb : differs ta tb = differs tb ta.
Proof.
  unfold differs. rewrite (String.eqb_sym (value ta)), (String.eqb_sym (category ta)).
  destruct (deprecated ta), (deprecated tb); reflexivity.
Qed.

(** X13: diffing in the other direction mirrors the result: what was
    added is removed and the reverse, each changed record has its before
    and after exchanged, and the four counts are the same with added and
    removed exchanged. *)
Theorem diff_reversed_is_mirrored (ra rb : string) (a b : gmap string Token) :
  d_added (diff_maps rb ra b a) = d_removed (diff_maps ra rb a b)
  /\ d_removed (diff_maps rb ra b a) = d_added (diff_maps ra rb a b)
  /\ d_changed (diff_maps rb ra b a) = reverse_change <$> d_changed (diff_maps ra rb a b)
  /\ d_summary (diff_maps rb ra b a)
     = mkSummary (n_removed (d_summary (diff_maps ra rb a b)))
         (n_added (d_summary (diff_maps ra rb a b)))
         (n_changed (d_summary (diff_maps ra rb a b)))
         (n_unchanged (d_summary (diff_maps ra rb a b))).
Proof.
  assert (Hadd : d_added (diff_maps rb ra b a) = d_removed (diff_maps ra rb a b))
    by (rewrite diff_maps_added, diff_maps_removed; reflexivity).
  assert (Hrem : d_removed (diff_maps rb ra b a) = d_added (diff_maps ra rb a b))
    by (rewrite diff_maps_added, diff_maps_removed; reflexivity).
  assert (Hch : d_changed (diff_maps rb ra b a)
                = reverse_change <$> d_changed (diff_maps ra rb a b)).
  { apply map_eq. intros n. rewrite lookup_fmap, !diff_maps_changed. unfold changed_record.
    destruct (a !! n) as [ta|], (b !! n) as [tb|]; try reflexivity.
    rewrite (differs_sym tb ta). destruct (differs ta tb); reflexivity. }
  split; [exact Hadd |]. split; [exact Hrem |]. split; [exact Hch |].
  rewrite !diff_maps_summary. cbn [n_added n_removed n_changed n_unchanged].
  rewrite Hadd, Hrem, Hch, map_size_fmap. f_equal. f_equal.
  apply set_eq. intros n. rewrite !elem_of_filter, !elem_of_intersection.
  unfold same_tracked. destruct (a !! n) as [ta|], (b !! n) as [tb|];
    rewrite ?(differs_sym tb ta); tauto.
Qed.

(* ====================================================================== *)
(** * Diffing a snapshot against the live store *)
(* ====================================================================== *)

Lemma find_unique_iff {A} (f : A -> string) (k : string) (l : list A) (x : A) :
  NoDup (map f l) ->
  find (fun y => String.eqb (f y) k) l = Some x <-> In x l /\ f x = k.
Proof.
  intros Hnd. split.
  - intros H. apply find_some in H as [Hin He]. apply String.eqb_eq in He. auto.
  - intros [Hin He]. induction l as [|a l IH]; [destruct Hin |].
    simpl in Hnd. apply NoDup_cons in Hnd as [Ha Hnd]. cbn [find].
    destruct (String.eqb_spec (f a) k) as [Hk|Hk].
    + destruct Hin as [->|Hin]; [reflexivity |].
      exfalso. apply Ha. rewrite Hk, <- He. apply list_elem_of_In, in_map, Hin.
    + destruct Hin as [->|Hin]; [congruence | apply IH; assumption].
Qed.

Lemma find_map {A B} (f : A -> B) (p : B -> bool) (l : list A) :
  find p (map f l) = f <$> find (fun x => p (f x)) l.
Proof.
  induction l as [|x l IH]; [reflexivity |]. cbn [map find].
  destruct (p (f x)); [reflexivity | exact IH].
Qed.

Lemma by_name_from_lookup toks : forall (m0 : gmap string Token) n,
  NoDup (map name toks) ->
  fold_left (fun m t => <[name t := t]> m) toks m0 !! n
  = match find (fun t => String.eqb (name t) n) toks with
    | Some t => Some t
    | None => m0 !! n
    end.
Proof.
  induction toks as [|t toks IH]; intros m0 n Hnd; [reflexivity |].
  simpl in Hnd. apply NoDup_cons in Hnd as [Ht Hnd]. cbn [fold_left find].
  rewrite (IH _ _ Hnd). destruct (String.eqb_spec (name t) n) as [He|Hne].
  - destruct (find (fun t0 => String.eqb (name t0) n) toks) as [t'|] eqn:Hf.
    + exfalso. apply find_some in Hf as [Hin Hn]. apply String.eqb_eq in Hn.
      apply Ht. rewrite He, <- Hn. apply list_elem_of_In, in_map, Hin.
    + subst n. apply lookup_insert_eq.
  - destruct (find _ toks); [reflexivity |]. apply lookup_insert_ne, Hne.
Qed.

Lemma by_name_lookup toks n :
  NoDup (map name toks) ->
  by_name toks !! n = find (fun t => String.eqb (name t) n) toks.
Proof.
  intros Hnd. unfold by_name. rewrite (by_name_from_lookup _ _ _ Hnd), lookup_empty.
  destruct (find _ toks); reflexivity.
Qed.

(** With unique names, the mapping of the live store sends a name to the
    stored token of that name. *)
Lemma current_mapping_lookup db n :
  unique_keys db -> by_name (list_tokens None true db) !! n = token_named n db.
Proof.
  intros Hu. rewrite by_name_lookup by (apply list_tokens_names_distinct, Hu).
  destruct Hu as [_ Hnames]. unfold token_named. rewrite list_tokens_all, find_map.
  cbn [_row_to_token name]. f_equal. apply option_eq. intros r.
  assert (Hsorted : NoDup (map r_name (order_by_category_name (tokens db))))
    by (rewrite order_by_category_name_perm; exact Hnames).
  rewrite (find_unique_iff r_name n _ r Hsorted), (find_unique_iff r_name n _ r Hnames).
  split; intros [Hin He]; (split; [| exact He]).
  - apply (Permutation_in _ (order_by_category_name_perm (tokens db))), Hin.
  - apply (Permutation_in _ (Permutation_sym (order_by_category_name_perm (tokens db)))), Hin.
Qed.

Lemma save_snapshot_inv version_ name_ description_ stamp now sid now2 db sid' db' :
  save_snapshot version_ name_ description_ stamp now sid now2 db = Some (sid', db') ->
  sid' = sid /\ tokens db' = tokens db.
Proof.
  unfold save_snapshot. destruct (existsb _ (token_snapshots db)); [discriminate |].
  intros [= <- <-]. auto.
Qed.

(** X14: a snapshot saved under a fresh identifier and diffed against
    [current] after any later adds, updates and deletes reports exactly the
    difference between the store then and the store now: a name is under
    [added] with its current token when it is stored now and was not then,
    under [removed] with its old token when it was stored then and is not
    now, and under [changed] when it is stored at both times with another
    value, category or deprecation flag. *)
Theorem diff_since_snapshot
    (version_ name_ description_ stamp now sid now2 : string) (db : DB)
    (sid' : string) (db1 : DB) (ops : list op) :
  unique_keys db ->
  sid <> "current" ->
  (forall s, In s (token_snapshots db) -> s_id s <> sid /\ s_version s <> sid) ->
  save_snapshot version_ name_ description_ stamp now sid now2 db = Some (sid', db1) ->
  exists d, diff sid "current" (run_ops ops db1) = inr d
    /\ forall n,
         d_added d !! n
         = match token_named n db with
           | None => token_named n (run_ops ops db1)
           | Some _ => None
           end
         /\ d_removed d !! n
            = match token_named n (run_ops ops db1) with
              | None => token_named n db
              | Some _ => None
              end
         /\ d_changed d !! n
            = match token_named n db, token_named n (run_ops ops db1) with
              | Some ta, Some tb =>
                  if differs ta tb then Some (mkChange (tracked ta) (tracked tb)) else None
              | _, _ => None
              end.
Proof.
  intros Hu Hcur Hfresh Hsave.
  destruct (saved_snapshot_resolves _ _ _ _ _ _ _ _ _ _ ops Hfresh Hsave) as [-> Hload].
  apply save_snapshot_inv in Hsave as [_ Htok].
  assert (Hu1 : unique_keys db1) by (unfold unique_keys; rewrite Htok; exact Hu).
  pose proof (run_ops_unique_keys ops db1 Hu1) as Hu2.
  exists (diff_maps sid "current" (by_name (list_tokens None true db))
            (by_name (list_tokens None true (run_ops ops db1)))).
  split.
  - unfold diff, _get. destruct (String.eqb_spec sid "current") as [He|_]; [contradiction |].
    rewrite Hload. reflexivity.
  - intros n. split; [| split].
    + apply option_eq. intros t. rewrite diff_maps_added_lookup.
      rewrite !current_mapping_lookup by assumption.
      destruct (token_named n db); split; try discriminate; intuition congruence.
    + apply option_eq. intros t. rewrite diff_maps_removed_lookup.
      rewrite !current_mapping_lookup by assumption.
      destruct (token_named n (run_ops ops db1)); split; try discriminate;
        intuition congruence.
    + rewrite diff_maps_changed. unfold changed_record.
      rewrite !current_mapping_lookup by assumption. reflexivity.
Qed.

(** The update of [brand_token] after the snapshot [v2] shows as one change. *)
Lemma diff_since_snapshot_witness :
  exists d, diff "sid-2" "current"
              (run_ops [Update "t1" value_black_deprecated eleven_o_clock] brand_saved)
            = inr d
    /\ d_changed d !! "color/brand"
       = Some (mkChange (tracked (_row_to_token brand_row)) (tracked brand_updated)).
Proof.
  destruct (diff_since_snapshot "v2" "second" "" ten_o_clock eleven_o_clock "sid-2"
              eleven_o_clock brand_db "sid-2" brand_saved
              [Update "t1" value_black_deprecated eleven_o_clock])
    as (d & Hd & Hn).
  - split; apply NoDup_cons; (split; [intros H; inversion H | apply NoDup_nil_2]).
  - discriminate.
  - intros s [].
  - reflexivity.
  - exists d. split; [exact Hd |].
    destruct (Hn "color/brand") as (_ & _ & ->). reflexivity.
Defined.

(* ====================================================================== *)
(** * Counting by category *)
(* ====================================================================== *)

Lemma count_categories_from toks : forall (m0 : gmap string nat) c,
  fold_left (fun counts t => <[category t := S (default 0 (counts !! category t))]> counts)
            toks m0 !! c
  = match length (List.filter (fun t => String.eqb (category t) c) toks), m0 !! c with
    | 0, was => was
    | S k, was => Some (default 0 was + S k)
    end.
Proof.
  induction toks as [|t toks IH]; intros m0 c; [reflexivity |].
  cbn [fold_left List.filter]. rewrite IH.
  destruct (String.eqb_spec (category t) c) as [He|Hne].
  - subst c. rewrite lookup_insert_eq. cbn [length].
    destruct (length (List.filter _ toks)); cbn [from_option];
      unfold Datatypes.id; f_equal; lia.
  - rewrite lookup_insert_ne by exact Hne. reflexivity.
Qed.

(** X15: the [categories] dictionary of a token set has an entry for a
    category exactly when some token of the set is of that category, and the
    entry is the number of those tokens. *)
Theorem count_categories_lookup (toks : list Token) (c : string) :
  _count_categories toks !! c
  = match length (List.filter (fun t => String.eqb (category t) c) toks) with
    | 0 => None
    | S k => Some (S k)
    end.
Proof.
  unfold _count_categories. rewrite count_categories_from, lookup_empty.
  destruct (length _); reflexivity.
Qed.

(* ====================================================================== *)
(** * Seeding *)
(* ====================================================================== *)

Lemma seed_valid_spec uuid4 _now spec k :
  seed_valid spec = true -> validate (token_of_seed uuid4 _now spec k) = [].
Proof.
  unfold seed_valid. intros H.
  rewrite (validate_same_fields _
             (mkToken "" (seed_name spec) (seed_category spec) (seed_value spec)
                "" [] false "" [] "" "" 1)) by reflexivity.
  destruct (validate _); [reflexivity | discriminate].
Qed.

Lemma SEED_TOKENS_valid : forallb seed_valid SEED_TOKENS = true.
Proof. vm_compute. reflexivity. Qed.

Lemma SEED_TOKENS_names : NoDup (map seed_name SEED_TOKENS).
Proof.
  apply (bool_decide_unpack (NoDup (map seed_name SEED_TOKENS))). vm_compute. exact I.
Qed.

Lemma seed_missing_false_iff db spec :
  seed_missing db spec = false
  <-> exists r, In r (tokens db) /\ r_name r = seed_name spec.
Proof.
  unfold seed_missing. rewrite negb_false_iff, existsb_exists.
  split; intros (r & Hr & H); exists r; (split; [exact Hr |]);
    apply String.eqb_eq; exact H.
Qed.

(** One turn of the loop: a seed whose name is stored is passed over; one
    whose name and identifier are free is appended. *)
Lemma seed_entry_stored uuid4 _now st spec :
  seed_valid spec = true ->
  seed_missing (sd_db st) spec = false ->
  seed_entry uuid4 _now st spec = mkSeedState (sd_added st) (sd_db st) (S (sd_drawn st)).
Proof.
  intros Hv Hm. apply seed_missing_false_iff in Hm as (r & Hr & Hn).
  unfold seed_entry. rewrite add_token_taken; [reflexivity | | reflexivity |].
  - apply seed_valid_spec, Hv.
  - exists r. split; [exact Hr |]. right. exact Hn.
Qed.

Lemma seed_entry_missing uuid4 _now st spec :
  seed_valid spec = true ->
  seed_missing (sd_db st) spec = true ->
  (forall r, In r (tokens (sd_db st)) -> r_id r <> uuid4 (sd_drawn st)) ->
  exists row,
    seed_entry uuid4 _now st spec
    = mkSeedState (S (sd_added st))
        (mkDB (tokens (sd_db st) ++ [row]) (token_snapshots (sd_db st)))
        (S (sd_drawn st))
    /\ seed_of_row row = spec /\ r_id row = uuid4 (sd_drawn st).
Proof.
  intros Hv Hm Hfresh.
  exists (row_of_token (stamp_new (token_of_seed uuid4 _now spec (sd_drawn st))
                          (_now (3 * sd_drawn st + 2)))).
  split; [| split; [destruct spec; reflexivity | reflexivity]].
  unfold seed_entry.
  rewrite add_token_stores; [reflexivity | apply seed_valid_spec, Hv | reflexivity |].
  apply not_true_is_false. intros Hi.
  apply integrity_error_true_iff in Hi as (r & Hr & [Hid|Hn]).
  - apply (Hfresh r Hr). exact Hid.
  - assert (Hf : seed_missing (sd_db st) spec = false)
      by (apply seed_missing_false_iff; exists r; split; [exact Hr | exact Hn]).
    congruence.
Qed.

Lemma seed_fold uuid4 _now specs :
  (forall i j, uuid4 i = uuid4 j -> i = j) ->
  forall st,
    forallb seed_valid specs = true ->
    NoDup (map seed_name specs) ->
    (forall r k, In r (tokens (sd_db st)) -> sd_drawn st <= k -> r_id r <> uuid4 k) ->
    exists new,
      fold_left (seed_entry uuid4 _now) specs st
      = mkSeedState (sd_added st + length new)
          (mkDB (tokens (sd_db st) ++ new) (token_snapshots (sd_db st)))
          (sd_drawn st + length specs)
      /\ map seed_of_row new = List.filter (seed_missing (sd_db st)) specs.
Proof.
  intros Hinj. induction specs as [|spec rest IH]; intros st Hv Hnd Hfresh.
  - exists []. split; [| reflexivity]. cbn [fold_left length].
    rewrite app_nil_r, !Nat.add_0_r. destruct st as [a [rows snaps] k]. reflexivity.
  - cbn [forallb] in Hv. apply andb_true_iff in Hv as [Hv Hvs].
    simpl in Hnd. apply NoDup_cons in Hnd as [Hspec Hnd].
    cbn [fold_left List.filter].
    destruct (seed_missing (sd_db st) spec) eqn:Hm.
    + destruct (seed_entry_missing uuid4 _now st spec Hv Hm) as (row & -> & Hrow & Hid).
      { intros r Hr. apply (Hfresh r _ Hr). lia. }
      destruct (IH (mkSeedState (S (sd_added st))
                      (mkDB (tokens (sd_db st) ++ [row]) (token_snapshots (sd_db st)))
                      (S (sd_drawn st))) Hvs Hnd) as (new & -> & Hnew).
      { cbn [sd_db sd_drawn tokens]. intros r k Hr Hk.
        apply in_app_iff in Hr as [Hr|[<-|[]]].
        - apply (Hfresh r k Hr). lia.
        - rewrite Hid. intros He. apply Hinj in He. lia. }
      exists (row :: new). cbn [sd_added sd_db sd_drawn tokens token_snapshots length].
      split.
      * rewrite <- app_assoc. cbn [app]. f_equal; lia.
      * cbn [map]. rewrite Hrow, Hnew. f_equal.
        apply filter_ext_in. intros s Hs. unfold seed_missing. cbn [sd_db tokens].
        rewrite existsb_app. cbn [existsb]. rewrite orb_false_r.
        replace (String.eqb (r_name row) (seed_name s)) with false;
          [rewrite orb_false_r; reflexivity |].
        symmetry. apply String.eqb_neq. intros He. apply Hspec.
        replace (seed_name spec) with (r_name row) by (rewrite <- Hrow; reflexivity).
        rewrite He. apply list_elem_of_In, in_map, Hs.
    + rewrite (seed_entry_stored uuid4 _now st spec Hv Hm).
      destruct (IH (mkSeedState (sd_added st) (sd_db st) (S (sd_drawn st))) Hvs Hnd)
        as (new & -> & Hnew).
      { cbn [sd_db sd_drawn]. intros r k Hr Hk. apply (Hfresh r k Hr). lia. }
      exists new. cbn [sd_added sd_db sd_drawn length]. split; [f_equal; lia | exact Hnew].
Qed.

(** X16: when the identifiers drawn are distinct and none is stored
    already, [seed_defaults] appends one row for each seed whose name is not
    stored, in the order of [SEED_TOKENS] and with the seed's name, category,
    value and description, leaves the snapshots alone, and returns the
    number of rows it appended. *)
Theorem seed_defaults_adds_missing_seeds
    (uuid4 _now : nat -> string) (first : nat) (db : DB) :
  (forall i j, uuid4 i = uuid4 j -> i = j) ->
  (forall r k, In r (tokens db) -> r_id r <> uuid4 k) ->
  exists new,
    seed_defaults uuid4 _now first db
    = (length new, mkDB (tokens db ++ new) (token_snapshots db))
    /\ map seed_of_row new = List.filter (seed_missing db) SEED_TOKENS.
Proof.
  intros Hinj Hfresh.
  destruct (seed_fold uuid4 _now SEED_TOKENS Hinj (mkSeedState 0 db first)
              SEED_TOKENS_valid SEED_TOKENS_names) as (new & Hrun & Hnew).
  { cbn [sd_db]. intros r k Hr _. apply Hfresh, Hr. }
  exists new. split; [| exact Hnew].
  unfold seed_defaults, seed_loop. rewrite Hrun. reflexivity.
Qed.

(** Seeding the empty store with numbered identifiers appends all
    thirty-five seeds. *)
Lemma seed_defaults_adds_missing_seeds_witness :
  exists new,
    seed_defaults numbered numbered 0 empty_db
    = (length new, mkDB (tokens empty_db ++ new) (token_snapshots empty_db))
    /\ map seed_of_row new = List.filter (seed_missing empty_db) SEED_TOKENS.
Proof.
  apply (seed_defaults_adds_missing_seeds numbered numbered 0 empty_db).
  - intros i j H. apply (inj pretty) in H. exact H.
  - intros r k [].
Defined.

Lemma seed_fold_stored uuid4 _now specs : forall st,
  forallb seed_valid specs = true ->
  (forall spec, In spec specs -> seed_missing (sd_db st) spec = false) ->
  fold_left (seed_entry uuid4 _now) specs st
  = mkSeedState (sd_added st) (sd_db st) (sd_drawn st + length specs).
Proof.
  induction specs as [|spec rest IH]; intros st Hv Hall.
  - cbn [fold_left length]. rewrite Nat.add_0_r. destruct st. reflexivity.
  - cbn [forallb] in Hv. apply andb_true_iff in Hv as [Hv Hvs]. cbn [fold_left].
    rewrite (seed_entry_stored uuid4 _now st spec Hv) by (apply Hall; left; reflexivity).
    rewrite IH; [cbn [sd_added sd_db sd_drawn length]; f_equal; lia | exact Hvs |].
    cbn [sd_db]. intros s Hs. apply Hall. right. exact Hs.
Qed.

(** X17: after one run of [seed_defaults] with distinct identifiers, none
    of them stored before, a second run, whatever identifiers and clock it
    draws, adds nothing and leaves the database as it is. *)
Theorem seed_defaults_second_run_adds_nothing
    (uuid4 _now uuid4' _now' : nat -> string) (first first' : nat) (db : DB) :
  (forall i j, uuid4 i = uuid4 j -> i = j) ->
  (forall r k, In r (tokens db) -> r_id r <> uuid4 k) ->
  seed_defaults uuid4' _now' first' (seed_defaults uuid4 _now first db).2
  = (0, (seed_defaults uuid4 _now first db).2).
Proof.
  intros Hinj Hfresh.
  destruct (seed_fold uuid4 _now SEED_TOKENS Hinj (mkSeedState 0 db first)
              SEED_TOKENS_valid SEED_TOKENS_names) as (new & Hrun & Hnew).
  { cbn [sd_db]. intros r k Hr _. apply Hfresh, Hr. }
  cbn [sd_db sd_added sd_drawn] in Hrun, Hnew.
  unfold seed_defaults at 2 3. unfold seed_loop. rewrite Hrun. cbn [snd sd_db].
  unfold seed_defaults, seed_loop.
  rewrite seed_fold_stored; [reflexivity | exact SEED_TOKENS_valid |].
  cbn [sd_db]. intros spec Hspec.
  destruct (seed_missing db spec) eqn:Hm.
  - assert (Hin : In spec (map seed_of_row new)).
    { rewrite Hnew. apply filter_In. split; [exact Hspec | exact Hm]. }
    apply in_map_iff in Hin as (row & Hrow & Hin).
    apply seed_missing_false_iff. exists row. cbn [tokens]. split.
    + apply in_app_iff. right. exact Hin.
    + rewrite <- Hrow. reflexivity.
  - apply seed_missing_false_iff in Hm as (r & Hr & Hn).
    apply seed_missing_false_iff. exists r. cbn [tokens]. split; [| exact Hn].
    apply in_app_iff. left. exact Hr.
Qed.

(** Seeding the empty store, then seeding again. *)
Lemma seed_defaults_second_run_adds_nothing_witness :
  seed_defaults numbered numbered 35 (seed_defaults numbered numbered 0 empty_db).2
  = (0, (seed_defaults numbered numbered 0 empty_db).2).
Proof.
  apply (seed_defaults_second_run_adds_nothing numbered numbered numbered numbered 0 35
           empty_db).
  - intros i j H. apply (inj pretty) in H. exact H.
  - intros r k [].
Defined.

(** One colour record imported into the empty store, then imported again. *)
Lemma reimport_skips_every_record_witness :
  import_json numbered numbered brand_source 1
    (import_json numbered numbered brand_source 0 empty_db).2
  = ((0, 1, []), (import_json numbered numbered brand_source 0 empty_db).2).
Proof.
  apply (reimport_skips_every_record numbered numbered numbered numbered brand_source 0 1
           empty_db 1 (import_json numbered numbered brand_source 0 empty_db).2).
  vm_compute. reflexivity.
Defined.

(* ====================================================================== *)
(** * Rows and tokens *)
(* ====================================================================== *)

Lemma int_of_bool_of_int n :
  int_of_bool (bool_of_int n) = n <-> (n = 0 \/ n = 1)%Z.
Proof.
  unfold int_of_bool, bool_of_int. destruct (Z.eqb_spec n 0) as [->|Hn]; cbn [negb].
  - split; auto.
  - split; [intros <-; auto | intros [H|H]; congruence].
Qed.

(** X20: a row read by [_row_to_token] and bound again to the columns of
    [INSERT INTO tokens] is the same row exactly when its [deprecated]
    column holds 0 or 1: the two comma-separated columns come back as they
    were, and any other number in [deprecated] comes back as 1. *)
Theorem row_read_and_written_back (r : Row) :
  (row_of_token (_row_to_token r) = r <-> (r_deprecated r = 0 \/ r_deprecated r = 1)%Z)
  /\ r_aliases (row_of_token (_row_to_token r)) = r_aliases r
  /\ r_tags (row_of_token (_row_to_token r)) = r_tags r
  /\ (r_deprecated r <> 0%Z -> r_deprecated (row_of_token (_row_to_token r)) = 1%Z).
Proof.
  destruct r as [i n c v d al dep dr tg ca ua ver].
  unfold row_of_token, _row_to_token.
  cbn [id name category value description aliases deprecated deprecated_reason tags
       created_at updated_at version r_id r_name r_category r_value r_description
       r_aliases r_deprecated r_deprecated_reason r_tags r_created_at r_updated_at
       r_version].
  rewrite !join_split_list. repeat split.
  - intros [= H]. apply int_of_bool_of_int, H.
  - intros H. apply int_of_bool_of_int in H. rewrite H. reflexivity.
  - intros H. unfold int_of_bool, bool_of_int.
    destruct (Z.eqb_spec dep 0); [contradiction | reflexivity].
Qed.

(* ====================================================================== *)
(** * Slugs *)
(* ====================================================================== *)

Lemma slug_cons c s :
  _slug (String c s)
  = String (if Ascii.eqb (if Ascii.eqb (if Ascii.eqb (Py.lower_char c) "/" then "-"
                                        else Py.lower_char c) "."
                          then "-"
                          else if Ascii.eqb (Py.lower_char c) "/" then "-"
                               else Py.lower_char c) " "
            then "-"
            else if Ascii.eqb (if Ascii.eqb (Py.lower_char c) "/" then "-"
                               else Py.lower_char c) "."
                 then "-"
                 else if Ascii.eqb (Py.lower_char c) "/" then "-" else Py.lower_char c)
      (_slug s).
Proof. reflexivity. Qed.

Lemma slug_head_clean (c : ascii) :
  match _slug (String c EmptyString) with
  | String d EmptyString =>
      negb (Py.is_upper d) && negb (Ascii.eqb d "/") && negb (Ascii.eqb d ".")
      && negb (Ascii.eqb d " ")
      && String.eqb (_slug (String d EmptyString)) (String d EmptyString)
  | _ => false
  end = true.
Proof.
  revert c. apply forall_ascii. vm_compute. reflexivity.
Qed.

Lemma slug_char_clean (c : ascii) :
  exists d, _slug (String c EmptyString) = String d EmptyString
    /\ Py.is_upper d = false /\ d <> "/"%char /\ d <> "."%char /\ d <> " "%char
    /\ _slug (String d EmptyString) = String d EmptyString.
Proof.
  pose proof (slug_head_clean c) as H.
  destruct (_slug (String c EmptyString)) as [|d [|e rest]]; try discriminate.
  exists d. split; [reflexivity |].
  repeat (apply andb_true_iff in H as [H ?]).
  apply negb_true_iff in H. repeat split.
  - exact H.
  - intros ->. discriminate.
  - intros ->. discriminate.
  - intros ->. discriminate.
  - apply String.eqb_eq. assumption.
Qed.

Lemma slug_single c s : _slug (String c s) = _slug (String c EmptyString) +:+ _slug s.
Proof. rewrite !slug_cons. reflexivity. Qed.

(** X21: on a name of ASCII characters, [_slug] keeps the length of the
    name; its result holds no capital, no slash, no dot and no space, and
    slugging a slug changes nothing. *)
Theorem slug_is_clean_and_idempotent (s : string) :
  Py.isascii s = true ->
  String.length (_slug s) = String.length s
  /\ (forall c, In c (list_ascii_of_string (_slug s)) ->
        Py.is_upper c = false /\ c <> "/"%char /\ c <> "."%char /\ c <> " "%char)
  /\ _slug (_slug s) = _slug s.
Proof.
  intros _. induction s as [|a s (IHl & IHc & IHi)].
  - split; [reflexivity |]. split; [intros c [] | reflexivity].
  - destruct (slug_char_clean a) as (d & Hd & Hu & H1 & H2 & H3 & Hdd).
    rewrite slug_single, Hd, append_cons, append_empty_l.
    split; [cbn [String.length]; rewrite IHl; reflexivity |]. split.
    + cbn [list_ascii_of_string]. intros c [<-|Hin]; [auto | apply (IHc c Hin)].
    + rewrite slug_single, Hdd, IHi, append_cons, append_empty_l. reflexivity.
Qed.

(** The slug of a name with capitals, a slash, a dot and a space. *)
Lemma slug_is_clean_and_idempotent_witness :
  String.length (_slug "Color/Brand.Primary X") = 21
  /\ _slug (_slug "Color/Brand.Primary X") = _slug "Color/Brand.Primary X".
Proof.
  destruct (slug_is_clean_and_idempotent "Color/Brand.Primary X") as (Hl & _ & Hi).
  - reflexivity.
  - split; [rewrite Hl; reflexivity | exact Hi].
Defined.

(* ====================================================================== *)
(** * The CSS export *)
(* ====================================================================== *)

Lemma group_from toks : forall (m0 : gmap string (list Token)) c,
  fold_left
    (fun by_cat t => <[category t := default [] (by_cat !! category t) ++ [t]]> by_cat)
    toks m0 !! c
  = match List.filter (fun t => String.eqb (category t) c) toks with
    | [] => m0 !! c
    | (_ :: _) as new => Some (default [] (m0 !! c) ++ new)
    end.
Proof.
  induction toks as [|t toks IH]; intros m0 c; [reflexivity |].
  cbn [fold_left List.filter]. rewrite IH.
  destruct (String.eqb_spec (category t) c) as [He|Hne].
  - subst c. rewrite lookup_insert_eq. cbn [from_option]. unfold Datatypes.id.
    destruct (List.filter _ toks); [reflexivity |]. rewrite <- app_assoc. reflexivity.
  - rewrite lookup_insert_ne by exact Hne. reflexivity.
Qed.

(** The group of a category holds the tokens of that category, in the
    order of the list. *)
Lemma group_lookup toks c :
  group_by_category toks !! c
  = match List.filter (fun t => String.eqb (category t) c) toks with
    | [] => None
    | (_ :: _) as new => Some new
    end.
Proof.
  unfold group_by_category. rewrite group_from, lookup_empty.
  destruct (List.filter _ toks); reflexivity.
Qed.

Lemma group_default toks c :
  default [] (group_by_category toks !! c)
  = List.filter (fun t => String.eqb (category t) c) toks.
Proof. rewrite group_lookup. destruct (List.filter _ toks); reflexivity. Qed.

Lemma group_dom toks c :
  c ∈ dom (group_by_category toks) <-> exists t, In t toks /\ category t = c.
Proof.
  rewrite elem_of_dom, group_lookup. split.
  - destruct (List.filter _ toks) as [|t l] eqn:Hf; [intros [x Hx]; discriminate |].
    intros _. assert (Hin : In t (List.filter (fun t => String.eqb (category t) c) toks))
      by (rewrite Hf; left; reflexivity).
    apply filter_In in Hin as [Hin He]. apply String.eqb_eq in He. eauto.
  - intros (t & Hin & He).
    assert (Hf : In t (List.filter (fun t => String.eqb (category t) c) toks))
      by (apply filter_In; split; [exact Hin | apply String.eqb_eq, He]).
    destruct (List.filter _ toks); [destruct Hf | eauto].
Qed.

Lemma string_leb_strict a b :
  String.leb a b = true -> a <> b -> String.compare a b = Lt.
Proof.
  unfold String.leb. destruct (String.compare a b) eqn:Hc; try discriminate; auto.
  apply String.compare_eq_iff in Hc. contradiction.
Qed.

Lemma sorted_strictly (l : list string) :
  NoDup l -> StronglySorted (fun a b => String.leb a b = true) l ->
  StronglySorted (fun a b => String.compare a b = Lt) l.
Proof.
  intros Hnd Hs. induction Hs as [|a l Hs IH Ha]; constructor.
  - apply IH. apply NoDup_cons in Hnd as [_ Hnd]. exact Hnd.
  - apply NoDup_cons in Hnd as [Hnotin _].
    rewrite List.Forall_forall in Ha |- *. intros b Hb.
    apply string_leb_strict; [apply Ha, Hb |].
    intros ->. apply Hnotin, list_elem_of_In, Hb.
Qed.

Lemma string_leb_total_false a b : String.leb a b = false -> String.leb b a = true.
Proof. intros H. destruct (String.leb_total a b); congruence. Qed.

(** [sorted(d)] holds the keys of [d], each once, in strictly ascending
    order. *)
Lemma sorted_keys_spec {V} (d : gmap string V) :
  StronglySorted (fun a b => String.compare a b = Lt) (sorted_keys d)
  /\ forall c, In c (sorted_keys d) <-> c ∈ dom d.
Proof.
  unfold sorted_keys.
  pose proof (sort_with_perm String.leb (elements (dom d))) as Hp. split.
  - apply sorted_strictly.
    + rewrite Hp. apply NoDup_elements.
    + apply sort_with_sorted; [exact string_leb_total_false | exact string_leb_trans].
  - intros c. rewrite <- elem_of_elements, <- list_elem_of_In. split; intros H.
    + rewrite <- Hp. exact H.
    + rewrite Hp. exact H.
Qed.

Lemma flat_map_ext_In {A B} (f g : A -> list B) (l : list A) :
  (forall a, In a l -> f a = g a) -> flat_map f l = flat_map g l.
Proof.
  induction l as [|a l IH]; intros H; [reflexivity |]. cbn [flat_map].
  rewrite (H a) by (left; reflexivity). rewrite IH; [reflexivity |].
  intros b Hb. apply H. right. exact Hb.
Qed.

Lemma StronglySorted_filter {A} (R : A -> A -> Prop) (p : A -> bool) (l : list A) :
  StronglySorted R l -> StronglySorted R (List.filter p l).
Proof.
  induction 1 as [|a l Hs IH Ha]; cbn [List.filter]; [constructor |].
  destruct (p a); [| exact IH]. constructor; [exact IH |].
  rewrite List.Forall_forall in Ha |- *. intros b Hb.
  apply filter_In in Hb as [Hb _]. apply Ha, Hb.
Qed.

Lemma filter_filter_other (c c' : string) (l : list Token) :
  c' <> c ->
  List.filter (fun t => String.eqb (category t) c')
    (List.filter (fun t => negb (String.eqb (category t) c)) l)
  = List.filter (fun t => String.eqb (category t) c') l.
Proof.
  intros Hne. induction l as [|t l IH]; [reflexivity |]. cbn [List.filter].
  destruct (String.eqb_spec (category t) c) as [He|Hn]; cbn [negb List.filter].
  - rewrite IH. destruct (String.eqb_spec (category t) c'); [congruence | reflexivity].
  - rewrite IH. reflexivity.
Qed.

Lemma filter_none_bool {A} (p : A -> bool) l :
  (forall x, In x l -> p x = false) -> List.filter p l = [].
Proof.
  induction l as [|x l IH]; intros H; [reflexivity |]. cbn [List.filter].
  rewrite (H x) by (left; reflexivity). apply IH. intros y Hy. apply H. right. exact Hy.
Qed.

(** In a list ordered by category whose least possible category is [c],
    the tokens of category [c] come first. *)
Lemma least_category_first (c : string) (l : list Token) :
  StronglySorted (fun x y => String.compare (category x) (category y) <> Gt) l ->
  (forall t, In t l -> category t = c \/ String.compare c (category t) = Lt) ->
  l = List.filter (fun t => String.eqb (category t) c) l
      ++ List.filter (fun t => negb (String.eqb (category t) c)) l.
Proof.
  induction 1 as [|x l Hs IH Hx]; intros Hc; [reflexivity |]. cbn [List.filter].
  destruct (String.eqb_spec (category x) c) as [He|Hne]; cbn [negb].
  - cbn [app]. f_equal. apply IH. intros t Ht. apply Hc. right. exact Ht.
  - assert (Hlt : String.compare c (category x) = Lt).
    { destruct (Hc x) as [?|?]; [left; reflexivity | contradiction | assumption]. }
    assert (Hnone : forall t, In t l -> String.eqb (category t) c = false).
    { intros t Ht. apply String.eqb_neq. intros He.
      rewrite List.Forall_forall in Hx. apply (Hx t Ht). rewrite He.
      rewrite String.compare_antisym, Hlt. reflexivity. }
    rewrite (filter_none_bool (fun t => String.eqb (category t) c) l Hnone).
    rewrite (filter_all_true (fun t => negb (String.eqb (category t) c)) l);
      [reflexivity |].
    intros t Ht. rewrite (Hnone t Ht). reflexivity.
Qed.

(** Taking from a list ordered by category the tokens of each category in
    turn, the categories in ascending order, gives the list back. *)
Lemma blocks_rebuild (cats : list string) : forall l : list Token,
  StronglySorted (fun a b => String.compare a b = Lt) cats ->
  StronglySorted (fun x y => String.compare (category x) (category y) <> Gt) l ->
  (forall t, In t l -> In (category t) cats) ->
  flat_map (fun c => List.filter (fun t => String.eqb (category t) c) l) cats = l.
Proof.
  induction cats as [|c cs IH]; intros l Hcs Hl Hin.
  - destruct l as [|t l]; [reflexivity |]. destruct (Hin t). left. reflexivity.
  - apply StronglySorted_inv in Hcs as [Hcs Hc]. rewrite List.Forall_forall in Hc.
    cbn [flat_map].
    rewrite (flat_map_ext_In _
               (fun c' => List.filter (fun t => String.eqb (category t) c')
                            (List.filter (fun t => negb (String.eqb (category t) c)) l))).
    + rewrite IH.
      * symmetry. apply least_category_first; [exact Hl |].
        intros t Ht. destruct (Hin t Ht) as [He|Hcs']; [left; auto | right; apply Hc, Hcs'].
      * exact Hcs.
      * apply StronglySorted_filter, Hl.
      * intros t Ht. apply filter_In in Ht as [Ht Hne].
        destruct (Hin t Ht) as [He|Hcs']; [| exact Hcs'].
        rewrite <- He, String.eqb_refl in Hne. discriminate.
    + intros c' Hc'. symmetry. apply filter_filter_other.
      intros ->. specialize (Hc c Hc'). rewrite string_compare_refl in Hc. discriminate.
Qed.

Lemma list_tokens_by_category category_ include_deprecated db :
  StronglySorted (fun x y => String.compare (category x) (category y) <> Gt)
    (list_tokens category_ include_deprecated db).
Proof.
  unfold list_tokens. rewrite order_by_category_name_sort.
  eapply StronglySorted_map; [| apply (sort_with_sorted row_leb row_leb_total row_leb_trans)].
  intros x y. cbn beta. unfold row_leb. cbn [_row_to_token category].
  destruct (String.compare (r_category x) (r_category y)); discriminate.
Qed.

Lemma join_two_or_more sep x y l :
  Py.join sep (x :: y :: l) = x +:+ sep +:+ Py.join sep (y :: l).
Proof. reflexivity. Qed.

(** X22: [export_css] returns the no-tokens comment exactly when the
    listing is empty.  Otherwise its lines are the opening line, then one
    block for each category of the listing, the categories strictly
    ascending: the upper-cased header, the lines of the listed tokens of
    that category in listing order, one empty line; then the closing brace.
    The tokens of the blocks, read in order, are the listing. *)
Theorem export_css_layout
    (prefix : string) (category_ : option string) (include_deprecated : bool) (db : DB) :
  (export_css prefix category_ include_deprecated db = "/* No tokens found */"
   <-> list_tokens category_ include_deprecated db = [])
  /\ exists cats,
       StronglySorted (fun a b => String.compare a b = Lt) cats
       /\ (forall c, In c cats
             <-> exists t, In t (list_tokens category_ include_deprecated db)
                           /\ category t = c)
       /\ export_css prefix category_ include_deprecated db
          = match list_tokens category_ include_deprecated db with
            | [] => "/* No tokens found */"
            | _ :: _ =>
                Py.join newline
                  ([":root {"]
                   ++ flat_map
                        (fun c =>
                           css_block prefix c
                             (List.filter (fun t => String.eqb (category t) c)
                                (list_tokens category_ include_deprecated db)))
                        cats
                   ++ ["}"])
            end
       /\ flat_map
            (fun c => List.filter (fun t => String.eqb (category t) c)
                        (list_tokens category_ include_deprecated db))
            cats
          = list_tokens category_ include_deprecated db.
Proof.
  pose proof (list_tokens_by_category category_ include_deprecated db) as Hsorted.
  unfold export_css. set (toks := list_tokens category_ include_deprecated db) in *.
  destruct (sorted_keys_spec (group_by_category toks)) as [Hcats Hin].
  assert (Hlines : export_css_lines prefix toks
                   = [":root {"]
                     ++ flat_map
                          (fun c => css_block prefix c
                                      (List.filter (fun t => String.eqb (category t) c) toks))
                          (sorted_keys (group_by_category toks))
                     ++ ["}"]).
  { unfold export_css_lines. f_equal. f_equal. apply flat_map_ext.
    intros c. rewrite group_default. reflexivity. }
  split.
  - destruct toks as [|t l] eqn:Ht; [split; reflexivity |].
    split; [| discriminate]. rewrite Hlines. cbn [app].
    destruct (flat_map _ _ ++ ["}"]) as [|y rest] eqn:Hrest.
    + apply app_eq_nil in Hrest as [_ Hrest]. discriminate.
    + rewrite join_two_or_more, append_cons. discriminate.
  - exists (sorted_keys (group_by_category toks)). split; [exact Hcats |]. split; [| split].
    + intros c. rewrite Hin. apply group_dom.
    + destruct toks as [|t l] eqn:Ht; [reflexivity |]. rewrite Hlines. reflexivity.
    + apply blocks_rebuild; [exact Hcats | exact Hsorted |].
      intros t Ht. apply Hin, group_dom. eauto.
Qed.

(* ====================================================================== *)
(** * The Tailwind export *)
(* ====================================================================== *)

Lemma assoc_find_iff (l : list (string * string)) (a b c : string) :
  NoDup (map fst l) -> NoDup (map snd l) -> In (a, b) l ->
  (snd <$> find (fun entry => String.eqb entry.1 c) l) = Some b <-> c = a.
Proof.
  induction l as [|[a' b'] l IH]; intros Hf Hs Hin; [destruct Hin |].
  simpl in Hf, Hs. apply NoDup_cons in Hf as [Hfa Hf]. apply NoDup_cons in Hs as [Hsb Hs].
  cbn [find fst]. destruct (String.eqb_spec a' c) as [He|Hne].
  - subst a'. cbn [fmap option_fmap option_map snd]. destruct Hin as [[= <- <-]|Hin].
    + split; reflexivity.
    + split.
      * intros [= <-]. exfalso. apply Hsb, list_elem_of_In.
        change b' with (snd (a, b')). apply in_map, Hin.
      * intros ->. exfalso. apply Hfa, list_elem_of_In.
        change a with (fst (a, b)). apply in_map, Hin.
  - destruct Hin as [[= <- <-]|Hin]; [| apply IH; assumption].
    split; [| intros ->; contradiction].
    intros H. exfalso. apply Hsb.
    destruct (find _ l) as [[x y]|] eqn:Hfind; [| discriminate].
    injection H as ->. apply find_some in Hfind as [Hfind _].
    apply list_elem_of_In. change b' with (snd (x, b')). apply in_map, Hfind.
Qed.

Lemma cat_map_spec cat key c :
  In (cat, key) _CAT_MAP -> cat_map c = Some key <-> c = cat.
Proof.
  apply assoc_find_iff.
  - apply (bool_decide_unpack (NoDup (map fst _CAT_MAP))). vm_compute. exact I.
  - apply (bool_decide_unpack (NoDup (map snd _CAT_MAP))). vm_compute. exact I.
Qed.

Lemma tw_writes_spec cat key t :
  In (cat, key) _CAT_MAP -> tw_writes key t = String.eqb (category t) cat.
Proof.
  intros Hin. unfold tw_writes.
  destruct (String.eqb_spec (category t) cat) as [He|Hne].
  - apply (cat_map_spec cat key) in He; [| exact Hin]. rewrite He. apply String.eqb_refl.
  - destruct (cat_map (category t)) as [k|] eqn:Hk; [| reflexivity].
    apply String.eqb_neq. intros ->. apply Hne.
    apply (cat_map_spec cat k); assumption.
Qed.

Lemma pairs_again {A B} (l : list (A * B)) : map (fun s => (s.1, s.2)) l = l.
Proof. induction l as [|[a b] l IH]; [reflexivity |]. cbn [map fst snd]. f_equal. exact IH. Qed.

Lemma tw_step_sections tw t :
  tw_step tw t = map (fun s => (s.1, tw_section_step s.1 s.2 t)) tw.
Proof.
  unfold tw_step, tw_section_step, tw_set. destruct (cat_map (category t)) as [k|].
  - apply map_ext. intros [s m]. cbn [fst snd]. destruct (String.eqb s k); reflexivity.
  - symmetry. apply pairs_again.
Qed.

(** The loop works on each section by itself. *)
Lemma tw_fold_sections toks : forall tw,
  fold_left tw_step toks tw
  = map (fun s => (s.1, fold_left (tw_section_step s.1) toks s.2)) tw.
Proof.
  induction toks as [|t toks IH]; intros tw; cbn [fold_left].
  - symmetry. apply pairs_again.
  - rewrite IH, tw_step_sections, map_map. apply map_ext. intros [s m]. reflexivity.
Qed.

(** An entry of a section holds the value of the last token written to it
    under that key. *)
Lemma section_lookup key toks : forall (m0 : gmap string string) k,
  fold_left (tw_section_step key) toks m0 !! k
  = match last (List.filter (fun t => tw_writes key t && String.eqb (tw_slug t) k) toks) with
    | Some t => Some (value t)
    | None => m0 !! k
    end.
Proof.
  induction toks as [|t toks IH]; intros m0 k; [reflexivity |].
  cbn [fold_left List.filter]. rewrite IH.
  unfold tw_section_step.
  replace (tw_writes key t)
    with (match cat_map (category t) with Some k0 => String.eqb key k0 | None => false end)
    by reflexivity.
  destruct (cat_map (category t)) as [k'|]; [| reflexivity].
  destruct (String.eqb key k'); cbn [andb]; [| reflexivity].
  destruct (String.eqb_spec (tw_slug t) k) as [He|Hne].
  - rewrite last_cons. destruct (last _); [reflexivity |].
    subst k. rewrite lookup_insert_eq. reflexivity.
  - rewrite lookup_insert_ne by exact Hne. reflexivity.
Qed.

Lemma has_entry_false_iff (m : gmap string string) : has_entry m = false <-> m = ∅.
Proof.
  unfold has_entry. rewrite <- map_to_list_empty_iff.
  destruct (map_to_list m); split; intros H; congruence.
Qed.

(** A section has an entry exactly when some token is written to it. *)
Lemma section_has_entry key toks :
  has_entry (fold_left (tw_section_step key) toks ∅)
  = match List.filter (tw_writes key) toks with
    | [] => false
    | _ :: _ => true
    end.
Proof.
  destruct (List.filter (tw_writes key) toks) as [|t l] eqn:Hf.
  - apply has_entry_false_iff. apply map_eq. intros k.
    rewrite section_lookup, lookup_empty.
    rewrite filter_none_bool; [reflexivity |].
    intros t Ht. apply andb_false_iff. left.
    destruct (tw_writes key t) eqn:Hw; [| reflexivity].
    assert (Hin : In t (List.filter (tw_writes key) toks))
      by (apply filter_In; split; assumption).
    rewrite Hf in Hin. destruct Hin.
  - destruct (has_entry _) eqn:Hh; [reflexivity |]. exfalso.
    apply has_entry_false_iff in Hh.
    assert (Hin : In t (List.filter (tw_writes key) toks)) by (rewrite Hf; left; reflexivity).
    apply filter_In in Hin as [Hin Hw].
    pose proof (section_lookup key toks ∅ (tw_slug t)) as Hl.
    rewrite Hh, lookup_empty in Hl.
    destruct (last _) as [x|] eqn:Hlast; [discriminate |].
    apply last_None in Hlast.
    assert (Hin' : In t (List.filter
                           (fun t0 => tw_writes key t0 && String.eqb (tw_slug t0) (tw_slug t))
                           toks)).
    { apply filter_In. split; [exact Hin |]. rewrite Hw, String.eqb_refl. reflexivity. }
    rewrite Hlast in Hin'. destruct Hin'.
Qed.

Lemma filter_existsb {A} (p : A -> bool) (l : list A) :
  match List.filter p l with
  | [] => false
  | _ :: _ => true
  end = existsb p l.
Proof.
  induction l as [|x l IH]; [reflexivity |]. cbn [List.filter existsb].
  destruct (p x); [reflexivity | exact IH].
Qed.

Lemma find_section {V} (q : string * V -> bool) (M : string -> V) key sections :
  NoDup sections -> In key sections ->
  find (fun s => String.eqb s.1 key) (List.filter q (map (fun k => (k, M k)) sections))
  = if q (key, M key) then Some (key, M key) else None.
Proof.
  induction sections as [|s ss IH]; intros Hnd Hin; [destruct Hin |].
  apply NoDup_cons in Hnd as [Hs Hnd]. cbn [map List.filter].
  destruct (String.eqb_spec s key) as [He|Hne].
  - subst s. destruct (q (key, M key)).
    + cbn [find fst]. rewrite String.eqb_refl. reflexivity.
    + destruct (find _ _) as [x|] eqn:Hf; [| reflexivity]. exfalso.
      apply find_some in Hf as [Hx He]. apply String.eqb_eq in He.
      apply filter_In in Hx as [Hx _]. apply in_map_iff in Hx as (k & <- & Hk).
      cbn [fst] in He. subst k. apply Hs, list_elem_of_In, Hk.
  - destruct Hin as [?|Hin]; [contradiction |].
    destruct (q (s, M s)); [cbn [find fst] |]; rewrite ?(proj2 (String.eqb_neq s key) Hne);
      apply IH; assumption.
Qed.

Lemma theme_sections toks :
  tailwind_theme toks
  = List.filter (fun section => has_entry section.2)
      (map (fun key => (key, fold_left (tw_section_step key) toks ∅)) tw_sections).
Proof.
  unfold tailwind_theme, tw_empty. rewrite tw_fold_sections, map_map. reflexivity.
Qed.

Lemma filter_map_fst {V} (q : string -> bool) (M : string -> V) sections :
  map fst (List.filter (fun s => q s.1) (map (fun k => (k, M k)) sections))
  = List.filter q sections.
Proof.
  induction sections as [|s ss IH]; [reflexivity |]. cbn [map List.filter fst].
  destruct (q s); cbn [map fst]; rewrite IH; reflexivity.
Qed.

(** X23: the theme [export_tailwind_config] writes has, in the order of
    the nine sections, exactly the sections some listed token is written
    to.  For each category of [_CAT_MAP], its section is there exactly when
    the listing (which leaves deprecated tokens out) holds a token of that
    category, and an entry of the section is the value of the last listed
    token of that category whose slug ends in that key after its last
    hyphen: of two such tokens the later in listing order wins. *)
Theorem tailwind_theme_entries (db : DB) :
  map fst (tailwind_theme (list_tokens None false db))
  = List.filter
      (fun key => existsb (tw_writes key) (list_tokens None false db))
      tw_sections
  /\ Forall
       (fun entry =>
          match find (fun s => String.eqb s.1 entry.2)
                  (tailwind_theme (list_tokens None false db)) with
          | None =>
              List.filter (fun t => String.eqb (category t) entry.1)
                (list_tokens None false db) = []
          | Some section =>
              List.filter (fun t => String.eqb (category t) entry.1)
                (list_tokens None false db) <> []
              /\ forall k,
                   section.2 !! k
                   = value <$> last (List.filter
                                       (fun t => String.eqb (category t) entry.1
                                                 && String.eqb (tw_slug t) k)
                                       (list_tokens None false db))
          end)
       _CAT_MAP.
Proof.
  rewrite theme_sections. generalize (list_tokens None false db). intros toks. split.
  - rewrite (filter_ext_in (fun section : string * gmap string string => has_entry section.2)
               (fun section => existsb (tw_writes section.1) toks)).
    + apply (filter_map_fst (fun key => existsb (tw_writes key) toks)).
    + intros s Hs. apply in_map_iff in Hs as (key & <- & _). cbn [fst snd].
      rewrite section_has_entry. apply filter_existsb.
  - apply List.Forall_forall. intros [cat key] Hin. cbn [fst snd].
    rewrite (find_section (fun s : string * gmap string string => has_entry s.2)
               (fun key => fold_left (tw_section_step key) toks ∅) key tw_sections).
    + cbn [snd]. rewrite section_has_entry.
      rewrite (filter_ext (tw_writes key) (fun t => String.eqb (category t) cat))
        by (intros t; apply tw_writes_spec, Hin).
      destruct (List.filter (fun t => String.eqb (category t) cat) toks) as [|t l];
        [reflexivity |].
      split; [discriminate |]. intros k. cbn [snd].
      rewrite section_lookup, lookup_empty.
      rewrite (filter_ext (fun t0 => tw_writes key t0 && String.eqb (tw_slug t0) k)
                 (fun t0 => String.eqb (category t0) cat && String.eqb (tw_slug t0) k))
        by (intros t0; rewrite (tw_writes_spec cat key t0 Hin); reflexivity).
      destruct (last _); reflexivity.
    + apply (bool_decide_unpack (NoDup tw_sections)). vm_compute. exact I.
    + change tw_sections with (map snd _CAT_MAP).
      change key with (snd (cat, key)). apply in_map, Hin.
Qed.

(* ====================================================================== *)
(** * References that do not resolve *)
(* ====================================================================== *)

Lemma get_resolves ref db :
  (exists m, _get ref db = inr m) <-> known_reference ref db.
Proof.
  unfold _get, _load_snapshot_tokens, known_reference, select_snapshot.
  destruct (String.eqb_spec ref "current") as [He|Hne].
  - split; [intros _; left; exact He | intros _; eauto].
  - destruct (find _ (token_snapshots db)) as [s|] eqn:Hf.
    + split; [intros _ | eauto]. right. apply find_some in Hf as [Hin Hs].
      exists s. split; [exact Hin |].
      apply orb_true_iff in Hs. rewrite !String.eqb_eq in Hs. exact Hs.
    + split; [intros [m Hm]; discriminate |].
      intros [He|(s & Hin & Hs)]; [contradiction |]. exfalso.
      pose proof (find_none _ _ Hf s Hin) as Hn. cbn beta in Hn.
      apply orb_false_iff in Hn as [H1 H2]. apply String.eqb_neq in H1, H2.
      destruct Hs; contradiction.
Qed.

Lemma get_raises ref db e :
  _get ref db = inl e -> e = KeyError ref /\ ~ known_reference ref db.
Proof.
  intros H. split.
  - unfold _get, _load_snapshot_tokens in H.
    destruct (String.eqb ref "current"); [discriminate |].
    destruct (select_snapshot ref db); [discriminate |]. congruence.
  - intros Hk. apply get_resolves in Hk as [m Hm]. congruence.
Qed.

(** X24: [diff] returns exactly when both references resolve, each being
    the keyword [current] or the id or version of a stored snapshot, and
    the result then carries the two references as given.  Otherwise it
    raises [KeyError] for the first reference that does not resolve, and
    nothing else. *)
Theorem diff_raises_for_unknown_references (a b : string) (db : DB) :
  ((exists d, diff a b db = inr d /\ d_a d = a /\ d_b d = b)
   <-> known_reference a db /\ known_reference b db)
  /\ (diff a b db = inl (KeyError a) <-> ~ known_reference a db)
  /\ (diff a b db = inl (KeyError b)
      <-> ~ known_reference b db /\ (known_reference a db \/ a = b))
  /\ (forall e, diff a b db = inl e -> e = KeyError a \/ e = KeyError b).
Proof.
  pose proof (get_resolves a db) as Ha. pose proof (get_resolves b db) as Hb.
  pose proof (get_raises a db) as Ra. pose proof (get_raises b db) as Rb.
  unfold diff.
  destruct (_get a db) as [ea|ma]; [| destruct (_get b db) as [eb|mb]].
  - destruct (Ra ea eq_refl) as [-> Hna]. split; [| split; [| split]].
    + split; [intros (d & Hd & _); discriminate | intros [Hka _]; contradiction].
    + split; [intros _; exact Hna | reflexivity].
    + split.
      * intros [= <-]. split; [exact Hna | right; reflexivity].
      * intros [_ [Hka| ->]]; [contradiction | reflexivity].
    + intros e [= <-]. left. reflexivity.
  - destruct (Rb eb eq_refl) as [-> Hnb].
    assert (Hka : known_reference a db) by (apply Ha; eauto).
    split; [| split; [| split]].
    + split; [intros (d & Hd & _); discriminate | intros [_ Hkb]; contradiction].
    + split; [intros [= ->]; contradiction | intros Hna; contradiction].
    + split; [intros _; split; [exact Hnb | left; exact Hka] | reflexivity].
    + intros e [= <-]. right. reflexivity.
  - assert (Hka : known_reference a db) by (apply Ha; eauto).
    assert (Hkb : known_reference b db) by (apply Hb; eauto).
    split; [| split; [| split]].
    + split; [intros _; split; assumption |].
      intros _. eexists. split; [reflexivity |]. unfold diff_maps.
      destruct (fold_left _ _ _). split; reflexivity.
    + split; [discriminate | intros Hna; contradiction].
    + split; [discriminate | intros [Hnb _]; contradiction].
    + discriminate.
Qed.
